(** * TheForce: the active-learning calculator ([theforce/calculator/active.py])

    A shallow embedding of [ActiveCalculator] and of the two padding helpers
    of [active.py].  Torch tensors of floats are idealised as lists of real
    numbers (no rounding, no NaN); a 2-d tensor carries its second dimension
    explicitly so that a tensor with zero rows still has a column count, as
    in torch.  The sparse posterior model, the kernel, automatic
    differentiation, the reference calculator and the collective backend are
    external to [active.py]: they are the fields of the class [External]. *)

From Stdlib Require Import Reals Lra Lia List ZArith Bool Arith Permutation.
Import ListNotations.
Open Scope R_scope.

(** ** Tensors *)

Definition vec := list R.

Fixpoint map2 {A B C : Type} (f : A -> B -> C) (a : list A) (b : list B) : list C :=
  match a, b with
  | x :: a', y :: b' => f x y :: map2 f a' b'
  | _, _ => []
  end.

Definition vsum (v : vec) : R := fold_right Rplus 0 v.
Definition dot (a b : vec) : R := vsum (map2 Rmult a b).
Definition vadd (a b : vec) : vec := map2 Rplus a b.
Definition vscale (k : R) (a : vec) : vec := map (Rmult k) a.
Definition zeros (n : nat) : vec := repeat 0 n.

(** A 2-d tensor: [size1] is [t.size(1)], [length (rows t)] is [t.size(0)]. *)
Record Tensor2 := mkT2 { size1 : nat; rows : list vec }.
Definition size0 (t : Tensor2) : nat := length (rows t).

(** [torch.cat([a, b], dim=1)]: the row counts must agree. *)
Definition cat_dim1 (a b : Tensor2) : option Tensor2 :=
  if size0 a =? size0 b
  then Some (mkT2 (size1 a + size1 b) (map2 (@app R) (rows a) (rows b)))
  else None.

(** [t @ w] for a vector [w]: the inner dimensions must agree. *)
Definition matvec (t : Tensor2) (w : vec) : option vec :=
  if size1 t =? length w then Some (map (fun r => dot r w) (rows t)) else None.

(** [a @ b.T]. *)
Definition matmul_T (a b : Tensor2) : option Tensor2 :=
  if size1 a =? size1 b
  then Some (mkT2 (size0 b) (map (fun ra => map (fun rb => dot ra rb) (rows b)) (rows a)))
  else None.

(** [(t*t).sum(dim=0)] and [t.sum(dim=1)]. *)
Definition sq (x : R) : R := x * x.
Definition sumsq_dim0 (t : Tensor2) : vec :=
  map (fun i => vsum (map (fun r => nth i (map sq r) 0) (rows t))) (seq 0 (size1 t)).
Definition sum_dim1 (t : Tensor2) : vec := map vsum (rows t).

(** Element-wise binary operation on 1-d tensors with torch broadcasting. *)
Definition broadcast2 (f : R -> R -> R) (a b : vec) : option vec :=
  if length a =? length b then Some (map2 f a b)
  else match a, b with
       | [x], _ => Some (map (f x) b)
       | _, [y] => Some (map (fun x => f x y) a)
       | _, _ => None
       end.

(** [isclose] / [allclose] against the scalar one, with torch's defaults
    [rtol = 1e-05] and [atol = 1e-08]. *)
Definition rtol : R := / 100000.
Definition atol : R := / 100000000.
Definition isclose (a b : R) : bool :=
  if Rle_dec (Rabs (a - b)) (atol + rtol * Rabs b) then true else false.
Definition allclose_ones (v : vec) : bool := forallb (fun a => isclose a 1) v.

(** [torch.finfo().tiny] for the default dtype float32: 2^-126. *)
Definition tiny : R := / (2 ^ 126).

(** [torch.argsort(v, descending=True)] as a stable insertion sort of the
    indices (torch leaves the order of ties unspecified). *)
Fixpoint insert_desc (v : vec) (i : nat) (l : list nat) : list nat :=
  match l with
  | [] => [i]
  | j :: l' => if Rlt_dec (nth i v 0) (nth j v 0)
               then j :: insert_desc v i l' else i :: l
  end.
Definition argsort_desc (v : vec) : list nat :=
  fold_right (insert_desc v) [] (seq 0 (length v)).

(** [x[i] = a] on a list; out of range raises in Python, hence [option]. *)
Fixpoint set_nth {A : Type} (i : nat) (a : A) (l : list A) : option (list A) :=
  match l, i with
  | [], _ => None
  | _ :: l', O => Some (a :: l')
  | x :: l', S i' => option_map (cons x) (set_nth i' a l')
  end.

(** ** [pad_1d] and [pad_2d]

    [torch.zeros] refuses a negative size, so padding to a shorter tensor
    fails. *)
Definition pad_1d (a b : vec) : option vec :=
  if length a <=? length b
  then Some (a ++ zeros (length b - length a)) else None.

Definition pad_2d (a b : Tensor2) : option Tensor2 :=
  if (size0 a <=? size0 b) && (size1 a <=? size1 b)
  then Some (mkT2 (size1 b)
               (map (fun r => r ++ zeros (size1 b - size1 a))
                    (rows a ++ repeat (zeros (size1 a)) (size0 b - size0 a))))
  else None.

(** ** Data model *)

(** A local chemical environment: the species of the focal atom and an
    opaque description of its neighbourhood. *)
Record Local := mkLocal { number : Z; environ : vec }.

Record TorchAtoms := mkAtoms {
  locs : list Local;        (* [gathered()]: one environment per atom *)
  indices : list nat;       (* global indices owned by this worker *)
  is_distributed : bool;
  xyz : list vec;           (* positions of the owned atoms, n x 3 *)
  lll : list vec;           (* cell vectors, 3 x 3 *)
  get_volume : option R     (* [None]: ase raises ValueError *)
}.

Definition natoms (a : TorchAtoms) : nat := length (locs a).
Definition numbers (a : TorchAtoms) : list Z := map number (locs a).
Definition local (a : TorchAtoms) (k : nat) : option Local := nth_error (locs a) k.

(** [for x in self.atoms]: the environments this worker owns. *)
Definition owned (a : TorchAtoms) : list Local :=
  if is_distributed a
  then flat_map (fun i => match local a i with Some x => [x] | None => [] end) (indices a)
  else locs a.

(** A labelled configuration of the training set. *)
Record Snapshot := mkSnap {
  conf : TorchAtoms; target_energy : R; target_forces : list vec }.

Record PosteriorPotential := mkModel {
  data : list Snapshot;     (* training set *)
  X : list Local;           (* inducing set *)
  mu : vec;                 (* weights *)
  Mi : Tensor2;
  choli : Tensor2;
  species : list Z          (* [gp.species] *)
}.
Definition ndata (m : PosteriorPotential) : nat := length (data m).

Record Results := mkResults {
  energy : R; forces : list vec; stress : vec }.

(** Interactions with collaborators that the development observes. *)
Inductive Event :=
| EvAllReduce                      (* a [torch.distributed.all_reduce] *)
| EvExact (c : TorchAtoms)         (* a call of the reference calculator *)
| EvGrads (cols nX : nat).         (* [grads]: cache columns, inducing-set size *)

Record ActiveCalculator := mkCalc {
  model : PosteriorPotential;
  atoms : TorchAtoms;
  cov : Tensor2;
  ediff : R; fdiff : R; covdiff : R;
  bias : option R;
  bias_pot : option vec;
  step : nat;
  normalized : option bool;
  blind : bool;
  results : option Results;
  trace : list Event
}.

Definition set_model m s := mkCalc m (atoms s) (cov s) (ediff s) (fdiff s) (covdiff s)
  (bias s) (bias_pot s) (step s) (normalized s) (blind s) (results s) (trace s).
Definition set_atoms a s := mkCalc (model s) a (cov s) (ediff s) (fdiff s) (covdiff s)
  (bias s) (bias_pot s) (step s) (normalized s) (blind s) (results s) (trace s).
Definition set_cov c s := mkCalc (model s) (atoms s) c (ediff s) (fdiff s) (covdiff s)
  (bias s) (bias_pot s) (step s) (normalized s) (blind s) (results s) (trace s).
Definition set_covdiff c s := mkCalc (model s) (atoms s) (cov s) (ediff s) (fdiff s) c
  (bias s) (bias_pot s) (step s) (normalized s) (blind s) (results s) (trace s).
Definition set_bias_pot p s := mkCalc (model s) (atoms s) (cov s) (ediff s) (fdiff s) (covdiff s)
  (bias s) p (step s) (normalized s) (blind s) (results s) (trace s).
Definition set_step n s := mkCalc (model s) (atoms s) (cov s) (ediff s) (fdiff s) (covdiff s)
  (bias s) (bias_pot s) n (normalized s) (blind s) (results s) (trace s).
Definition set_normalized b s := mkCalc (model s) (atoms s) (cov s) (ediff s) (fdiff s) (covdiff s)
  (bias s) (bias_pot s) (step s) b (blind s) (results s) (trace s).
Definition set_blind b s := mkCalc (model s) (atoms s) (cov s) (ediff s) (fdiff s) (covdiff s)
  (bias s) (bias_pot s) (step s) (normalized s) b (results s) (trace s).
Definition set_results r s := mkCalc (model s) (atoms s) (cov s) (ediff s) (fdiff s) (covdiff s)
  (bias s) (bias_pot s) (step s) (normalized s) (blind s) r (trace s).
Definition log_event e s := mkCalc (model s) (atoms s) (cov s) (ediff s) (fdiff s) (covdiff s)
  (bias s) (bias_pot s) (step s) (normalized s) (blind s) (results s) (trace s ++ [e]).

(** ** The external collaborators *)

Class External := {
  (* the kernel on two environments; [kern(x, x)] is [kern1 x x] *)
  kern1 : Local -> Local -> R;
  (* the sparse posterior model *)
  add_inducing : PosteriorPotential -> Local -> PosteriorPotential;
  add_1inducing : PosteriorPotential -> Local -> R -> bool -> PosteriorPotential * bool;
  add_1atoms : PosteriorPotential -> Snapshot -> R -> R -> PosteriorPotential;
  set_data : PosteriorPotential -> list Snapshot -> list Local -> PosteriorPotential;
  make_munu : PosteriorPotential -> PosteriorPotential;
  (* the reference calculator: energy and forces *)
  exact_calc : TorchAtoms -> R * list vec;
  (* autograd of [(cov @ w).sum()] w.r.t. positions and cell; [None]: unused *)
  grad_xyz : TorchAtoms -> Tensor2 -> vec -> option (list vec);
  grad_lll : TorchAtoms -> Tensor2 -> vec -> option (list vec);
  (* the collective backend: [None] when no process group is initialised;
     [Some peers]: [peers v] is what the other workers add, element-wise, to
     a collective in which this worker contributes [v] *)
  backend : option (vec -> vec)
}.

(** ** A state and exception monad with fuel exhaustion *)

Inductive Exn :=
| ShapeError | EmptyCat | IndexError | KeyError | NameError | TypeError
| NotInitialized.

Inductive Outcome (A : Type) :=
| Ret (a : A) (s : ActiveCalculator)
| Raise (e : Exn)
| Timeout.
Arguments Ret {A} a s.
Arguments Raise {A} e.
Arguments Timeout {A}.

Definition M (A : Type) := ActiveCalculator -> Outcome A.

Definition ret {A} (a : A) : M A := fun s => Ret a s.
Definition bind {A B} (m : M A) (k : A -> M B) : M B :=
  fun s => match m s with
           | Ret a s' => k a s'
           | Raise e => Raise e
           | Timeout => Timeout
           end.
Definition raise {A} (e : Exn) : M A := fun _ => Raise e.
Definition get : M ActiveCalculator := fun s => Ret s s.
Definition modify (f : ActiveCalculator -> ActiveCalculator) : M unit := fun s => Ret tt (f s).
Definition lift {A} (e : Exn) (o : option A) : M A :=
  match o with Some a => ret a | None => raise e end.

Declare Scope m_scope.
Delimit Scope m_scope with m.
Notation "x <- c1 ;; c2" := (bind c1 (fun x => c2))
  (at level 100, c1 at next level, right associativity) : m_scope.
Notation "c1 ;;; c2" := (bind c1 (fun _ => c2))
  (at level 100, right associativity) : m_scope.
Open Scope m_scope.

(** ** The calculator *)

Section Calculator.
Context `{Ext : External}.

(** [torch.distributed.all_reduce], on a 1-d tensor, a scalar and a 2-d
    tensor (one collective each). *)
Definition all_reduce (v : vec) : M vec :=
  fun s => match backend with
           | Some peers => Ret (vadd v (peers v)) (log_event EvAllReduce s)
           | None => Raise NotInitialized
           end.

Definition all_reduce_scalar (x : R) : M R :=
  v <- all_reduce [x];; ret (nth 0 v 0).

Definition all_reduce_rows (t : list vec) : M (list vec) :=
  fun s => match backend with
           | Some peers => Ret (map (fun r => vadd r (peers r)) t) (log_event EvAllReduce s)
           | None => Raise NotInitialized
           end.

(** [self.model.gp.kern(self.atoms, loc)] and [kern(self.atoms, self.model.X)]. *)
Definition kern_atoms_loc (a : TorchAtoms) (loc : Local) : Tensor2 :=
  mkT2 1 (map (fun x => [kern1 x loc]) (owned a)).
Definition kern_atoms_X (a : TorchAtoms) (Xs : list Local) : Tensor2 :=
  mkT2 (length Xs) (map (fun x => map (kern1 x) Xs) (owned a)).

(** [calculate_results] and [grads] *)

(** [(a[:, None] * b[..., None]).sum(dim=0)] for n x 3 tensors:
    entry (i, j) is the sum over the rows r of [b r i * a r j]. *)
Definition outer_sum (a b : list vec) : list vec :=
  map (fun i => map (fun j => vsum (map2 (fun ra rb => nth i rb 0 * nth j ra 0) a b))
                    (seq 0 3)) (seq 0 3).

Definition voigt (st : list vec) : vec :=
  map (fun i => nth i (concat st) 0) [0; 4; 8; 5; 2; 1]%nat.

(** The two contributions to the stress, before the division by the
    volume. *)
Definition virial (a : TorchAtoms) (forces cellgrad : list vec) : list vec :=
  let stress1 := map (vscale (-1)) (outer_sum forces (xyz a)) in
  let stress2 := outer_sum cellgrad (lll a) in
  map2 vadd stress1 stress2.

Definition grads (w : vec) (retain_graph : bool) : M (list vec * list vec) :=
  s <- get;;
  modify (log_event (EvGrads (size1 (cov s)) (length (X (model s)))));;;
  let a := atoms s in
  let forces := match grad_xyz a (cov s) w with
                | None => map (fun r => zeros (length r)) (xyz a)
                | Some rgrad => map (vscale (-1)) rgrad
                end in
  forces <- (if is_distributed a then all_reduce_rows forces else ret forces);;
  let cellgrad := match grad_lll a (cov s) w with
                  | None => map (fun r => zeros (length r)) (lll a)
                  | Some g => g
                  end in
  cellgrad <- (if is_distributed a then all_reduce_rows cellgrad else ret cellgrad);;
  let volume := match get_volume a with
                | Some v => v
                | None => -2
                end in
  let stress := map (map (fun x => x / volume)) (virial a forces cellgrad) in
  ret (forces, stress).

Definition calculate_results (retain_graph : bool) : M R :=
  s <- get;;
  e <- lift ShapeError (option_map vsum (matvec (cov s) (mu (model s))));;
  e <- (if is_distributed (atoms s) then all_reduce_scalar e else ret e);;
  fs <- grads (mu (model s)) retain_graph;;
  modify (set_results (Some (mkResults e (fst fs) (voigt (snd fs)))));;;
  ret e.

(** [add_bias] *)
Definition add_bias : M R :=
  s <- get;;
  let p0 := match bias_pot s with
            | None => zeros (size1 (cov s))
            | Some p => p
            end in
  mt <- lift ShapeError (matmul_T (Mi (model s)) (cov s));;
  let mu_ := sum_dim1 mt in
  mu_ <- (if is_distributed (atoms s) then all_reduce mu_ else ret mu_);;
  padded <- lift ShapeError (pad_1d p0 mu_);;
  b <- lift TypeError (bias s);;
  bp <- lift ShapeError (broadcast2 Rplus padded (vscale b mu_));;
  modify (set_bias_pot (Some bp));;;
  bias_energy <- lift ShapeError (option_map vsum (matvec (cov s) bp));;
  bias_energy <- all_reduce_scalar bias_energy;;
  fs <- grads bp false;;
  r <- lift KeyError (results s);;
  modify (set_results (Some (mkResults (energy r + bias_energy)
                                       (map2 vadd (forces r) (fst fs))
                                       (vadd (stress r) (voigt (snd fs))))));;;
  ret bias_energy.

(** The bias step repeated [S n] times on the same configuration and
    model; the bias energy of the last visit. *)
Fixpoint revisit (n : nat) : M R :=
  match n with
  | O => add_bias
  | S n' => add_bias;;; revisit n'
  end.

(** [_exact], [snapshot] and [head] *)
Definition _exact (c : TorchAtoms) : M (R * list vec) :=
  modify (log_event (EvExact c));;;
  s <- get;;
  (if (0 <? ndata (model s))%nat
   then _r <- lift KeyError (results s);; ret tt
   else ret tt);;;
  ret (exact_calc c).

Definition snapshot (fake : bool) : M Snapshot :=
  s <- get;;
  let copy := atoms s in
  ef <- (if fake
         then r <- lift KeyError (results s);; ret (energy r, forces r)
         else _exact copy);;
  ret (mkSnap copy (fst ef) (snd ef)).

Definition set_last_targets (d : list Snapshot) (e : R) (f : list vec) : list Snapshot :=
  match rev d with
  | [] => []
  | x :: r => rev r ++ [mkSnap (conf x) e f]
  end.

Definition set_data_field (d : list Snapshot) (m : PosteriorPotential) : PosteriorPotential :=
  mkModel d (X m) (mu m) (Mi m) (choli m) (species m).

Definition head : M unit :=
  s <- get;;
  added <- lift IndexError (hd_error (rev (data (model s))));;
  ef <- _exact (conf added);;
  modify (fun s => set_model (make_munu (set_data_field
            (set_last_targets (data (model s)) (fst ef) (snd ef)) (model s))) s).

(** [gather] and [get_covloss] *)

(** [_x[self.atoms.indices] = x] on [_x = torch.zeros(natoms)]. *)
Fixpoint scatter (idx : list nat) (x : vec) (acc : vec) : option vec :=
  match idx, x with
  | i :: idx', v :: x' =>
      match set_nth i v acc with
      | Some acc' => scatter idx' x' acc'
      | None => None
      end
  | _, _ => Some acc
  end.

Definition gather (x : vec) : M vec :=
  s <- get;;
  let a := atoms s in
  (if length (indices a) =? length x then ret tt else raise ShapeError);;;
  _x <- lift IndexError (scatter (indices a) x (zeros (natoms a)));;
  all_reduce _x.

Definition covloss_of (c : vec) : vec := map (fun x => sqrt (Rmax (1 - x) 0)) c.

Definition get_covloss : M vec :=
  s <- get;;
  b <- lift ShapeError (matmul_T (choli (model s)) (cov s));;
  let c := sumsq_dim0 b in
  c <- (match normalized s with
        | Some true => ret c
        | flag =>
            let alpha := map (fun x => kern1 x x) (owned (atoms s)) in
            (match alpha with [] => raise EmptyCat | _ => ret tt end);;;
            c' <- lift ShapeError (broadcast2 Rdiv c alpha);;
            (match flag with
             | None =>
                 al <- (if is_distributed (atoms s) then gather alpha else ret alpha);;
                 modify (set_normalized (Some (allclose_ones al)))
             | Some _ => ret tt
             end);;;
            ret c'
        end);;
  let beta := covloss_of c in
  if is_distributed (atoms s) then gather beta else ret beta.

(** [update_inducing] *)

Record Locals := mkLocals {
  added_beta : nat; added_diff : nat; added_indices : list nat }.

Definition mem (k : nat) (l : list nat) : bool := existsb (Nat.eqb k) l.

(** [for k in q.tolist(): if k not in added_indices: break]: the first
    index not yet added, else the last one; unbound for an empty [q]. *)
Definition pick (q added : list nat) : option nat :=
  match find (fun k => negb (mem k added)) q with
  | Some k => Some k
  | None => hd_error (rev q)
  end.

(** One turn of the [while True] loop; [true] means the loop goes on. *)
Definition update_inducing_body (L : Locals) : M (Locals * bool) :=
  s <- get;;
  if length (added_indices L) =? natoms (atoms s) then ret (L, false)
  else
    beta <- get_covloss;;
    let q := argsort_desc beta in
    k <- lift NameError (pick q (added_indices L));;
    bk <- lift IndexError (nth_error beta k);;
    (if isclose bk 1 then modify (set_blind true) else ret tt);;;
    s <- get;;
    loc <- lift IndexError (local (atoms s) k);;
    if existsb (Z.eqb (number loc)) (species (model s)) then
      if Rlt_dec (covdiff s) bk then
        modify (fun s => set_model (add_inducing (model s) loc) s);;;
        let x := kern_atoms_loc (atoms s) loc in
        c <- lift ShapeError (cat_dim1 (cov s) x);;
        modify (set_cov c);;;
        ret (mkLocals (S (added_beta L)) (added_diff L) (added_indices L ++ [k]), true)
      else
        let _ediff := if (1 <? length (X (model s)))%nat then ediff s else tiny in
        let r := add_1inducing (model s) loc _ediff false in
        modify (set_model (fst r));;;
        if snd r then
          let x := kern_atoms_loc (atoms s) loc in
          c <- lift ShapeError (cat_dim1 (cov s) x);;
          modify (set_cov c);;;
          ret (mkLocals (added_beta L) (S (added_diff L)) (added_indices L ++ [k]), true)
        else ret (L, false)
    else ret (L, true).

Fixpoint update_inducing_loop (fuel : nat) (L : Locals) : M Locals :=
  match fuel with
  | O => fun _ => Timeout
  | S fuel' =>
      r <- update_inducing_body L;;
      if snd r then update_inducing_loop fuel' (fst r) else ret (fst r)
  end.

Definition update_inducing (fuel : nat) : M nat :=
  modify (set_blind false);;;
  L <- update_inducing_loop fuel (mkLocals 0 0 []);;
  ret (added_beta L + added_diff L)%nat.

(** [update_data] and [update] *)
Definition update_data (try_fake : bool) : M nat :=
  s <- get;;
  let n := ndata (model s) in
  new <- snapshot try_fake;;
  modify (fun s => set_model (add_1atoms (model s) new (ediff s) (fdiff s)) s);;;
  s <- get;;
  let added := (ndata (model s) - n)%nat in
  (if (0 <? added)%nat
   then if try_fake then head else ret tt
   else ret tt);;;
  ret added.

Definition update (fuel : nat) : M (nat * nat) :=
  m <- update_inducing fuel;;
  s <- get;;
  n <- (if (0 <? m)%nat then update_data (negb (blind s)) else ret 0%nat);;
  ret (m, n).

(** [initiate_model] *)

(** Modelled from the spec: [TorchAtoms.first_of_each_atom_type] is not part
    of [active.py]; it gives one representative atom per distinct species
    present, here the first atom of each species in order of appearance. *)
Fixpoint first_of_each_aux (seen : list Z) (i : nat) (ns : list Z) : list nat :=
  match ns with
  | [] => []
  | z :: ns' => if existsb (Z.eqb z) seen
                then first_of_each_aux seen (S i) ns'
                else i :: first_of_each_aux (z :: seen) (S i) ns'
  end.
Definition first_of_each_atom_type (a : TorchAtoms) : list nat :=
  first_of_each_aux [] 0 (numbers a).

Definition select {A} (l : list A) (idx : list nat) : list A :=
  flat_map (fun j => match nth_error l j with Some x => [x] | None => [] end) idx.

Definition initiate_model : M unit :=
  snap <- snapshot false;;
  s <- get;;
  let i := first_of_each_atom_type (conf snap) in
  let locs_ := locs (conf snap) in
  let inducing := select locs_ i in
  modify (set_model (set_data (model s) [snap] inducing));;;
  let rest := filter (fun j => negb (mem j i)) (seq 0 (natoms (conf snap))) in
  modify (fun s => set_model
            (fold_left (fun m loc => fst (add_1inducing m loc (ediff s) true))
                       (select locs_ rest) (model s)) s).

(** [calculate]: one step for the configuration [a]. *)
Definition is_some {A} (o : option A) : bool :=
  match o with Some _ => true | None => false end.

Definition calculate (fuel : nat) (a : TorchAtoms) : M unit :=
  modify (set_atoms a);;;
  s <- get;;
  skip <- (if (step s =? 0)%nat
           then if (ndata (model s) =? 0)%nat
                then initiate_model;;; ret true
                else ret false
           else ret false);;
  modify (fun s => set_cov (kern_atoms_X (atoms s) (X (model s))) s);;;
  _e <- calculate_results true;;
  (if skip then ret tt
   else
     mn <- update fuel;;
     if (0 <? snd mn)%nat || (0 <? fst mn)%nat
     then s <- get;; _e <- calculate_results (is_some (bias s));; ret tt
     else ret tt);;;
  s <- get;;
  (if is_some (bias s) then _b <- add_bias;; ret tt else ret tt);;;
  modify (fun s => set_step (S (step s)) s).

(** The model built by the bootstrap from configuration [a]. *)
Definition seeded (m : PosteriorPotential) (a : TorchAtoms) (e : R) : PosteriorPotential :=
  let i := first_of_each_atom_type a in
  let snap := mkSnap a (fst (exact_calc a)) (snd (exact_calc a)) in
  let rest := filter (fun j => negb (mem j i)) (seq 0 (natoms a)) in
  fold_left (fun m loc => fst (add_1inducing m loc e true))
            (select (locs a) rest)
            (set_data m [snap] (select (locs a) i)).

(** The steps of [calculate] after the decision to bootstrap. *)
Definition steady (fuel : nat) (skip : bool) : M unit :=
  modify (fun s => set_cov (kern_atoms_X (atoms s) (X (model s))) s);;;
  _e <- calculate_results true;;
  (if skip then ret tt
   else
     mn <- update fuel;;
     if (0 <? snd mn)%nat || (0 <? fst mn)%nat
     then s <- get;; _e <- calculate_results (is_some (bias s));; ret tt
     else ret tt);;;
  s <- get;;
  (if is_some (bias s) then _b <- add_bias;; ret tt else ret tt);;;
  modify (fun s => set_step (S (step s)) s).

End Calculator.

(** ** The selection loop as a relation

    The ways in which the decision on a candidate, and one turn of the
    [while True] loop of [update_inducing], can end. *)
Section Turns.
Context `{Ext : External}.

Inductive decide (L : Locals) (s : ActiveCalculator) (k : nat) (bk : R) (loc : Local)
  : Locals -> bool -> ActiveCalculator -> Prop :=
| decide_covloss c :
    existsb (Z.eqb (number loc)) (species (model s)) = true ->
    covdiff s < bk ->
    cat_dim1 (cov s) (kern_atoms_loc (atoms s) loc) = Some c ->
    decide L s k bk loc
      (mkLocals (S (added_beta L)) (added_diff L) (added_indices L ++ [k])) true
      (set_cov c (set_model (add_inducing (model s) loc) s))
| decide_energy c thr :
    existsb (Z.eqb (number loc)) (species (model s)) = true ->
    ~ covdiff s < bk ->
    thr = (if (1 <? length (X (model s)))%nat then ediff s else tiny) ->
    snd (add_1inducing (model s) loc thr false) = true ->
    cat_dim1 (cov s) (kern_atoms_loc (atoms s) loc) = Some c ->
    decide L s k bk loc
      (mkLocals (added_beta L) (S (added_diff L)) (added_indices L ++ [k])) true
      (set_cov c (set_model (fst (add_1inducing (model s) loc thr false)) s))
| decide_rejected thr :
    existsb (Z.eqb (number loc)) (species (model s)) = true ->
    ~ covdiff s < bk ->
    thr = (if (1 <? length (X (model s)))%nat then ediff s else tiny) ->
    snd (add_1inducing (model s) loc thr false) = false ->
    decide L s k bk loc L false
      (set_model (fst (add_1inducing (model s) loc thr false)) s)
| decide_unknown :
    existsb (Z.eqb (number loc)) (species (model s)) = false ->
    decide L s k bk loc L true s.

Inductive turn (L : Locals) (s : ActiveCalculator) : Locals -> bool -> ActiveCalculator -> Prop :=
| turn_exhausted :
    length (added_indices L) = natoms (atoms s) ->
    turn L s L false s
| turn_candidate beta s1 k bk loc L' go s' :
    length (added_indices L) <> natoms (atoms s) ->
    get_covloss s = Ret beta s1 ->
    pick (argsort_desc beta) (added_indices L) = Some k ->
    nth_error beta k = Some bk ->
    local (atoms s) k = Some loc ->
    decide L (if isclose bk 1 then set_blind true s1 else s1) k bk loc L' go s' ->
    turn L s L' go s'.

End Turns.

(** ** The contract of the posterior model

    What [active.py] relies on from the model of
    [theforce.regression.gppotential]: which operations touch the inducing
    set and which the training set. *)
Class ModelContract `{Ext : External} := {
  add_inducing_X : forall m loc, X (add_inducing m loc) = X m ++ [loc];
  add_inducing_data : forall m loc, data (add_inducing m loc) = data m;
  add_1inducing_X : forall m loc e d,
    X (fst (add_1inducing m loc e d)) =
    if snd (add_1inducing m loc e d) then X m ++ [loc] else X m;
  add_1inducing_data : forall m loc e d, data (fst (add_1inducing m loc e d)) = data m;
  add_1atoms_X : forall m sn e f, X (add_1atoms m sn e f) = X m;
  add_1atoms_data : forall m sn e f,
    data (add_1atoms m sn e f) = data m \/ data (add_1atoms m sn e f) = data m ++ [sn];
  make_munu_X : forall m, X (make_munu m) = X m;
  make_munu_data : forall m, data (make_munu m) = data m;
  set_data_X : forall m d i, X (set_data m d i) = i;
  set_data_data : forall m d i, data (set_data m d i) = d
}.

(** ** Predicates used in the statements *)

Definition in01 (b : R) : Prop := 0 <= b <= 1.


(** The shapes [add_bias] needs: [Mi] square of the size of the cache
    columns, an accumulator no longer than that, and a bias scale. *)
Definition bias_ready (s : ActiveCalculator) : Prop :=
  size1 (Mi (model s)) = size1 (cov s) /\
  size0 (Mi (model s)) = size1 (cov s) /\
  (forall p, bias_pot s = Some p -> (length p <= size1 (cov s))%nat) /\
  bias s <> None.

(** The covariance cache has one column per inducing point. *)
Definition cache_ok (s : ActiveCalculator) : Prop :=
  size1 (cov s) = length (X (model s)).

(** Every recorded gradient request saw as many cache columns as inducing
    points. *)
Definition reads_ok (tr : list Event) : Prop :=
  Forall (fun e => match e with EvGrads cols nX => cols = nX | _ => True end) tr.

(** What every operation after the computation of the cache guarantees. *)
Record evolves (s s' : ActiveCalculator) : Prop := mkEvolves {
  ev_atoms : atoms s' = atoms s;
  ev_step : step s' = step s;
  ev_bias : bias s' = bias s;
  ev_ediff : ediff s' = ediff s;
  ev_fdiff : fdiff s' = fdiff s;
  ev_covdiff : covdiff s' = covdiff s;
  ev_norm : forall f, normalized s = Some f -> normalized s' = Some f;
  ev_cache : cache_ok s -> cache_ok s';
  ev_rows : size0 (cov s') = size0 (cov s);
  ev_trace : exists tr, trace s' = trace s ++ tr /\ (cache_ok s -> reads_ok tr);
  ev_ndata : (ndata (model s) <= ndata (model s'))%nat;
  ev_X : exists more, X (model s') = X (model s) ++ more
}.

(** The snapshot of the current configuration labelled by the reference
    calculator, and the one labelled by the current prediction [r]. *)
Definition true_snapshot `{Ext : External} (s : ActiveCalculator) : Snapshot :=
  mkSnap (atoms s) (fst (exact_calc (atoms s))) (snd (exact_calc (atoms s))).

Definition fake_snapshot (s : ActiveCalculator) (r : Results) : Snapshot :=
  mkSnap (atoms s) (energy r) (forces r).

(** The model after the last training configuration has been relabelled by
    the reference calculator and the weights recomputed. *)
Definition promoted `{Ext : External} (m : PosteriorPotential) (added : Snapshot)
  : PosteriorPotential :=
  make_munu (set_data_field
    (set_last_targets (data m) (fst (exact_calc (conf added))) (snd (exact_calc (conf added))))
    m).

(** The candidate of a turn and its score. *)
Definition candidate `{Ext : External} (L : Locals) (s : ActiveCalculator) (k : nat) (loc : Local) : Prop :=
  exists beta bk,
    get_covloss s = Ret beta s /\
    pick (argsort_desc beta) (added_indices L) = Some k /\
    nth_error beta k = Some bk /\
    local (atoms s) k = Some loc.

(** The energy-sensitivity path of the selection loop, for the candidates
    that satisfy [guard]: a candidate whose score does not exceed the
    covariance-loss threshold is submitted to [add_1inducing] with the
    threshold [tiny] when the inducing set has at most one member and
    [ediff] otherwise, and a refusal ends the loop at once. *)
Definition energy_path `{Ext : External} (guard : Local -> PosteriorPotential -> Prop)
    (L : Locals) (s : ActiveCalculator) : Prop :=
  forall beta s1 k bk loc L' go s',
    update_inducing_body L s = Ret (L', go) s' ->
    length (added_indices L) <> natoms (atoms s) ->
    get_covloss s = Ret beta s1 ->
    pick (argsort_desc beta) (added_indices L) = Some k ->
    nth_error beta k = Some bk ->
    local (atoms s) k = Some loc ->
    guard loc (model s) ->
    ~ covdiff s < bk ->
    let thr := if (1 <? length (X (model s)))%nat then ediff s else tiny in
    let r := add_1inducing (model s) loc thr false in
    model s' = fst r /\ go = snd r /\
    (snd r = false ->
     L' = L /\ forall fuel, update_inducing_loop (S fuel) L s = Ret L s').

(** The guard of the source: the species of the candidate is one of
    [gp.species]. *)
Definition known_species (loc : Local) (m : PosteriorPotential) : Prop :=
  existsb (Z.eqb (number loc)) (species m) = true.

(** The species met for the first time while scanning [ns], [seen] being
    those met before. *)
Fixpoint new_species (seen : list Z) (ns : list Z) : list Z :=
  match ns with
  | [] => []
  | z :: ns' => if existsb (Z.eqb z) seen
                then new_species seen ns'
                else z :: new_species (z :: seen) ns'
  end.

(** The per-inducing-point mean response [(Mi @ cov.T).sum(dim=1)] and the
    energy [(cov @ w).sum()] of a weight vector. *)
Definition mean_response (mi c : Tensor2) : vec :=
  sum_dim1 (mkT2 (size0 c) (map (fun ra => map (fun rb => dot ra rb) (rows c)) (rows mi))).

Definition cache_energy (c : Tensor2) (w : vec) : R :=
  vsum (map (fun r => dot r w) (rows c)).

(** The accumulator as [add_bias] reads it, padded to the cache columns. *)
Definition padded_bias (s : ActiveCalculator) : vec :=
  let p0 := match bias_pot s with
            | None => zeros (size1 (cov s))
            | Some p => p
            end in
  p0 ++ zeros (size1 (cov s) - length p0).

(** The magnitude of the bias energy does not decrease from one visit of
    the same configuration to the next. *)
Definition bias_magnitude_monotone `{Ext : External} (s : ActiveCalculator) : Prop :=
  forall n e1 s1 e2 s2,
    revisit n s = Ret e1 s1 -> revisit (S n) s = Ret e2 s2 -> Rabs e1 <= Rabs e2.

(** A process group with this worker alone. *)
Definition single_worker `{Ext : External} : Prop :=
  exists peers, backend = Some peers /\ forall v, peers v = zeros (length v).

(** What an operation leaves untouched apart from the normalization flag
    and the trace. *)
Record frame (s s' : ActiveCalculator) : Prop := mkFrame {
  f_model : model s' = model s;
  f_atoms : atoms s' = atoms s;
  f_cov : cov s' = cov s;
  f_ediff : ediff s' = ediff s;
  f_fdiff : fdiff s' = fdiff s;
  f_covdiff : covdiff s' = covdiff s;
  f_bias : bias s' = bias s;
  f_bias_pot : bias_pot s' = bias_pot s;
  f_step : step s' = step s;
  f_blind : blind s' = blind s;
  f_results : results s' = results s
}.

Definition self_cov `{Ext : External} (a : TorchAtoms) : vec :=
  map (fun x => kern1 x x) (owned a).

Definition is_normalized (s : ActiveCalculator) : bool :=
  match normalized s with Some true => true | _ => false end.

(** The loss before the square root: [c], divided by the self-covariances
    unless the kernel is known to be normalized. *)
Definition loss_rel `{Ext : External} (s : ActiveCalculator) (c : vec) : Prop :=
  exists b, matmul_T (choli (model s)) (cov s) = Some b /\
    if is_normalized s then c = sumsq_dim0 b
    else self_cov (atoms s) <> [] /\
         broadcast2 Rdiv (sumsq_dim0 b) (self_cov (atoms s)) = Some c.

(** [keeps s s']: between [s] and [s'] nothing changed but results and
    trace. *)
Definition keeps (s s' : ActiveCalculator) : Prop :=
  model s' = model s /\ atoms s' = atoms s /\ cov s' = cov s /\
  normalized s' = normalized s /\ blind s' = blind s /\ step s' = step s /\
  bias s' = bias s /\ ediff s' = ediff s /\ fdiff s' = fdiff s /\
  covdiff s' = covdiff s.

(** The model operations that add inducing points leave the species of the
    kernel alone. *)
Class SpeciesStable `{Ext : External} := {
  add_inducing_species : forall m loc, species (add_inducing m loc) = species m;
  add_1inducing_species : forall m loc e d,
    species (fst (add_1inducing m loc e d)) = species m
}.

(** A state in which the selection loop is safe: no distribution, one cache
    row per atom, and every atom of a species the kernel knows. *)
Definition selectable (s : ActiveCalculator) : Prop :=
  is_distributed (atoms s) = false /\
  size0 (cov s) = natoms (atoms s) /\
  Forall (fun loc => known_species loc (model s)) (locs (atoms s)).

(** What the loop maintains about the atoms processed so far. *)
Definition tidy (L : Locals) (s : ActiveCalculator) : Prop :=
  NoDup (added_indices L) /\
  Forall (fun k => (k < natoms (atoms s))%nat) (added_indices L) /\
  (added_beta L + added_diff L = length (added_indices L))%nat.


(** The gradients that [grads] takes of the energy with weights [w]: the
    negated position gradient and the cell gradient, zero where autograd
    returns [None], each summed with the contribution of the other workers
    when the configuration is distributed. *)
Definition summed `{Ext : External} (a : TorchAtoms) (t : list vec) : list vec :=
  if is_distributed a
  then match backend with
       | Some peers => map (fun r => vadd r (peers r)) t
       | None => t
       end
  else t.

Definition own_forces `{Ext : External} (s : ActiveCalculator) (w : vec) : list vec :=
  summed (atoms s)
    match grad_xyz (atoms s) (cov s) w with
    | None => map (fun r => zeros (length r)) (xyz (atoms s))
    | Some rgrad => map (vscale (-1)) rgrad
    end.

Definition own_cellgrad `{Ext : External} (s : ActiveCalculator) (w : vec) : list vec :=
  summed (atoms s)
    match grad_lll (atoms s) (cov s) w with
    | None => map (fun r => zeros (length r)) (lll (atoms s))
    | Some g => g
    end.

(** The trace after [grads]: the request, and two collectives when the
    configuration is distributed. *)
Definition grads_logged (s : ActiveCalculator) : ActiveCalculator :=
  let s1 := log_event (EvGrads (size1 (cov s)) (length (X (model s)))) s in
  if is_distributed (atoms s)
  then log_event EvAllReduce (log_event EvAllReduce s1)
  else s1.
(** ** Further definitions: observations on traces *)

(** The number of calls of the reference calculator in a trace. *)
Fixpoint n_exact (tr : list Event) : nat :=
  match tr with
  | [] => 0
  | EvExact _ :: tr' => S (n_exact tr')
  | _ :: tr' => n_exact tr'
  end.

(** No collective in a trace. *)
Definition no_collective (tr : list Event) : Prop := ~ In EvAllReduce tr.

(** A 2-d tensor is well formed when every row has [size1] entries; [entry]
    reads one element. *)
Definition wf_tensor (t : Tensor2) : Prop :=
  Forall (fun r => length r = size1 t) (rows t).

Definition entry (t : Tensor2) (i j : nat) : R := nth j (nth i (rows t) []) 0.


(** [quiet s s']: what happened between [s] and [s'] involved no
    collective operation. *)
Definition quiet (s s' : ActiveCalculator) : Prop :=
  exists tr, trace s' = trace s ++ tr /\ no_collective tr.

(** ** [theforce/util/tensors.py]

    A tensor of any rank is its shape and its entries in row-major order.
    Dimensions are counted from the front.  [torch.cat] and [torch.split]
    are the library's: [torch.cat] leaves out the tensors of shape [(0,)],
    wants the others to agree in rank and in every size but the one along
    [dim], and glues them along [dim]; [torch.split] wants the sizes to add
    up to the size along [dim]. *)
Module Tensors.

Inductive Error := IndexError | RuntimeError | NameError | AssertionError.

Record Tensor := mkTensor { tshape : list nat; tvals : list R }.

Definition numel (sh : list nat) : nat := fold_right Nat.mul 1%nat sh.

Definition wf (t : Tensor) : Prop := length (tvals t) = numel (tshape t).

(** [tensor.size(dim)] *)
Definition size (t : Tensor) (dim : nat) : option nat := nth_error (tshape t) dim.

Definition set_dim (sh : list nat) (dim n : nat) : list nat :=
  firstn dim sh ++ n :: skipn (S dim) sh.

(** The [o]-th run of [sz] entries. *)
Definition block (sz o : nat) (l : list R) : list R := firstn sz (skipn (o * sz) l).

Definition legacy_empty (t : Tensor) : bool :=
  match tshape t with
  | [n] => (n =? 0)%nat
  | _ => false
  end.

Definition agree_but (dim : nat) (sh sh' : list nat) : bool :=
  (length sh =? length sh')%nat &&
  if list_eq_dec Nat.eq_dec (set_dim sh dim 0) (set_dim sh' dim 0) then true else false.

Definition size_or_0 (t : Tensor) (dim : nat) : nat :=
  match size t dim with Some n => n | None => 0%nat end.

Definition torch_cat (tensors : list Tensor) (dim : nat) : Error + Tensor :=
  match tensors with
  | [] => inl RuntimeError
  | _ :: _ =>
      match filter (fun t => negb (legacy_empty t)) tensors with
      | [] => inr (mkTensor [0%nat] [])
      | t0 :: rest =>
          if (dim <? length (tshape t0))%nat then
            if forallb (fun t => agree_but dim (tshape t0) (tshape t)) rest then
              let outer := numel (firstn dim (tshape t0)) in
              let inner := numel (skipn (S dim) (tshape t0)) in
              let us := t0 :: rest in
              inr (mkTensor
                     (set_dim (tshape t0) dim (list_sum (map (fun t => size_or_0 t dim) us)))
                     (concat (map (fun o =>
                        concat (map (fun t => block (size_or_0 t dim * inner) o (tvals t)) us))
                        (seq 0 outer))))
            else inl RuntimeError
          else inl IndexError
      end
  end.

Fixpoint pieces (f : nat -> nat -> Tensor) (off : nat) (sizes : list nat) : list Tensor :=
  match sizes with
  | [] => []
  | n :: rest => f off n :: pieces f (off + n) rest
  end.

Definition torch_split (t : Tensor) (sizes : list nat) (dim : nat) : Error + list Tensor :=
  match size t dim with
  | None => inl IndexError
  | Some n =>
      if (list_sum sizes =? n)%nat then
        let outer := numel (firstn dim (tshape t)) in
        let inner := numel (skipn (S dim) (tshape t)) in
        inr (pieces (fun off len =>
               mkTensor (set_dim (tshape t) dim len)
                 (concat (map (fun o =>
                    firstn (len * inner) (skipn (off * inner) (block (n * inner) o (tvals t))))
                    (seq 0 outer))))
               0 sizes)
      else inl RuntimeError
  end.

Fixpoint sizes_along (tensors : list Tensor) (dim : nat) : option (list nat) :=
  match tensors with
  | [] => Some []
  | t :: rest =>
      match size t dim with
      | None => None
      | Some n => option_map (cons n) (sizes_along rest dim)
      end
  end.

Definition cat (tensors : list Tensor) (dim : nat) : Error + (Tensor * list nat) :=
  match sizes_along tensors dim with
  | None => inl IndexError
  | Some lengths =>
      match torch_cat tensors dim with
      | inl e => inl e
      | inr c => inr (c, lengths ++ [dim])
      end
  end.

(** [spec[:-1]] are the sizes and [spec[-1]] is the dimension. *)
Definition split (tensor : Tensor) (spec : list nat) : Error + list Tensor :=
  match rev spec with
  | [] => inl IndexError
  | dim :: sizes => torch_split tensor (rev sizes) dim
  end.

(** [stretch_tensor]: [list.insert] puts the element at the end when the
    position is beyond it. *)
Definition list_insert (i : nat) (x : nat) (l : list nat) : list nat :=
  firstn i l ++ x :: skipn i l.

Fixpoint sort_insert (d : nat) (l : list nat) : list nat :=
  match l with
  | [] => [d]
  | x :: r => if (d <=? x)%nat then d :: l else x :: sort_insert d r
  end.

Definition sorted (dims : list nat) : list nat := fold_right sort_insert [] dims.

Fixpoint stretch_size (sz : list nat) (added : nat) (dims : list nat) : list nat :=
  match dims with
  | [] => sz
  | dim :: rest => stretch_size (list_insert (added + dim) 1%nat sz) (S added) rest
  end.

Definition stretch_tensor (a : Tensor) (dims : list nat) : Tensor :=
  mkTensor (stretch_size (tshape a) 0 (sorted dims)) (tvals a).

(** ** [SparseTensor]

    The three holders are lists of tensors until [_cat] glues each of them
    into one tensor and keeps the specs that [_split] needs.  Index
    tensors are tensors of integers; [i_max] and [j_max] exist once [_cat]
    has run. *)
Fixpoint index (x : nat) (l : list nat) : option nat :=
  match l with
  | [] => None
  | y :: r => if (y =? x)%nat then Some 0%nat else option_map S (index x r)
  end.

Inductive Store :=
| Listed (i j a : list Tensor)
| Catted (i j a : Tensor) (_ispec _jspec _aspec : list nat).

Record SparseTensor := mkSparse {
  sdim : nat;
  shape : list nat;
  store : Store;
  i_max : option R;
  j_max : option R
}.

(** [__init__]: the sparse dimension is the first 0 of the shape;
    [warnings] is not imported by the module. *)
Definition SparseTensor_init (shape : list nat) : Error + SparseTensor :=
  match index 0 shape with
  | None => inl RuntimeError
  | Some d =>
      if (1 <? count_occ Nat.eq_dec shape 0)%nat then inl NameError
      else inr (mkSparse d shape (Listed [] [] []) None None)
  end.

(** An index argument of [add]: an integer or a flat list of integers;
    [torch.as_tensor] makes a tensor without axes of the first and a tensor
    with one axis of the second. *)
Inductive Idx := int (z : Z) | ints (l : list Z).

Definition long_tensor (l : list Z) : Tensor := mkTensor [length l] (map IZR l).

(** [torch.broadcast_tensors] on two such tensors; [None] when the result
    has no axis. *)
Definition broadcast_tensors (i j : Idx) : Error + option (list Z * list Z) :=
  match i, j with
  | int _, int _ => inr None
  | int a, ints l => inr (Some (repeat a (length l), l))
  | ints l, int b => inr (Some (l, repeat b (length l)))
  | ints l1, ints l2 =>
      if (length l1 =? length l2)%nat then inr (Some (l1, l2))
      else match l1, l2 with
           | [a], _ => inr (Some (repeat a (length l2), l2))
           | _, [b] => inr (Some (l1, repeat b (length l1)))
           | _, _ => inl RuntimeError
           end
  end.

(** [all([a == b for a, b in zip(v.shape, self.shape) if b != 0])] *)
Definition shape_check (vshape shape : list nat) : bool :=
  forallb (fun ab => (snd ab =? 0)%nat || (fst ab =? snd ab)%nat) (combine vshape shape).

(** The three lists, after [_split] where the holders are glued. *)
Definition lists_of (st : SparseTensor)
  : Error + (list Tensor * list Tensor * list Tensor) :=
  match store st with
  | Listed li lj la => inr (li, lj, la)
  | Catted i j a _ispec _jspec _aspec =>
      match split i _ispec with
      | inl e => inl e
      | inr li =>
          match split j _jspec with
          | inl e => inl e
          | inr lj =>
              match split a _aspec with
              | inl e => inl e
              | inr la => inr (li, lj, la)
              end
          end
      end
  end.

Definition _split (st : SparseTensor) : Error + SparseTensor :=
  match lists_of st with
  | inl e => inl e
  | inr (li, lj, la) =>
      inr (mkSparse (sdim st) (shape st) (Listed li lj la) (i_max st) (j_max st))
  end.

(** [add] with [v] a tensor. *)
Definition add (i j : Idx) (v : Tensor) (st : SparseTensor) : Error + SparseTensor :=
  match broadcast_tensors i j with
  | inl e => inl e
  | inr None => inl AssertionError
  | inr (Some (_i, _j)) =>
      match size v (sdim st) with
      | None => inl IndexError
      | Some n =>
          if negb (length _i =? n)%nat then inl AssertionError
          else if negb (shape_check (tshape v) (shape st)) then inl AssertionError
          else
            match lists_of st with
            | inl e => inl e
            | inr (li, lj, la) =>
                inr (mkSparse (sdim st) (shape st)
                       (Listed (li ++ [long_tensor _i]) (lj ++ [long_tensor _j]) (la ++ [v]))
                       (i_max st) (j_max st))
            end
      end
  end.

(** [add] with three lists: one [add] per triple of [zip]. *)
Fixpoint add_many (i j : list Idx) (v : list Tensor) (st : SparseTensor)
  : Error + SparseTensor :=
  match i, j, v with
  | a :: i', b :: j', c :: v' =>
      match add a b c st with
      | inl e => inl e
      | inr st1 => add_many i' j' v' st1
      end
  | _, _, _ => inr st
  end.

(** [tensor.max()] *)
Definition tensor_max (t : Tensor) : Error + R :=
  match tvals t with
  | [] => inl RuntimeError
  | x :: r => inr (fold_left Rmax r x)
  end.

Definition _cat (st : SparseTensor) : Error + SparseTensor :=
  let glued :=
    match store st with
    | Listed li lj la =>
        match cat li 0 with
        | inl e => inl e
        | inr (i, _ispec) =>
            match cat lj 0 with
            | inl e => inl e
            | inr (j, _jspec) =>
                match cat la (sdim st) with
                | inl e => inl e
                | inr (a, _aspec) => inr (i, j, a, Catted i j a _ispec _jspec _aspec)
                end
            end
        end
    | Catted i j a _ispec _jspec _aspec => inr (i, j, a, store st)
    end in
  match glued with
  | inl e => inl e
  | inr (i, j, _, s) =>
      match tensor_max i with
      | inl e => inl e
      | inr mi =>
          match tensor_max j with
          | inl e => inl e
          | inr mj => inr (mkSparse (sdim st) (shape st) s (Some mi) (Some mj))
          end
      end
  end.

(** The entries of the three holders belong together: the [k]-th index
    tensors have one axis of the same length, not 0, which is the size of
    the [k]-th value tensor along the sparse dimension; for glued holders,
    the lists are those that [_split] brings back. *)
Inductive aligned_lists (d : nat) : list Tensor -> list Tensor -> list Tensor -> Prop :=
| aligned_nil : aligned_lists d [] [] []
| aligned_snoc li lj la ti tj ta n :
    aligned_lists d li lj la ->
    tshape ti = [n] -> tshape tj = [n] -> size ta d = Some n -> (0 < n)%nat ->
    wf ti -> wf tj -> wf ta ->
    aligned_lists d (li ++ [ti]) (lj ++ [tj]) (la ++ [ta]).

Definition aligned (st : SparseTensor) : Prop :=
  exists li lj la, lists_of st = inr (li, lj, la) /\ aligned_lists (sdim st) li lj la.

(** A sparse vector with one entry of three values in row 1. *)
Definition sample_values : Tensor := mkTensor [3%nat] [5; 6; 7].

Definition sample_sparse : SparseTensor :=
  mkSparse 0 [0%nat]
    (Listed [long_tensor [1; 1; 1]%Z] [long_tensor [0; 1; 2]%Z] [sample_values])
    None None.

End Tensors.

(** How many of [dims] are at most [k], and what it means for a list to
    ascend. *)
Definition count_le (k : nat) (dims : list nat) : nat :=
  length (filter (fun d => (d <=? k)%nat) dims).

Fixpoint ascending (l : list nat) : Prop :=
  match l with
  | [] => True
  | d :: r => Forall (le d) r /\ ascending r
  end.

(** ** [parse_logfile]

    The parser reads the lines of a log file.  [str.split], [int] and
    [float] are Python's and are taken as they come; [int] and [float]
    answer [None] where Python raises [ValueError]. *)
From Stdlib Require Ascii String.

Module LogFile.
Import Ascii String.

Inductive ParseError := ValueError | IndexError.

Class Builtins := {
  str_split : string -> list string;
  int : string -> option Z;
  float : string -> option R
}.

(** ['sub' in s] *)
Fixpoint contains (sub s : string) : bool :=
  prefix sub s ||
  match s with
  | EmptyString => false
  | String _ s' => contains sub s'
  end.

Record Lists := mkLists {
  energies : list (Z * R);
  temperatures : list (Z * R);
  exact_energies : list (Z * R);
  errors : list (Z * list R)
}.

(** The lists of [L] followed by those of [D]. *)
Definition after (L D : Lists) : Lists :=
  mkLists (energies L ++ energies D) (temperatures L ++ temperatures D)
          (exact_energies L ++ exact_energies D) (errors L ++ errors D).

Definition nothing : Lists := mkLists [] [] [] [].

Section Parser.
Context `{B : Builtins}.

(** [[float(v) for v in l]] *)
Fixpoint floats (l : list string) : option (list R) :=
  match l with
  | [] => Some []
  | v :: r =>
      match float v with
      | None => None
      | Some x => option_map (cons x) (floats r)
      end
  end.

(** [float(split[k])] under a bare [except]. *)
Definition float_at (split : list string) (k : nat) : option R :=
  match nth_error split k with
  | None => None
  | Some v => float v
  end.

(** The body of the loop over the lines. *)
Definition parse_line (line : string) (L : Lists) : ParseError + Lists :=
  let split := skipn 2 (str_split line) in
  match nth_error split 0 with
  | None => inr L
  | Some s0 =>
      match int s0 with
      | None => inl ValueError
      | Some step =>
          let L1 :=
            match float_at split 1 with
            | None => L
            | Some e =>
                let L' := mkLists (energies L ++ [(step, e)]) (temperatures L)
                                  (exact_energies L) (errors L) in
                match float_at split 2 with
                | None => L'
                | Some t => mkLists (energies L') (temperatures L' ++ [(step, t)])
                                    (exact_energies L') (errors L')
                end
            end in
          let r2 :=
            if contains "exact energy" line then
              match nth_error split 3 with
              | None => inl IndexError
              | Some v =>
                  match float v with
                  | None => inl ValueError
                  | Some x => inr (mkLists (energies L1) (temperatures L1)
                                           (exact_energies L1 ++ [(step, x)]) (errors L1))
                  end
              end
            else inr L1 in
          match r2 with
          | inl e => inl e
          | inr L2 =>
              if contains "errors" line then
                match floats (select split [3; 5; 7]%nat) with
                | None => inl ValueError
                | Some vs => inr (mkLists (energies L2) (temperatures L2)
                                          (exact_energies L2) (errors L2 ++ [(step, vs)]))
                end
              else inr L2
          end
      end
  end.

Fixpoint parse_lines (lines : list string) (L : Lists) : ParseError + Lists :=
  match lines with
  | [] => inr L
  | line :: rest =>
      match parse_line line L with
      | inl e => inl e
      | inr L' => parse_lines rest L'
      end
  end.

Definition parse_logfile (lines : list string)
  : ParseError + (list (Z * R) * list (Z * R) * list (Z * list R)) :=
  match parse_lines lines (mkLists [] [] [] []) with
  | inl e => inl e
  | inr L => inr (energies L, exact_energies L, errors L)
  end.

End Parser.

(** A reading of the builtins for plain decimal text: blanks separate,
    digits make integers, and a number is an integer. *)
Definition is_blank (c : ascii) : bool :=
  match nat_of_ascii c with
  | 9 | 10 | 11 | 12 | 13 | 32 => true
  | _ => false
  end%nat.

Fixpoint split_from (cur : string) (s : string) : list string :=
  match s with
  | EmptyString => match cur with EmptyString => [] | _ => [cur] end
  | String c s' =>
      if is_blank c
      then match cur with
           | EmptyString => split_from EmptyString s'
           | _ => cur :: split_from EmptyString s'
           end
      else split_from (cur ++ String c EmptyString) s'
  end.

Fixpoint digits (acc : Z) (s : string) : option Z :=
  match s with
  | EmptyString => Some acc
  | String c s' =>
      let n := nat_of_ascii c in
      if ((48 <=? n) && (n <=? 57))%nat
      then digits (10 * acc + Z.of_nat (n - 48)) s'
      else None
  end.

Definition plain_int (s : string) : option Z :=
  match s with
  | EmptyString => None
  | _ => digits 0 s
  end.

#[export] Instance plain : Builtins := {
  str_split := split_from EmptyString;
  int := plain_int;
  float s := option_map IZR (plain_int s)
}.

Definition sample_step : string := "11/04/2026 10:00:00 3 7 300".
Definition sample_short : string := "11/04/2026 10:00:00".
Definition sample_text : string := "11/04/2026 10:00:00 hello".

End LogFile.

(** The scores [v] do not increase along the indices [l]. *)
Fixpoint descending (v : vec) (l : list nat) : Prop :=
  match l with
  | [] => True
  | i :: r => Forall (fun j => nth j v 0 <= nth i v 0) r /\ descending v r
  end.

(** ** [theforce/similarity/soap.py]

    Gradients with respect to positions are triples; a tensor of shape
    (d, n, 3) is [d] lists of [n] triples, with [n] kept beside them.  The
    descriptor, the kernel [kern] and the store behind [saved] are the
    library's: [precalculate] takes what the descriptor returned, the
    gradient methods take what [kern.leftgrad] and [kern.rightgrad]
    returned, of shape (d, n, m), and the saved data of the environments of
    a configuration in their order. *)
Module Soap.

Definition V3 : Type := (R * R * R)%type.

Definition v3_zero : V3 := (0, 0, 0).

Definition v3_add (a b : V3) : V3 :=
  (fst (fst a) + fst (fst b), snd (fst a) + snd (fst b), snd a + snd b).

Definition v3_scale (k : R) (a : V3) : V3 :=
  (k * fst (fst a), k * snd (fst a), k * snd a).

Definition v3_sum (l : list V3) : V3 := fold_right v3_add v3_zero l.

Inductive Error := IndexError | RuntimeError | NotImplementedError.

(** Shape ([length g_rows], [g_n], 3). *)
Record Grad := mkGrad { g_n : nat; g_rows : list (list V3) }.

Definition wf_grad (g : Grad) : Prop :=
  Forall (fun rows => length rows = g_n g) (g_rows g).

Record Saved := mkSaved {
  value : list vec;
  grad : Grad;
  j : list nat;
  empty : bool
}.

(** [torch.unique] of a list of indices. *)
Definition unique (l : list nat) : list nat := Tensors.sorted (nodup Nat.eq_dec l).

(** [grad.sum(dim=1, keepdim=True)], negated and appended along dim 1. *)
Definition closed (g : Grad) : Grad :=
  mkGrad (S (g_n g)) (map (fun rows => rows ++ [v3_scale (-1) (v3_sum rows)]) (g_rows g)).

(** [precalculate]: [matches] is the test on the species of the centre, [d]
    and [grad0] are the descriptor and its gradient, [loc_j] and [loc_i] the
    neighbours and the centre of each bond. *)
Definition precalculate (dim : nat) (matches : bool) (d : vec) (grad0 : Grad)
    (loc_j loc_i : list nat) : Saved :=
  if matches then
    let j := loc_j ++ unique loc_i in
    if (0 <? length j)%nat
    then mkSaved [d] (closed grad0) j false
    else mkSaved [] (mkGrad 0 (repeat [] dim)) j true
  else mkSaved [] (mkGrad 0 (repeat [] dim)) [] true.

(** Broadcasting of the leading dimension. *)
Definition bcast {A B} (a : list A) (b : list B) : option (list (A * B)) :=
  if (length a =? length b)%nat then Some (combine a b)
  else match a, b with
       | [x], _ => Some (map (pair x) b)
       | _, [y] => Some (map (fun x => (x, y)) a)
       | _, _ => None
       end.

Definition rows_add (a b : list V3) : list V3 := map2 v3_add a b.

(** [(w[..., None, None] * grad[:, None]).sum(dim=(0, 1))] for [w] of
    shape (d, m). *)
Definition contract (w : list vec) (g : Grad) : option (list V3) :=
  match bcast w (g_rows g) with
  | None => None
  | Some pairs =>
      Some (fold_right rows_add (repeat v3_zero (g_n g))
              (flat_map (fun p => map (fun k => map (v3_scale k) (snd p)) (fst p)) pairs))
  end.

(** [g.index_add(0, j, t)] *)
Fixpoint index_add (g : list V3) (j : list nat) (t : list V3) : option (list V3) :=
  match j, t with
  | [], [] => Some g
  | i :: j', v :: t' =>
      match nth_error g i with
      | None => None
      | Some gi =>
          index_add (firstn i g ++ v3_add gi v :: skipn (S i) g) j' t'
      end
  | _, _ => None
  end.

(** What the kernel returned: shape ([length c_rows], [c_n], [c_m]). *)
Record Coef := mkCoef { c_n : nat; c_m : nat; c_rows : list (list vec) }.

(** [c[:, i]] and [c[..., i]] *)
Definition slice_mid (c : Coef) (i : nat) : option (list vec) :=
  if (i <? c_n c)%nat then Some (map (fun cd => nth i cd []) (c_rows c)) else None.

Definition slice_last (c : Coef) (i : nat) : option (list vec) :=
  if (i <? c_m c)%nat then Some (map (map (fun v => nth i v 0)) (c_rows c)) else None.

(** The loop over the environments, [_i] counting those that are not
    empty. *)
Fixpoint grad_loop (sel : nat -> option (list vec)) (locs : list Saved)
    (g : list V3) (_i : nat) : Error + list V3 :=
  match locs with
  | [] => inr g
  | loc :: rest =>
      if empty loc then grad_loop sel rest g _i
      else
        match sel _i with
        | None => inl IndexError
        | Some w =>
            match contract w (grad loc) with
            | None => inl RuntimeError
            | Some t =>
                match index_add g (j loc) t with
                | None => inl RuntimeError
                | Some g' => grad_loop sel rest g' (S _i)
                end
            end
        end
  end.

(** The result before [g.view(-1, 1)] and [g.view(1, -1)]. *)
Definition leftgrad (natoms : nat) (p : list Saved) (c : Coef) : Error + list V3 :=
  grad_loop (slice_mid c) p (repeat v3_zero natoms) 0.

Definition rightgrad (natoms : nat) (q : list Saved) (c : Coef) : Error + list V3 :=
  grad_loop (slice_last c) q (repeat v3_zero natoms) 0.

(** The gradient stored for an environment that is not empty adds up to
    nothing in every row. *)
Definition balanced (s : Saved) : Prop :=
  empty s = false ->
  wf_grad (grad s) /\ Forall (fun rows => v3_sum rows = v3_zero) (g_rows (grad s)).

End Soap.
(** ** A reference implementation of the collaborators

    A small model in which the kernel only compares species: used to run the
    calculator on concrete configurations. *)
Module Toy.

Definition same_species (a b : Local) : bool := (number a =? number b)%Z.

Definition grow (t : Tensor2) : Tensor2 :=
  mkT2 (S (size1 t)) (map (fun r => r ++ [0]) (rows t) ++ [zeros (size1 t) ++ [1]]).

Definition toy_add_inducing (m : PosteriorPotential) (loc : Local) : PosteriorPotential :=
  mkModel (data m) (X m ++ [loc]) (mu m ++ [0]) (grow (Mi m)) (grow (choli m)) (species m).

(** An environment is refused when its species is unknown to the kernel or
    already represented in the inducing set. *)
Definition toy_add_1inducing (m : PosteriorPotential) (loc : Local) (e : R) (detach : bool)
  : PosteriorPotential * bool :=
  if negb (existsb (Z.eqb (number loc)) (species m)) || existsb (same_species loc) (X m)
  then (m, false) else (toy_add_inducing m loc, true).

Definition toy_add_1atoms (m : PosteriorPotential) (sn : Snapshot) (e f : R) : PosteriorPotential :=
  mkModel (data m ++ [sn]) (X m) (mu m) (Mi m) (choli m) (species m).

Definition identity (n : nat) : Tensor2 :=
  mkT2 n (map (fun i => map (fun j => if (i =? j)%nat then 1 else 0) (seq 0 n)) (seq 0 n)).

Definition toy_set_data (m : PosteriorPotential) (d : list Snapshot) (i : list Local)
  : PosteriorPotential :=
  mkModel d i (zeros (length i)) (identity (length i)) (identity (length i)) (species m).

#[export] Instance ext (b : option (vec -> vec)) : External := {
  kern1 x y := if same_species x y then 1 else 0;
  add_inducing := toy_add_inducing;
  add_1inducing := toy_add_1inducing;
  add_1atoms := toy_add_1atoms;
  set_data := toy_set_data;
  make_munu m := m;
  exact_calc a := (0, map (fun r => zeros (length r)) (xyz a));
  grad_xyz _ _ _ := None;
  grad_lll _ _ _ := None;
  backend := b
}.

(** A group with this worker alone: the peers add nothing. *)
Definition alone : option (vec -> vec) := Some (fun v => zeros (length v)).

Definition Hyd : Local := mkLocal 1 [].
Definition Oxy : Local := mkLocal 8 [].

Definition config (l : list Local) : TorchAtoms :=
  mkAtoms l (seq 0 (length l)) false (map (fun _ => [0; 0; 0]) l)
          [[1; 0; 0]; [0; 1; 0]; [0; 0; 1]] (Some 1).

Definition empty_model (sp : list Z) : PosteriorPotential :=
  mkModel [] [] [] (mkT2 0 []) (mkT2 0 []) sp.

(** A fresh calculator, as left by [__init__]. *)
Definition fresh (m : PosteriorPotential) (b : option R) : ActiveCalculator :=
  mkCalc m (config []) (mkT2 0 []) (/ 10) (/ 10) 1 b None 0 None false None [].

(** A calculator holding configuration [a] with its covariance cache. *)
Definition loaded (b : option (vec -> vec)) (m : PosteriorPotential) (bs : option R)
    (a : TorchAtoms) : ActiveCalculator :=
  set_cov (kern_atoms_X (Ext := ext b) a (X m)) (set_atoms a (fresh m bs)).

(** A model knowing hydrogen only, with one hydrogen inducing point. *)
Definition model_H : PosteriorPotential :=
  toy_set_data (empty_model [1%Z]) [mkSnap (config [Hyd]) 0 [[0; 0; 0]]] [Hyd].

Definition s_HOH : ActiveCalculator :=
  loaded alone model_H None (config [Hyd; Oxy; Hyd]).

(** A molecule in vacuum: no cell volume. *)
Definition molecule (l : list Local) : TorchAtoms :=
  mkAtoms l (seq 0 (length l)) false (map (fun _ => [0; 0; 0]) l)
          [[0; 0; 0]; [0; 0; 0]; [0; 0; 0]] None.

Definition s_molecule : ActiveCalculator :=
  loaded None model_H None (molecule [Hyd; Hyd]).

(** One hydrogen atom, bias enabled, no process group. *)
Definition s_biased : ActiveCalculator :=
  loaded None model_H (Some 1) (config [Hyd]).

(** Seven atoms of two species, and a model that only knows hydrogen. *)
Definition config7 : TorchAtoms := config [Hyd; Hyd; Hyd; Oxy; Oxy; Oxy; Oxy].
Definition s7 : ActiveCalculator := loaded alone model_H None config7.
Definition L0 : Locals := mkLocals 0 0 [].

(** One hydrogen atom in front of the hydrogen model. *)
Definition s_H : ActiveCalculator := loaded alone model_H None (config [Hyd]).

Definition no_results : Results := mkResults 0 [[0; 0; 0]] [0; 0; 0; 0; 0; 0].

(** An oxygen atom in front of a model that knows hydrogen and oxygen but
    has only seen hydrogen, with a covariance-loss threshold of one half. *)
Definition model_seen_H : PosteriorPotential :=
  toy_set_data (empty_model [1%Z; 8%Z]) [mkSnap (config [Hyd]) 0 [[0; 0; 0]]] [Hyd].

Definition s_new : ActiveCalculator :=
  set_covdiff (/ 2)
    (set_results (Some no_results) (loaded alone model_seen_H None (config [Oxy]))).

(** [s_new] after the selection round has added the oxygen environment. *)
Definition s_new_added : ActiveCalculator :=
  set_cov (mkT2 2 [[0; 1]])
    (set_model (toy_add_inducing model_seen_H Oxy)
       (set_blind true (set_normalized (Some true) s_new))).

(** Two inducing points with anti-correlated responses, bias enabled. *)
Definition model_bias : PosteriorPotential :=
  mkModel [mkSnap (config [Hyd]) 0 [[0; 0; 0]]] [Hyd; Oxy] [0; 0]
          (mkT2 2 [[2; - (3 / 2)]; [- (3 / 2); 2]]) (identity 2) [1%Z; 8%Z].

(** Configuration A, never visited with the bias before. *)
Definition s_A : ActiveCalculator :=
  set_results (Some no_results) (loaded alone model_bias (Some 1) (config [Hyd])).

(** Configuration B, reached after three visits of configuration A. *)
Definition s_B : ActiveCalculator :=
  set_bias_pot (Some [6; - (9 / 2)])
    (set_results (Some no_results) (loaded alone model_bias (Some 1) (config [Oxy]))).

(** An energy whose position gradient pulls the atom along x, for one atom
    off the origin in vacuum: no cell, no volume. *)
Definition pulled : External := {|
  kern1 x y := if same_species x y then 1 else 0;
  add_inducing := toy_add_inducing;
  add_1inducing := toy_add_1inducing;
  add_1atoms := toy_add_1atoms;
  set_data := toy_set_data;
  make_munu m := m;
  exact_calc a := (0, map (fun r => zeros (length r)) (xyz a));
  grad_xyz _ _ _ := Some [[2; 0; 0]];
  grad_lll _ _ _ := None;
  backend := None
|}.

Definition s_pulled : ActiveCalculator :=
  let a := mkAtoms [Hyd] [0%nat] false [[1; 0; 0]]
                   [[0; 0; 0]; [0; 0; 0]; [0; 0; 0]] None in
  set_cov (kern_atoms_X (Ext := pulled) a (X model_H)) (set_atoms a (fresh model_H None)).

End Toy.
(** ** Reasoning about the monad *)

Lemma bind_Ret {A B} (m : M A) (k : A -> M B) s b s' :
  bind m k s = Ret b s' -> exists a s1, m s = Ret a s1 /\ k a s1 = Ret b s'.
Proof.
  unfold bind. destruct (m s) as [a s1| |]; try discriminate. eauto.
Qed.

Lemma lift_Ret {A} e (o : option A) s a s' :
  lift e o s = Ret a s' -> o = Some a /\ s' = s.
Proof.
  destruct o; cbn; intros H; inversion H; auto.
Qed.

Lemma ret_Ret {A} (a b : A) s s' : ret a s = Ret b s' -> b = a /\ s' = s.
Proof. cbv. intros H; inversion H; auto. Qed.

Lemma get_Ret s a s' : get s = Ret a s' -> a = s /\ s' = s.
Proof. cbv. intros H; inversion H; auto. Qed.

Lemma modify_Ret f s u s' : modify f s = Ret u s' -> s' = f s.
Proof. cbv. intros H; inversion H; auto. Qed.

(** Break a successful run into the runs of its parts. *)
Ltac minv H :=
  match type of H with
  | bind _ _ _ = Ret _ _ =>
      let a := fresh "a" in let s1 := fresh "s" in
      let H1 := fresh "H" in let H2 := fresh "H" in
      apply bind_Ret in H; destruct H as (a & s1 & H1 & H2);
      minv H1; minv H2
  | lift _ _ _ = Ret _ _ =>
      let E := fresh "E" in apply lift_Ret in H;
      first [destruct H as [E ->] | destruct H as [E ?]; subst]
  | ret _ _ = Ret _ _ =>
      apply ret_Ret in H; first [destruct H as [-> ->] | destruct H; subst]
  | get _ = Ret _ _ =>
      apply get_Ret in H; first [destruct H as [-> ->] | destruct H; subst]
  | modify _ _ = Ret _ _ =>
      apply modify_Ret in H; first [subst | rewrite H in *]
  | raise _ _ = Ret _ _ => discriminate H
  | _ => idtac
  end.

Lemma nonempty_guard {A} (l : list A) s u s' :
  match l with [] => raise EmptyCat | _ :: _ => ret tt end s = Ret u s' ->
  l <> [] /\ s' = s.
Proof.
  destruct l; intros H; minv H. split; [discriminate|reflexivity].
Qed.

(** ** Arithmetic on tensors *)

Lemma vsum_nonneg (v : vec) : Forall (fun x => 0 <= x) v -> 0 <= vsum v.
Proof.
  induction 1; cbn; [lra|]. fold (vsum l). lra.
Qed.

Lemma sq_nonneg x : 0 <= sq x.
Proof. unfold sq. nra. Qed.

Lemma sumsq_dim0_nonneg t : Forall (fun x => 0 <= x) (sumsq_dim0 t).
Proof.
  unfold sumsq_dim0. apply Forall_forall. intros x Hx.
  apply in_map_iff in Hx. destruct Hx as (i & <- & _).
  apply vsum_nonneg, Forall_forall. intros y Hy.
  apply in_map_iff in Hy. destruct Hy as (r & <- & _).
  destruct (Nat.lt_ge_cases i (length (map sq r))) as [Hi|Hi].
  - rewrite (nth_indep _ 0 (sq 0)) by exact Hi. rewrite map_nth. apply sq_nonneg.
  - rewrite nth_overflow by exact Hi. lra.
Qed.

Lemma sumsq_dim0_length t : length (sumsq_dim0 t) = size1 t.
Proof. unfold sumsq_dim0. now rewrite length_map, length_seq. Qed.

Lemma map2_Forall {A B C} (f : A -> B -> C) (P : A -> Prop) (Q : B -> Prop) (S : C -> Prop) :
  (forall x y, P x -> Q y -> S (f x y)) ->
  forall a b, Forall P a -> Forall Q b -> Forall S (map2 f a b).
Proof.
  intros Hf a. induction a as [|x a IH]; intros [|y b] Ha Hb; cbn; auto.
  inversion Ha; inversion Hb; subst. constructor; auto.
Qed.

Lemma div_nonneg x y : 0 <= x -> 0 < y -> 0 <= x / y.
Proof.
  intros Hx Hy. unfold Rdiv. apply Rmult_le_pos; [exact Hx|].
  left. now apply Rinv_0_lt_compat.
Qed.

Lemma broadcast2_div_nonneg c alpha c' :
  broadcast2 Rdiv c alpha = Some c' ->
  Forall (fun x => 0 <= x) c -> Forall (fun x => 0 < x) alpha ->
  Forall (fun x => 0 <= x) c'.
Proof.
  unfold broadcast2. intros H Hc Ha.
  destruct (length c =? length alpha).
  - inversion H; subst. eapply map2_Forall; eauto. intros; now apply div_nonneg.
  - destruct c as [|x [|x' c]].
    + destruct alpha as [|y [|]]; inversion H; subst; constructor.
    + inversion H; subst. inversion Hc; subst.
      apply Forall_forall. intros z Hz. apply in_map_iff in Hz.
      destruct Hz as (y & <- & Hy). apply div_nonneg; auto.
      eapply Forall_forall in Ha; eauto.
    + destruct alpha as [|y [|]]; inversion H; subst.
      inversion Ha; subst.
      change (Forall (fun x => 0 <= x) (map (fun x0 => x0 / y) (x :: x' :: c))).
      apply Forall_map. eapply Forall_impl; [|exact Hc].
      cbn. intros; now apply div_nonneg.
Qed.

Lemma covloss_entry_range x : 0 <= x -> in01 (sqrt (Rmax (1 - x) 0)).
Proof.
  intros Hx. split; [apply sqrt_pos|].
  apply Rle_trans with (sqrt 1); [|rewrite sqrt_1; lra].
  apply sqrt_le_1_alt. apply Rmax_lub; lra.
Qed.

Lemma covloss_of_range c : Forall (fun x => 0 <= x) c -> Forall in01 (covloss_of c).
Proof.
  unfold covloss_of. induction 1; cbn; constructor; auto using covloss_entry_range.
Qed.

Lemma set_nth_spec {A} (d : A) i a l l' :
  set_nth i a l = Some l' ->
  length l' = length l /\
  forall j, nth j l' d = if (j =? i)%nat then a else nth j l d.
Proof.
  revert i l'. induction l as [|x l IH]; intros [|i] l' H; cbn in H; try discriminate.
  - inversion H; subst. split; [reflexivity|]. intros [|j]; reflexivity.
  - destruct (set_nth i a l) as [r|] eqn:E; cbn in H; inversion H; subst.
    destruct (IH _ _ E) as [Hl Hn]. split; [cbn; congruence|].
    intros [|j]; cbn; auto.
Qed.

Lemma scatter_spec (P : R -> Prop) idx : forall x acc res,
  scatter idx x acc = Some res ->
  Forall P x ->
  length res = length acc /\
  forall j, nth j res 0 = nth j acc 0 \/ (In j idx /\ P (nth j res 0)).
Proof.
  induction idx as [|i idx IH]; intros x acc res H HP.
  - cbn in H. inversion H; subst. auto.
  - destruct x as [|v x]; cbn in H; [inversion H; subst; auto|].
    destruct (set_nth i v acc) as [acc'|] eqn:E; [|discriminate].
    inversion HP; subst.
    destruct (set_nth_spec 0 _ _ _ _ E) as [Hl Hn].
    destruct (IH _ _ _ H H3) as [Hl' Hj]. split; [congruence|].
    intros j. destruct (Hj j) as [Hs|[Hin Hp]].
    + rewrite Hs, Hn. destruct (Nat.eqb_spec j i).
      * subst. right. split; [now left | exact H2].
      * now left.
    + right. split; [now right | exact Hp].
Qed.

Lemma vadd_nth a : forall b j, (j < length a)%nat -> (j < length b)%nat ->
  nth j (vadd a b) 0 = nth j a 0 + nth j b 0.
Proof.
  induction a as [|x a IH]; intros [|y b] [|j] Ha Hb; cbn in *; try lia; auto.
  all: apply IH; lia.
Qed.

Lemma vadd_length a : forall b, length a = length b -> length (vadd a b) = length a.
Proof.
  induction a as [|x a IH]; intros [|y b] H; cbn in *; try discriminate; auto.
Qed.

Lemma nth_zeros j n : nth j (zeros n) 0 = 0.
Proof.
  unfold zeros. revert j. induction n; intros [|j]; cbn; auto.
Qed.

Tactic Notation "mbind" hyp(H) "as" ident(x) ident(s1) ident(H1) :=
  apply bind_Ret in H; destruct H as (x & s1 & H1 & H).

Lemma all_reduce_Ret `{Ext : External} v s w s' :
  all_reduce v s = Ret w s' ->
  exists peers, backend = Some peers /\ w = vadd v (peers v) /\ s' = log_event EvAllReduce s.
Proof.
  unfold all_reduce. destruct backend as [peers|]; [|discriminate].
  intros H; inversion H; subst. eauto.
Qed.

Lemma gather_Ret `{Ext : External} s x v s' :
  gather x s = Ret v s' ->
  exists _x peers,
    scatter (indices (atoms s)) x (zeros (natoms (atoms s))) = Some _x /\
    backend = Some peers /\ v = vadd _x (peers _x) /\ s' = log_event EvAllReduce s.
Proof.
  intros Hg. unfold gather in Hg.
  mbind Hg as s0 s1 Hget. minv Hget.
  mbind Hg as u s2 Hlen.
  destruct (length (indices (atoms s)) =? length x); minv Hlen.
  mbind Hg as _x s3 Hsc. minv Hsc.
  apply all_reduce_Ret in Hg. destruct Hg as (peers & Hb & Hv & Hs).
  exists _x, peers. auto.
Qed.


Lemma frame_refl s : frame s s.
Proof. constructor; reflexivity. Qed.

Lemma frame_trans s1 s2 s3 : frame s1 s2 -> frame s2 s3 -> frame s1 s3.
Proof. intros [] []. constructor; congruence. Qed.

Lemma frame_log e s : frame s (log_event e s).
Proof. constructor; reflexivity. Qed.

Lemma frame_normalized b s : frame s (set_normalized b s).
Proof. constructor; reflexivity. Qed.

Lemma get_covloss_Ret `{Ext : External} s beta s' :
  get_covloss s = Ret beta s' ->
  frame s s' /\
  (match normalized s with
   | Some f => normalized s' = Some f
   | None => exists f, normalized s' = Some f
   end) /\
  exists c, loss_rel s c /\
    if is_distributed (atoms s)
    then exists s1, gather (covloss_of c) s1 = Ret beta s' /\ atoms s1 = atoms s
    else beta = covloss_of c /\
         trace s' = trace s /\
         (normalized s = None -> normalized s' = Some (allclose_ones (self_cov (atoms s)))).
Proof.
  intros Hrun. unfold get_covloss in Hrun.
  mbind Hrun as s0 s1 Hget. minv Hget.
  mbind Hrun as b s1 Hb. minv Hb.
  mbind Hrun as c s2 Hc.
  assert (Hmid : frame s s2 /\
                 (match normalized s with
                  | Some f => normalized s2 = Some f
                  | None => exists f, normalized s2 = Some f
                  end) /\
                 loss_rel s c /\
                 (is_distributed (atoms s) = false ->
                  trace s2 = trace s /\
                  (normalized s = None ->
                   normalized s2 = Some (allclose_ones (self_cov (atoms s)))))).
  { unfold loss_rel, is_normalized. fold (self_cov (atoms s)) in Hc.
    destruct (normalized s) as [[|]|] eqn:En.
    - minv Hc. repeat split; auto using frame_refl; try discriminate. eauto.
    - mbind Hc as u s3 Hne. apply nonempty_guard in Hne. destruct Hne as [Hne ->].
      mbind Hc as c' s4 Hdiv. minv Hdiv. minv Hc.
      repeat split; auto using frame_refl; try discriminate. eauto.
    - mbind Hc as u s3 Hne. apply nonempty_guard in Hne. destruct Hne as [Hne ->].
      mbind Hc as c' s4 Hdiv. minv Hdiv.
      mbind Hc as u2 s5 Hr. minv Hc.
      mbind Hr as al s6 Hal. minv Hr.
      destruct (is_distributed (atoms s)) eqn:Ed.
      + apply gather_Ret in Hal. destruct Hal as (_x & peers & _ & _ & _ & ->).
        repeat split; cbn; eauto; try discriminate.
      + minv Hal. repeat split; cbn; eauto. }
  destruct Hmid as (Hf & Hn & Hl & Hnd).
  destruct (is_distributed (atoms s)) eqn:Ed.
  - assert (Hg := Hrun). apply gather_Ret in Hg.
    destruct Hg as (_x & peers & _ & _ & _ & ->).
    split; [eapply frame_trans; [exact Hf|apply frame_log]|].
    split; [exact Hn|]. exists c. split; [exact Hl|].
    exists s2. split; [exact Hrun | apply Hf].
  - minv Hrun. destruct (Hnd eq_refl) as [Ht Hnn].
    split; [exact Hf|]. split; [exact Hn|]. exists c. auto.
Qed.

Lemma loss_rel_nonneg `{Ext : External} s c :
  loss_rel s c ->
  (is_normalized s = false -> Forall (fun x => 0 < x) (self_cov (atoms s))) ->
  Forall (fun x => 0 <= x) c.
Proof.
  intros (b & _ & Hc) Hpos. destruct (is_normalized s).
  - subst. apply sumsq_dim0_nonneg.
  - destruct Hc as [_ Hc].
    eapply broadcast2_div_nonneg; eauto using sumsq_dim0_nonneg.
Qed.

(** Run the calculator on a concrete state, leaving real arithmetic alone. *)
Ltac run :=
  cbv -[IZR Rplus Rmult Rdiv Rminus Ropp Rinv Rmax Rmin sqrt Rabs pow
        Rle_dec Rlt_dec isclose allclose_ones tiny atol rtol].

Lemma all_reduce_rows_Ret `{Ext : External} t s w s' :
  all_reduce_rows t s = Ret w s' ->
  exists peers, backend = Some peers /\ s' = log_event EvAllReduce s.
Proof.
  unfold all_reduce_rows. destruct backend as [peers|]; [|discriminate].
  intros H; inversion H; subst. eauto.
Qed.

(** One step of symbolic execution of a successful run. *)
Ltac mstep :=
  match goal with
  | H : bind _ _ _ = Ret _ _ |- _ =>
      let a := fresh "a" in let s := fresh "s" in let H1 := fresh "H" in
      apply bind_Ret in H; destruct H as (a & s & H1 & H)
  | H : lift _ _ _ = Ret _ _ |- _ =>
      apply lift_Ret in H; destruct H as [? ?]; subst
  | H : ret _ _ = Ret _ _ |- _ => apply ret_Ret in H; destruct H; subst
  | H : get _ = Ret _ _ |- _ => apply get_Ret in H; destruct H; subst
  | H : modify _ _ = Ret _ _ |- _ => apply modify_Ret in H; subst
  | H : raise _ _ = Ret _ _ |- _ => discriminate H
  | H : all_reduce _ _ = Ret _ _ |- _ =>
      apply all_reduce_Ret in H; destruct H as (? & ? & ? & ?); subst
  | H : all_reduce_rows _ _ = Ret _ _ |- _ =>
      apply all_reduce_rows_Ret in H; destruct H as (? & ? & ?); subst
  | H : (if ?c then _ else _) _ = Ret _ _ |- _ => destruct c eqn:?
  | H : match ?o with Some _ => _ | None => _ end _ = Ret _ _ |- _ => destruct o eqn:?
  end.

(** ** Which operations touch which part of the calculator *)

Lemma keeps_refl s : keeps s s.
Proof. unfold keeps; tauto. Qed.

Lemma keeps_trans s1 s2 s3 : keeps s1 s2 -> keeps s2 s3 -> keeps s1 s3.
Proof. unfold keeps. intuition congruence. Qed.

Section Effects.
Context `{Ext : External}.

Lemma all_reduce_scalar_Ret x s y s' :
  all_reduce_scalar x s = Ret y s' ->
  backend <> None /\ s' = log_event EvAllReduce s.
Proof.
  unfold all_reduce_scalar. intros H. repeat mstep. split; congruence.
Qed.

Lemma grads_Ret w r s fs s' :
  grads w r s = Ret fs s' ->
  keeps s s' /\ bias_pot s' = bias_pot s /\ results s' = results s /\
  exists tr, trace s' = trace s ++ EvGrads (size1 (cov s)) (length (X (model s))) :: tr /\
             (is_distributed (atoms s) = false -> tr = []) /\
             Forall (fun e => e = EvAllReduce) tr.
Proof.
  unfold grads. intros H. repeat mstep; cbn;
    (split; [unfold keeps; cbn; tauto|]); (split; [reflexivity|]); (split; [reflexivity|]).
  - exists [EvAllReduce; EvAllReduce]. rewrite <- !app_assoc. cbn.
    repeat split; auto; discriminate.
  - exists []. rewrite <- ?app_assoc. cbn. repeat split; auto.
Qed.


Lemma update_inducing_body_turn L s L' go s' :
  update_inducing_body L s = Ret (L', go) s' <-> turn L s L' go s'.
Proof.
  split.
  - intros H. unfold update_inducing_body in H.
    mbind H as s0 s1 Hget. minv Hget.
    destruct (length (added_indices L) =? natoms (atoms s)) eqn:En.
    + minv H. inversion H; subst. apply Nat.eqb_eq in En. now constructor.
    + apply Nat.eqb_neq in En.
      mbind H as beta s1 Hbeta.
      mbind H as k s2 Hk. minv Hk.
      mbind H as bk s3 Hbk. minv Hbk.
      mbind H as u s4 Hblind.
      mbind H as s5 s6 Hget. minv Hget.
      mbind H as loc s7 Hloc. minv Hloc.
      assert (Hs : s4 = if isclose bk 1 then set_blind true s1 else s1).
      { destruct (isclose bk 1); minv Hblind; reflexivity. }
      assert (Ha : atoms s4 = atoms s).
      { apply get_covloss_Ret in Hbeta. destruct Hbeta as (Hf & _).
        subst s4. destruct (isclose bk 1); cbn; apply Hf. }
      clear Hblind. rewrite Ha in E1.
      eapply turn_candidate; eauto. rewrite <- Hs. clear Hs.
      destruct (existsb (Z.eqb (number loc)) (species (model s4))) eqn:Esp.
      * destruct (Rlt_dec (covdiff s4) bk) as [Hlt|Hge].
        -- mbind H as u1 s8 Hm. minv Hm.
           mbind H as c s9 Hc. minv Hc.
           mbind H as u2 s10 Hm. minv Hm. minv H. inversion H; subst.
           now constructor.
        -- mbind H as u1 s8 Hm. minv Hm.
           destruct (snd (add_1inducing _ _ _ _)) eqn:Eadd.
           ++ mbind H as c s9 Hc. minv Hc.
              mbind H as u2 s10 Hm. minv Hm. minv H. inversion H; subst.
              eapply decide_energy; eauto.
           ++ minv H. inversion H; subst. eapply decide_rejected; eauto.
      * minv H. inversion H; subst. now constructor.
  - intros H. unfold update_inducing_body.
    destruct H as [Hn | beta s1 k bk loc L' go s' Hn Hbeta Hk Hbk Hloc Hd].
    + apply Nat.eqb_eq in Hn. unfold bind, get. rewrite Hn. reflexivity.
    + apply Nat.eqb_neq in Hn.
      assert (Ha : atoms (if isclose bk 1 then set_blind true s1 else s1) = atoms s).
      { apply get_covloss_Ret in Hbeta. destruct Hbeta as (Hf & _).
        destruct (isclose bk 1); cbn; apply Hf. }
      assert (Hb : (if isclose bk 1 then modify (set_blind true) else ret tt) s1 =
                   Ret tt (if isclose bk 1 then set_blind true s1 else s1)).
      { destruct (isclose bk 1); reflexivity. }
      remember (if isclose bk 1 then set_blind true s1 else s1) as s2 eqn:Es2.
      clear Es2. unfold bind at 1. unfold get at 1. rewrite Hn.
      unfold bind at 1. rewrite Hbeta.
      unfold bind at 1. rewrite Hk. cbn [lift]. unfold ret at 1.
      unfold bind at 1. rewrite Hbk. cbn [lift]. unfold ret at 1.
      unfold bind at 1. rewrite Hb.
      unfold bind at 1. unfold get at 1.
      unfold bind at 1. rewrite Ha, Hloc. cbn [lift]. unfold ret at 1.
      destruct Hd as [c Hsp Hlt Hc | c thr Hsp Hge Hthr Hadd Hc | thr Hsp Hge Hthr Hadd | Hsp];
        rewrite Hsp.
      * destruct (Rlt_dec (covdiff s2) bk); [|contradiction].
        rewrite Ha in Hc. unfold bind, modify. cbn. rewrite Hc. reflexivity.
      * destruct (Rlt_dec (covdiff s2) bk); [contradiction|].
        subst thr. rewrite Ha in Hc. cbv zeta. rewrite Hadd.
        unfold bind, modify. cbn. rewrite Hc. reflexivity.
      * destruct (Rlt_dec (covdiff s2) bk); [contradiction|].
        subst thr. cbv zeta. rewrite Hadd. reflexivity.
      * reflexivity.
Qed.

End Effects.

Section ReadPath.
Context `{Ext : External}.

Lemma calculate_results_Ret r s e s' :
  calculate_results r s = Ret e s' ->
  keeps s s' /\ bias_pot s' = bias_pot s /\
  exists pre post,
    trace s' = trace s ++ pre ++ EvGrads (size1 (cov s)) (length (X (model s))) :: post /\
    (is_distributed (atoms s) = false -> pre = [] /\ post = []) /\
    Forall (fun e => e = EvAllReduce) (pre ++ post).
Proof.
  unfold calculate_results. intros H.
  mbind H as s0 s1 Hget. minv Hget.
  mbind H as e0 s1 He. minv He.
  mbind H as e1 s2 Hred.
  mbind H as fs s3 Hg. apply grads_Ret in Hg.
  destruct Hg as (Hk & Hbp & _ & post & Htr & Hpost & Hall).
  mbind H as u s4 Hm. minv Hm. minv H.
  destruct (is_distributed (atoms s)) eqn:Ed.
  - apply all_reduce_scalar_Ret in Hred. destruct Hred as [_ ->].
    cbn in *. split; [exact Hk|]. split; [exact Hbp|].
    exists [EvAllReduce], post. rewrite Htr, <- app_assoc. cbn.
    repeat split; auto; discriminate.
  - minv Hred. cbn in *. split; [exact Hk|]. split; [exact Hbp|].
    exists [], post. rewrite Htr. cbn.
    unfold keeps in Hk. repeat split; auto.
Qed.

Lemma add_bias_Ret s e s' :
  add_bias s = Ret e s' ->
  keeps s s' /\ backend <> None /\
  exists pre post,
    trace s' = trace s ++ pre ++ EvAllReduce
                 :: EvGrads (size1 (cov s)) (length (X (model s))) :: post /\
    (is_distributed (atoms s) = false -> pre = [] /\ post = []) /\
    Forall (fun e => e = EvAllReduce) (pre ++ post).
Proof.
  unfold add_bias. intros H.
  mbind H as s0 s1 Hget. minv Hget.
  mbind H as mt s1 Hmt. minv Hmt.
  mbind H as mu_ s2 Hred.
  mbind H as padded s3 Hpad. minv Hpad.
  mbind H as b s3 Hb. minv Hb.
  mbind H as bp s3 Hbp. minv Hbp.
  mbind H as u s3 Hm. minv Hm.
  mbind H as be0 s3 Hbe. minv Hbe.
  mbind H as be s4 Hred2. apply all_reduce_scalar_Ret in Hred2.
  destruct Hred2 as [Hback ->].
  mbind H as fs s5 Hg. apply grads_Ret in Hg.
  destruct Hg as (Hk & _ & _ & post & Htr & Hpost & Hall).
  mbind H as r s6 Hr. minv Hr.
  mbind H as u2 s7 Hm. minv Hm. minv H.
  destruct (is_distributed (atoms s)) eqn:Ed.
  - apply all_reduce_Ret in Hred. destruct Hred as (peers & _ & _ & ->).
    cbn in *. split; [exact Hk|]. split; [exact Hback|].
    exists [EvAllReduce], post. rewrite Htr, <- !app_assoc. cbn.
    repeat split; auto; discriminate.
  - minv Hred. cbn in *. split; [exact Hk|]. split; [exact Hback|].
    exists [], post. rewrite Htr, <- !app_assoc. cbn.
    repeat split; auto.
Qed.

End ReadPath.

Lemma evolves_refl s : evolves s s.
Proof.
  constructor; auto.
  - exists []. rewrite app_nil_r. split; [reflexivity|]. constructor.
  - exists []. now rewrite app_nil_r.
Qed.

Lemma evolves_trans s1 s2 s3 : evolves s1 s2 -> evolves s2 s3 -> evolves s1 s3.
Proof.
  intros [A1 S1 B1 E1 F1 C1 N1 K1 R1 (t1 & T1 & O1) D1 (m1 & X1)]
         [A2 S2 B2 E2 F2 C2 N2 K2 R2 (t2 & T2 & O2) D2 (m2 & X2)].
  constructor; try congruence; auto.
  - exists (t1 ++ t2). rewrite T2, T1, app_assoc. split; [reflexivity|].
    intros Hc. apply Forall_app. split; [now apply O1 | apply O2; auto].
  - lia.
  - exists (m1 ++ m2). now rewrite X2, X1, app_assoc.
Qed.

Lemma reads_ok_all_reduce tr : Forall (fun e => e = EvAllReduce) tr -> reads_ok tr.
Proof.
  unfold reads_ok. intros H. eapply Forall_impl; [|exact H]. intros e ->. exact I.
Qed.

(** An operation that leaves the model and the cache alone and only
    appends harmless events. *)
Lemma evolves_keeps s s' tr :
  keeps s s' -> trace s' = trace s ++ tr -> (cache_ok s -> reads_ok tr) -> evolves s s'.
Proof.
  unfold keeps, cache_ok. intros (Hm & Ha & Hc & Hn & Hb & Hs & Hbi & He & Hf & Hcd) Ht Hr.
  constructor; auto.
  - intros f. now rewrite Hn.
  - unfold cache_ok. now rewrite Hm, Hc.
  - unfold size0. now rewrite Hc.
  - eauto.
  - rewrite Hm. lia.
  - exists []. now rewrite Hm, app_nil_r.
Qed.

Section Evolution.
Context `{Ext : External} `{MC : !ModelContract}.

Lemma calculate_results_evolves r s e s' :
  calculate_results r s = Ret e s' -> evolves s s'.
Proof.
  intros H. apply calculate_results_Ret in H.
  destruct H as (Hk & _ & pre & post & Htr & _ & Hall).
  eapply evolves_keeps; eauto. intros Hc.
  apply Forall_app in Hall. destruct Hall as [Hpre Hpost].
  apply Forall_app. split; [now apply reads_ok_all_reduce|].
  constructor; [exact Hc | now apply reads_ok_all_reduce].
Qed.

Lemma add_bias_evolves s e s' : add_bias s = Ret e s' -> evolves s s'.
Proof.
  intros H. apply add_bias_Ret in H.
  destruct H as (Hk & _ & pre & post & Htr & _ & Hall).
  eapply evolves_keeps; eauto. intros Hc.
  apply Forall_app in Hall. destruct Hall as [Hpre Hpost].
  apply Forall_app. split; [now apply reads_ok_all_reduce|].
  constructor; [exact I|].
  constructor; [exact Hc | now apply reads_ok_all_reduce].
Qed.

Lemma _exact_Ret c s ef s' :
  _exact c s = Ret ef s' -> ef = exact_calc c /\ s' = log_event (EvExact c) s.
Proof.
  unfold _exact. intros H. repeat mstep; auto.
Qed.

Lemma snapshot_Ret fake s sn s' :
  snapshot fake s = Ret sn s' ->
  conf sn = atoms s /\
  (if fake
   then s' = s /\ exists r, results s = Some r /\
                            target_energy sn = energy r /\ target_forces sn = forces r
   else s' = log_event (EvExact (atoms s)) s /\
        target_energy sn = fst (exact_calc (atoms s)) /\
        target_forces sn = snd (exact_calc (atoms s))).
Proof.
  unfold snapshot. intros H.
  mbind H as s0 s1 Hget. minv Hget.
  mbind H as ef s1 Hef. minv H. split; [reflexivity|].
  destruct fake.
  - mbind Hef as r s2 Hr. minv Hr. minv Hef. cbn. eauto.
  - apply _exact_Ret in Hef. destruct Hef as [-> ->]. cbn. auto.
Qed.

Lemma head_Ret s u s' :
  head s = Ret u s' ->
  exists added,
    hd_error (rev (data (model s))) = Some added /\
    s' = set_model (make_munu (set_data_field
           (set_last_targets (data (model s)) (fst (exact_calc (conf added)))
                             (snd (exact_calc (conf added)))) (model s)))
           (log_event (EvExact (conf added)) s).
Proof.
  unfold head. intros H.
  mbind H as s0 s1 Hget. minv Hget.
  mbind H as added s1 Ha. minv Ha.
  mbind H as ef s2 Hef. apply _exact_Ret in Hef. destruct Hef as [-> ->].
  minv H. exists added. split; [assumption|reflexivity].
Qed.

Lemma set_last_targets_length d e f : length (set_last_targets d e f) = length d.
Proof.
  unfold set_last_targets. rewrite <- (length_rev d).
  destruct (rev d) as [|x r]; [reflexivity|].
  rewrite length_app, length_rev. cbn. lia.
Qed.

Lemma head_evolves s u s' : head s = Ret u s' -> evolves s s'.
Proof.
  intros H. apply head_Ret in H. destruct H as (added & _ & ->).
  constructor; cbn; auto.
  - unfold cache_ok. cbn. rewrite make_munu_X. auto.
  - exists [EvExact (conf added)]. split; [reflexivity|]. intros _. repeat constructor.
  - unfold ndata. rewrite make_munu_data. cbn. rewrite set_last_targets_length. lia.
  - exists []. rewrite make_munu_X, app_nil_r. reflexivity.
Qed.

Lemma update_data_evolves try_fake s n s' :
  update_data try_fake s = Ret n s' -> evolves s s'.
Proof.
  unfold update_data. intros H.
  mbind H as s0 s1 Hget. minv Hget.
  mbind H as new s1 Hnew. apply snapshot_Ret in Hnew. destruct Hnew as (_ & Hnew).
  mbind H as u s2 Hm. minv Hm.
  mbind H as s3 s4 Hget. minv Hget.
  mbind H as u2 s5 Hh. minv H.
  assert (E1 : evolves s s1).
  { destruct try_fake.
    - destruct Hnew as (-> & _). apply evolves_refl.
    - destruct Hnew as (-> & _). eapply evolves_keeps with (tr := [EvExact (atoms s)]).
      + unfold keeps; cbn; tauto.
      + reflexivity.
      + intros _. repeat constructor. }
  assert (E2 : evolves s1 (set_model (add_1atoms (model s1) new (ediff s1) (fdiff s1)) s1)).
  { constructor; cbn; auto.
    - unfold cache_ok. cbn. rewrite add_1atoms_X. auto.
    - exists []. rewrite app_nil_r. split; [reflexivity|constructor].
    - unfold ndata. destruct (add_1atoms_data (model s1) new (ediff s1) (fdiff s1)) as [->| ->].
      + lia.
      + rewrite length_app. lia.
    - exists []. rewrite add_1atoms_X, app_nil_r. reflexivity. }
  eapply evolves_trans; [exact E1|]. eapply evolves_trans; [exact E2|].
  destruct (0 <? _)%nat; [destruct try_fake|]; try (minv Hh; apply evolves_refl).
  eapply head_evolves; eauto.
Qed.

End Evolution.

Section Selection.
Context `{Ext : External} `{MC : !ModelContract}.

Lemma gather_trace x s v s' :
  gather x s = Ret v s' -> s' = log_event EvAllReduce s.
Proof.
  intros H. apply gather_Ret in H. destruct H as (_ & _ & _ & _ & _ & ->). reflexivity.
Qed.

Lemma get_covloss_trace s beta s' :
  get_covloss s = Ret beta s' ->
  exists tr, trace s' = trace s ++ tr /\ Forall (fun e => e = EvAllReduce) tr.
Proof.
  unfold get_covloss. intros H.
  mbind H as s0 s1 Hget. minv Hget.
  mbind H as b s1 Hb. minv Hb.
  mbind H as c s2 Hc.
  assert (Hmid : exists tr, trace s2 = trace s ++ tr /\ Forall (fun e => e = EvAllReduce) tr).
  { destruct (normalized s) as [[|]|].
    - minv Hc. exists []. now rewrite app_nil_r.
    - mbind Hc as u s3 Hne. apply nonempty_guard in Hne. destruct Hne as [_ ->].
      mbind Hc as c' s4 Hdiv. minv Hdiv. minv Hc.
      exists []. now rewrite app_nil_r.
    - mbind Hc as u s3 Hne. apply nonempty_guard in Hne. destruct Hne as [_ ->].
      mbind Hc as c' s4 Hdiv. minv Hdiv.
      mbind Hc as u2 s5 Hr. minv Hc.
      mbind Hr as al s6 Hal. minv Hr.
      destruct (is_distributed (atoms s)).
      + apply gather_trace in Hal. subst. exists [EvAllReduce]. cbn. auto.
      + minv Hal. exists []. cbn. now rewrite app_nil_r. }
  destruct Hmid as (tr & Htr & Hall).
  destruct (is_distributed (atoms s)).
  - apply gather_trace in H. subst. exists (tr ++ [EvAllReduce]). cbn.
    rewrite Htr, app_assoc. split; [reflexivity|].
    apply Forall_app. auto.
  - minv H. eauto.
Qed.

Lemma get_covloss_evolves s beta s' : get_covloss s = Ret beta s' -> evolves s s'.
Proof.
  intros H. destruct (get_covloss_trace _ _ _ H) as (tr & Htr & Hall).
  apply get_covloss_Ret in H. destruct H as (Hf & Hn & _).
  pose proof (f_model _ _ Hf) as Hm. pose proof (f_cov _ _ Hf) as Hc.
  constructor; try apply Hf.
  - intros f Hf'. now rewrite Hf' in Hn.
  - unfold cache_ok. now rewrite Hm, Hc.
  - unfold size0. now rewrite Hc.
  - exists tr. split; [exact Htr|]. intros _. now apply reads_ok_all_reduce.
  - rewrite Hm. lia.
  - exists []. now rewrite Hm, app_nil_r.
Qed.

Lemma set_blind_evolves b s : evolves s (set_blind b s).
Proof.
  constructor; cbn; auto.
  - exists []. rewrite app_nil_r. split; [reflexivity|constructor].
  - exists []. now rewrite app_nil_r.
Qed.

Lemma map2_length {A B C} (f : A -> B -> C) a : forall b,
  length a = length b -> length (map2 f a b) = length a.
Proof.
  induction a as [|x a IH]; intros [|y b] H; cbn in *; try discriminate; auto.
Qed.

Lemma cat_dim1_loc_shape c a loc c' :
  cat_dim1 c (kern_atoms_loc a loc) = Some c' ->
  size1 c' = S (size1 c) /\ size0 c' = size0 c.
Proof.
  unfold cat_dim1. destruct (size0 c =? size0 (kern_atoms_loc a loc)) eqn:E; [|discriminate].
  intros H; inversion H; subst; clear H. cbn. split; [lia|].
  apply Nat.eqb_eq in E. unfold size0 in *. cbn. now apply map2_length.
Qed.

Lemma grown_evolves s m c loc :
  X m = X (model s) ++ [loc] -> data m = data (model s) ->
  size1 c = S (size1 (cov s)) -> size0 c = size0 (cov s) ->
  evolves s (set_cov c (set_model m s)).
Proof.
  intros HX Hd H1 H0. constructor; cbn; auto.
  - unfold cache_ok. cbn. intros Hc. rewrite H1, HX, length_app, Hc. cbn. lia.
  - exists []. rewrite app_nil_r. split; [reflexivity|constructor].
  - unfold ndata. rewrite Hd. lia.
  - eauto.
Qed.

Lemma decide_evolves L s k bk loc L' go s' :
  decide L s k bk loc L' go s' -> evolves s s'.
Proof.
  intros [c Hsp Hlt Hc | c thr Hsp Hge Hthr Hadd Hc | thr Hsp Hge Hthr Hadd | Hsp].
  - apply cat_dim1_loc_shape in Hc. destruct Hc.
    apply grown_evolves with (loc := loc); auto using add_inducing_X, add_inducing_data.
  - apply cat_dim1_loc_shape in Hc. destruct Hc.
    apply grown_evolves with (loc := loc); auto using add_1inducing_data.
    rewrite add_1inducing_X, Hadd. reflexivity.
  - pose proof (add_1inducing_X (model s) loc thr false) as HX. rewrite Hadd in HX.
    constructor; cbn; auto.
    + unfold cache_ok. cbn. now rewrite HX.
    + exists []. rewrite app_nil_r. split; [reflexivity|constructor].
    + unfold ndata. rewrite add_1inducing_data. lia.
    + exists []. now rewrite HX, app_nil_r.
  - apply evolves_refl.
Qed.

Lemma turn_evolves L s L' go s' : turn L s L' go s' -> evolves s s'.
Proof.
  intros [Hn | beta s1 k bk loc L1 go1 s1' Hn Hbeta Hk Hbk Hloc Hd].
  - apply evolves_refl.
  - eapply evolves_trans; [eapply get_covloss_evolves; eauto|].
    eapply evolves_trans; [|eapply decide_evolves; eauto].
    destruct (isclose bk 1); [apply set_blind_evolves | apply evolves_refl].
Qed.

Lemma update_inducing_loop_unfold fuel L s :
  update_inducing_loop (S fuel) L s =
  match update_inducing_body L s with
  | Ret (L', true) s' => update_inducing_loop fuel L' s'
  | Ret (L', false) s' => Ret L' s'
  | Raise e => Raise e
  | Timeout => Timeout
  end.
Proof.
  cbn [update_inducing_loop]. unfold bind.
  destruct (update_inducing_body L s) as [[L' [|]] s'| |]; reflexivity.
Qed.

Lemma update_inducing_loop_evolves fuel : forall L s L' s',
  update_inducing_loop fuel L s = Ret L' s' -> evolves s s'.
Proof.
  induction fuel as [|fuel IH]; intros L s L' s' H; [discriminate|].
  rewrite update_inducing_loop_unfold in H.
  destruct (update_inducing_body L s) as [[L1 go] s1| |] eqn:Eb; try discriminate.
  apply update_inducing_body_turn in Eb. apply turn_evolves in Eb.
  destruct go.
  - eapply evolves_trans; [exact Eb|]. eapply IH; eauto.
  - inversion H; subst. exact Eb.
Qed.

Lemma update_inducing_evolves fuel s m s' :
  update_inducing fuel s = Ret m s' -> evolves s s'.
Proof.
  unfold update_inducing. intros H.
  mbind H as u s1 Hm. minv Hm.
  mbind H as L s2 Hl. minv H.
  eapply evolves_trans; [apply set_blind_evolves|].
  eapply update_inducing_loop_evolves; eauto.
Qed.

Lemma update_evolves fuel s mn s' :
  update fuel s = Ret mn s' -> evolves s s'.
Proof.
  unfold update. intros H.
  mbind H as m s1 Hm. apply update_inducing_evolves in Hm.
  mbind H as s2 s3 Hget. minv Hget.
  mbind H as n s2 Hn. minv H.
  eapply evolves_trans; [exact Hm|].
  destruct (0 <? m)%nat.
  - eapply update_data_evolves; eauto.
  - minv Hn. apply evolves_refl.
Qed.

End Selection.

Section Step.
Context `{Ext : External} `{MC : !ModelContract}.

Lemma initiate_model_Ret s u s' :
  initiate_model s = Ret u s' ->
  s' = set_model (seeded (model s) (atoms s) (ediff s)) (log_event (EvExact (atoms s)) s).
Proof.
  unfold initiate_model. intros H.
  mbind H as snap s1 Hsnap. apply snapshot_Ret in Hsnap.
  destruct Hsnap as (Hconf & -> & He & Hf).
  mbind H as s2 s3 Hget. minv Hget.
  mbind H as u1 s4 Hm. minv Hm. minv H.
  destruct snap as [c e f]. cbn in *. subst.
  unfold seeded. cbn. destruct (exact_calc (atoms s)); reflexivity.
Qed.

Lemma initiate_model_run s :
  ndata (model s) = 0%nat ->
  initiate_model s =
  Ret tt (set_model (seeded (model s) (atoms s) (ediff s)) (log_event (EvExact (atoms s)) s)).
Proof.
  intros Hn. unfold initiate_model, snapshot, _exact, bind, get, modify, ret.
  cbn. rewrite Hn. cbn. unfold seeded. destruct (exact_calc (atoms s)); reflexivity.
Qed.

Lemma fold_add_1inducing_data e d l : forall m,
  data (fold_left (fun m loc => fst (add_1inducing m loc e d)) l m) = data m.
Proof.
  induction l as [|x l IH]; intros m; cbn; [reflexivity|].
  now rewrite IH, add_1inducing_data.
Qed.

Lemma fold_add_1inducing_X e d l : forall m,
  exists more,
    X (fold_left (fun m loc => fst (add_1inducing m loc e d)) l m) = X m ++ more /\
    incl more l.
Proof.
  induction l as [|x l IH]; intros m; cbn.
  - exists []. rewrite app_nil_r. split; [reflexivity|apply incl_refl].
  - destruct (IH (fst (add_1inducing m x e d))) as (more & E & Hin).
    rewrite E, add_1inducing_X. destruct (snd (add_1inducing m x e d)).
    + exists (x :: more). rewrite <- app_assoc. split; [reflexivity|].
      intros y [->|Hy]; [now left | right; auto].
    + exists more. split; [reflexivity|]. intros y Hy. right. auto.
Qed.

Lemma seeded_data m a e :
  data (seeded m a e) = [mkSnap a (fst (exact_calc a)) (snd (exact_calc a))].
Proof.
  unfold seeded. now rewrite fold_add_1inducing_data, set_data_data.
Qed.

Lemma seeded_X m a e :
  exists more,
    X (seeded m a e) = select (locs a) (first_of_each_atom_type a) ++ more /\
    incl more (select (locs a)
                 (filter (fun j => negb (mem j (first_of_each_atom_type a)))
                         (seq 0 (natoms a)))).
Proof.
  unfold seeded.
  destruct (fold_add_1inducing_X e true
              (select (locs a) (filter (fun j => negb (mem j (first_of_each_atom_type a)))
                                       (seq 0 (natoms a))))
              (set_data m [mkSnap a (fst (exact_calc a)) (snd (exact_calc a))]
                        (select (locs a) (first_of_each_atom_type a)))) as (more & E & Hin).
  exists more. rewrite E, set_data_X. auto.
Qed.

Lemma set_cov_cache_ok s :
  cache_ok (set_cov (kern_atoms_X (atoms s) (X (model s))) s).
Proof. reflexivity. Qed.

Lemma calculate_unfold fuel a s :
  calculate fuel a s =
  if ((step s =? 0) && (ndata (model s) =? 0))%nat
  then (initiate_model;;; steady fuel true) (set_atoms a s)
  else steady fuel false (set_atoms a s).
Proof.
  unfold calculate, steady. unfold bind, modify, get, ret.
  change (step (set_atoms a s)) with (step s).
  change (model (set_atoms a s)) with (model s).
  destruct (step s =? 0)%nat; [destruct (ndata (model s) =? 0)%nat|]; cbn [andb];
    try reflexivity.
  destruct (initiate_model (set_atoms a s)); reflexivity.
Qed.

Lemma steady_Ret fuel skip s u s' :
  steady fuel skip s = Ret u s' ->
  exists s4,
    evolves (set_cov (kern_atoms_X (atoms s) (X (model s))) s) s4 /\
    s' = set_step (S (step s4)) s4 /\
    (skip = true ->
     keeps (set_cov (kern_atoms_X (atoms s) (X (model s))) s) s4).
Proof.
  unfold steady. intros H.
  mbind H as u0 s1 Hm. minv Hm.
  mbind H as e s2 Hr.
  mbind H as u1 s3 Hupd.
  mbind H as s4 s5 Hget. minv Hget.
  mbind H as u2 s5 Hb. minv H.
  exists s5. split; [|split; [reflexivity|]].
  - eapply evolves_trans; [eapply calculate_results_evolves; eauto|].
    eapply evolves_trans with (s2 := s3).
    + destruct skip; [minv Hupd; apply evolves_refl|].
      mbind Hupd as mn s6 Hu. apply update_evolves in Hu.
      eapply evolves_trans; [exact Hu|].
      destruct (_ || _).
      * mbind Hupd as s7 s8 Hget. minv Hget.
        mbind Hupd as e2 s9 Hr2. minv Hupd.
        eapply calculate_results_evolves; eauto.
      * minv Hupd. apply evolves_refl.
    + destruct (is_some (bias s3)).
      * mbind Hb as b s6 Hb'. minv Hb. eapply add_bias_evolves; eauto.
      * minv Hb. apply evolves_refl.
  - intros ->. minv Hupd.
    apply calculate_results_Ret in Hr. destruct Hr as (Hk & _).
    eapply keeps_trans; [exact Hk|].
    destruct (is_some (bias _)).
    + mbind Hb as b s6 Hb'. minv Hb. apply add_bias_Ret in Hb'. tauto.
    + minv Hb. apply keeps_refl.
Qed.

End Step.

(** The reference implementation honours the contract. *)
#[export] Instance toy_contract (b : option (vec -> vec)) : ModelContract (Ext := Toy.ext b).
Proof.
  constructor; cbn; try reflexivity.
  - intros m loc e d. unfold Toy.toy_add_1inducing.
    destruct (_ || _); reflexivity.
  - intros m loc e d. unfold Toy.toy_add_1inducing.
    destruct (_ || _); reflexivity.
  - intros. now right.
Defined.

Lemma cat_dim1_loc_rows `{Ext : External} c a loc c' :
  cat_dim1 c (kern_atoms_loc a loc) = Some c' ->
  rows c' = map2 (fun r x => r ++ [kern1 x loc]) (rows c) (owned a).
Proof.
  unfold cat_dim1. destruct (_ =? _); [|discriminate].
  intros H; inversion H; subst; clear H. cbn.
  generalize (owned a). generalize (rows c).
  induction l as [|r l IH]; intros [|x l0]; cbn; auto. now rewrite IH.
Qed.


Section Training.
Context `{Ext : External}.

Lemma update_data_Ret try_fake s n s' :
  update_data try_fake s = Ret n s' ->
  exists new,
    (if try_fake
     then exists r, results s = Some r /\ new = fake_snapshot s r
     else new = true_snapshot s) /\
    let m1 := add_1atoms (model s) new (ediff s) (fdiff s) in
    n = (ndata m1 - ndata (model s))%nat /\
    if try_fake
    then if (0 <? n)%nat
         then exists added, hd_error (rev (data m1)) = Some added /\
                model s' = promoted m1 added /\
                trace s' = trace s ++ [EvExact (conf added)]
         else model s' = m1 /\ trace s' = trace s
    else model s' = m1 /\ trace s' = trace s ++ [EvExact (atoms s)].
Proof.
  unfold update_data. intros H.
  mbind H as s0 s1 Hget. minv Hget.
  mbind H as new s1 Hnew. apply snapshot_Ret in Hnew. destruct Hnew as (Hconf & Hnew).
  mbind H as u s2 Hm. minv Hm.
  mbind H as s3 s4 Hget. minv Hget.
  mbind H as u2 s5 Hh. minv H.
  exists new. destruct try_fake.
  - destruct Hnew as (-> & r & Hr & He & Hf).
    split.
    { exists r. split; [exact Hr|]. destruct new; cbn in *; subst. reflexivity. }
    cbn zeta. split; [reflexivity|]. cbn [model set_model] in *.
    destruct (0 <? _)%nat.
    + apply head_Ret in Hh. destruct Hh as (added & Hlast & ->).
      exists added. cbn in *. auto.
    + minv Hh. cbn. auto.
  - destruct Hnew as (-> & He & Hf).
    split.
    { destruct new; cbn in *; subst. reflexivity. }
    cbn zeta. split; [reflexivity|]. cbn [model set_model log_event ediff fdiff] in *.
    destruct (0 <? _)%nat; minv Hh; cbn; auto.
Qed.

End Training.


Section Spinning.
Context `{Ext : External}.

Lemma calc_ext s s' :
  frame s s' -> normalized s' = normalized s -> trace s' = trace s -> s' = s.
Proof.
  intros [] Hn Ht. destruct s, s'. cbn in *. congruence.
Qed.

Lemma get_covloss_pure s beta s' f :
  is_distributed (atoms s) = false -> normalized s = Some f ->
  get_covloss s = Ret beta s' -> s' = s.
Proof.
  intros Hd Hn H. apply get_covloss_Ret in H. destruct H as (Hf & Hn' & c & _ & Hb).
  rewrite Hd in Hb. destruct Hb as (_ & Ht & _). rewrite Hn in Hn'.
  apply calc_ext; congruence.
Qed.

Lemma get_covloss_set_blind b s beta s1 :
  get_covloss s = Ret beta s1 ->
  get_covloss (set_blind b s) = Ret beta (set_blind b s1).
Proof.
  unfold get_covloss, gather, all_reduce, bind, get, lift, modify, ret, raise.
  cbn [model cov atoms normalized set_blind].
  destruct (matmul_T (choli (model s)) (cov s)) as [t|]; [|discriminate].
  destruct (normalized s) as [[|]|].
  - destruct (is_distributed (atoms s)).
    + destruct (_ =? _); [|discriminate].
      destruct (scatter _ _ _); [|discriminate].
      destruct backend; [|discriminate].
      intros H; inversion H; subst. reflexivity.
    + intros H; inversion H; subst. reflexivity.
  - destruct (map _ (owned (atoms s))) eqn:Ea; [discriminate|]. rewrite <- Ea.
    destruct (broadcast2 _ _ _); [|discriminate].
    destruct (is_distributed (atoms s)).
    + cbn [atoms]. destruct (_ =? _); [|discriminate].
      destruct (scatter _ _ _); [|discriminate].
      destruct backend; [|discriminate].
      intros H; inversion H; subst. reflexivity.
    + intros H; inversion H; subst. reflexivity.
  - destruct (map _ (owned (atoms s))) eqn:Ea; [discriminate|]. rewrite <- Ea.
    destruct (broadcast2 _ _ _); [|discriminate].
    destruct (is_distributed (atoms s)).
    + cbn [atoms]. destruct (_ =? _); [|discriminate].
      destruct (scatter _ _ _); [|discriminate].
      destruct backend; [|discriminate].
      cbn [atoms set_normalized log_event].
      destruct (_ =? _); [|discriminate].
      destruct (scatter _ _ _); [|discriminate].
      intros H; inversion H; subst. reflexivity.
    + intros H; inversion H; subst. reflexivity.
Qed.

(** A candidate of a species unknown to the kernel is neither added nor
    marked as processed: the loop picks it again for ever. *)
Lemma unknown_candidate_spins L k loc : forall fuel s,
  length (added_indices L) <> natoms (atoms s) ->
  candidate L s k loc ->
  existsb (Z.eqb (number loc)) (species (model s)) = false ->
  update_inducing_loop fuel L s = Timeout.
Proof.
  induction fuel as [|fuel IH]; intros s Hn (beta & bk & Hbeta & Hk & Hbk & Hloc) Hsp;
    [reflexivity|].
  rewrite update_inducing_loop_unfold.
  assert (Hturn : turn L s L true (if isclose bk 1 then set_blind true s else s)).
  { eapply turn_candidate; eauto.
    apply decide_unknown. destruct (isclose bk 1); exact Hsp. }
  apply update_inducing_body_turn in Hturn. rewrite Hturn.
  apply IH.
  - destruct (isclose bk 1); exact Hn.
  - exists beta, bk. destruct (isclose bk 1); auto.
    repeat split; auto. now apply get_covloss_set_blind.
  - destruct (isclose bk 1); exact Hsp.
Qed.

End Spinning.

(** *** Running the selection loop on concrete scores *)

Lemma isclose_1_1 : isclose 1 1 = true.
Proof.
  unfold isclose, atol, rtol. destruct (Rle_dec _ _) as [|Hn]; [reflexivity|].
  exfalso. apply Hn. replace (1 - 1) with 0 by lra. rewrite Rabs_R0, Rabs_R1. lra.
Qed.

Lemma covloss_entry_explained x : x = 1 -> sqrt (Rmax (1 - x) 0) = 0.
Proof.
  intros ->. replace (1 - 1) with 0 by lra. rewrite Rmax_left by lra. apply sqrt_0.
Qed.

Lemma covloss_entry_novel x : x = 0 -> sqrt (Rmax (1 - x) 0) = 1.
Proof.
  intros ->. replace (1 - 0) with 1 by lra. rewrite Rmax_left by lra. apply sqrt_1.
Qed.

(** Decide the comparisons of a sort on numerals. *)
Ltac sort_numerals :=
  repeat (cbn [insert_desc nth];
          match goal with
          | |- context [Rlt_dec ?a ?b] =>
              destruct (Rlt_dec a b); [try (exfalso; lra) | try (exfalso; lra)]
          end).

Lemma argsort_7 : argsort_desc [0; 0; 0; 1; 1; 1; 1] = [3; 4; 5; 6; 0; 1; 2]%nat.
Proof.
  unfold argsort_desc. cbn [length seq fold_right]. sort_numerals. reflexivity.
Qed.

Lemma get_covloss_s7 :
  get_covloss (Ext := Toy.ext Toy.alone) Toy.s7 =
  Ret [0; 0; 0; 1; 1; 1; 1] (set_normalized (Some true) Toy.s7).
Proof.
  run. f_equal.
  - repeat match goal with |- _ :: _ = _ :: _ => f_equal end;
      first [apply covloss_entry_explained; lra | apply covloss_entry_novel; lra].
  - do 2 f_equal. unfold allclose_ones. cbn [forallb]. rewrite isclose_1_1. reflexivity.
Qed.

Lemma get_covloss_s7_detected :
  get_covloss (Ext := Toy.ext Toy.alone) (set_normalized (Some true) Toy.s7) =
  Ret [0; 0; 0; 1; 1; 1; 1] (set_normalized (Some true) Toy.s7).
Proof.
  run. f_equal.
  repeat match goal with |- _ :: _ = _ :: _ => f_equal end;
    first [apply covloss_entry_explained; lra | apply covloss_entry_novel; lra].
Qed.

Lemma pick_7 : pick (argsort_desc [0; 0; 0; 1; 1; 1; 1]) [] = Some 3%nat.
Proof. rewrite argsort_7. reflexivity. Qed.

(** The first turn on [Toy.s7]: the oxygen atom 3 has the highest score, its
    species is unknown, and the turn changes nothing but the flags. *)
Lemma first_turn_s7 :
  update_inducing_body (Ext := Toy.ext Toy.alone) Toy.L0 Toy.s7 =
  Ret (Toy.L0, true) (set_blind true (set_normalized (Some true) Toy.s7)).
Proof.
  apply update_inducing_body_turn.
  eapply turn_candidate with (k := 3%nat) (bk := 1) (loc := Toy.Oxy).
  - discriminate.
  - apply get_covloss_s7.
  - apply pick_7.
  - reflexivity.
  - reflexivity.
  - rewrite isclose_1_1. apply decide_unknown. reflexivity.
Qed.

Lemma candidate_s7 :
  candidate (Ext := Toy.ext Toy.alone) Toy.L0
    (set_blind true (set_normalized (Some true) Toy.s7)) 3 Toy.Oxy.
Proof.
  exists [0; 0; 0; 1; 1; 1; 1], 1. repeat split.
  - apply get_covloss_set_blind. apply get_covloss_s7_detected.
  - apply pick_7.
Qed.


Lemma get_covloss_s_H :
  get_covloss (Ext := Toy.ext Toy.alone) Toy.s_H =
  Ret [0] (set_normalized (Some true) Toy.s_H).
Proof.
  run. f_equal.
  - f_equal. apply covloss_entry_explained. lra.
  - do 2 f_equal. unfold allclose_ones. cbn [forallb]. rewrite isclose_1_1. reflexivity.
Qed.

Lemma isclose_0_1 : isclose 0 1 = false.
Proof.
  unfold isclose, atol, rtol. destruct (Rle_dec _ _) as [Hle|]; [|reflexivity].
  exfalso. replace (0 - 1) with (Ropp 1) in Hle by lra.
  rewrite Rabs_Ropp, Rabs_R1 in Hle. lra.
Qed.

(** The only turn on [Toy.s_H]: the hydrogen atom is already explained, and
    its energy-sensitivity add is refused. *)
Lemma first_turn_s_H :
  update_inducing_body (Ext := Toy.ext Toy.alone) Toy.L0 Toy.s_H =
  Ret (Toy.L0, false) (set_normalized (Some true) Toy.s_H).
Proof.
  apply update_inducing_body_turn.
  eapply turn_candidate with (k := 0%nat) (bk := 0) (loc := Toy.Hyd).
  - discriminate.
  - apply get_covloss_s_H.
  - reflexivity.
  - reflexivity.
  - reflexivity.
  - rewrite isclose_0_1.
    refine (decide_rejected (Ext := Toy.ext Toy.alone) Toy.L0
              (set_normalized (Some true) Toy.s_H) 0 0 Toy.Hyd tiny _ _ _ _).
    + reflexivity.
    + cbn. lra.
    + reflexivity.
    + reflexivity.
Qed.


(** *** The representatives chosen by the bootstrap *)

Lemma existsb_Zeqb z l : existsb (Z.eqb z) l = true <-> In z l.
Proof.
  rewrite existsb_exists. split.
  - intros (x & Hx & E). apply Z.eqb_eq in E. now subst.
  - intros H. exists z. split; [exact H | apply Z.eqb_refl].
Qed.

Lemma new_species_spec ns : forall seen,
  NoDup (new_species seen ns) /\
  (forall z, In z (new_species seen ns) <-> In z ns /\ ~ In z seen).
Proof.
  induction ns as [|x ns IH]; intros seen; cbn.
  - split; [constructor|]. intros z. tauto.
  - destruct (existsb (Z.eqb x) seen) eqn:E.
    + apply existsb_Zeqb in E. destruct (IH seen) as [Hnd Hin]. split; [exact Hnd|].
      intros z. rewrite Hin. split; [tauto|].
      intros [[->|Hz] Hs]; [contradiction | tauto].
    + assert (Hx : ~ In x seen).
      { intros Hx. apply existsb_Zeqb in Hx. congruence. }
      destruct (IH (x :: seen)) as [Hnd Hin]. split.
      * constructor; [|exact Hnd]. rewrite Hin. cbn. tauto.
      * intros z. cbn. rewrite Hin. cbn.
        destruct (Z.eq_dec x z) as [->|Hne]; tauto.
Qed.

Lemma select_cons {A} (l : list A) j idx :
  select l (j :: idx) =
  match nth_error l j with Some x => [x] | None => [] end ++ select l idx.
Proof. reflexivity. Qed.

Lemma first_of_each_aux_species l : forall pre seen,
  map number (select (pre ++ l) (first_of_each_aux seen (length pre) (map number l))) =
  new_species seen (map number l).
Proof.
  induction l as [|x l IH]; intros pre seen; cbn [map first_of_each_aux new_species].
  - reflexivity.
  - specialize (IH (pre ++ [x])). rewrite length_app, <- app_assoc in IH. cbn in IH.
    rewrite Nat.add_1_r in IH.
    destruct (existsb (Z.eqb (number x)) seen).
    + apply IH.
    + rewrite select_cons, nth_error_app2, Nat.sub_diag by lia. cbn.
      f_equal. apply IH.
Qed.

Lemma representatives_one_per_species (a : TorchAtoms) :
  let seeds := select (locs a) (first_of_each_atom_type a) in
  NoDup (map number seeds) /\
  forall z, In z (map number seeds) <-> In z (numbers a).
Proof.
  cbn zeta. unfold first_of_each_atom_type, numbers.
  pose proof (first_of_each_aux_species (locs a) [] []) as E. cbn in E. rewrite E.
  destruct (new_species_spec (map number (locs a)) []) as [Hnd Hin].
  split; [exact Hnd|]. intros z. rewrite Hin. cbn. tauto.
Qed.


(** *** Linearity of the bias energy *)

Lemma dot_cons x r y p : dot (x :: r) (y :: p) = x * y + dot r p.
Proof. reflexivity. Qed.

Lemma dot_nil_r r : dot r [] = 0.
Proof. destruct r; reflexivity. Qed.

Lemma dot_vadd r : forall p q, length p = length q ->
  dot r (vadd p q) = dot r p + dot r q.
Proof.
  induction r as [|x r IH]; intros [|y p] [|z q] H; try discriminate H.
  - cbn. lra.
  - cbn. lra.
  - cbn [vadd map2]. rewrite !dot_nil_r. lra.
  - change (vadd (y :: p) (z :: q)) with ((y + z) :: vadd p q).
    rewrite !dot_cons, IH by (cbn in H; lia). lra.
Qed.

Lemma dot_vscale r k : forall q, dot r (vscale k q) = k * dot r q.
Proof.
  induction r as [|x r IH]; intros [|z q].
  - cbn. lra.
  - cbn. lra.
  - cbn [vscale map]. rewrite !dot_nil_r. lra.
  - change (vscale k (z :: q)) with ((k * z) :: vscale k q).
    rewrite !dot_cons, IH. lra.
Qed.

Lemma cache_energy_cons r l sz w :
  cache_energy (mkT2 sz (r :: l)) w = dot r w + cache_energy (mkT2 sz l) w.
Proof. reflexivity. Qed.

Lemma cache_energy_vadd c p q : length p = length q ->
  cache_energy c (vadd p q) = cache_energy c p + cache_energy c q.
Proof.
  intros H. destruct c as [sz l]. induction l as [|r l IH].
  - cbn. lra.
  - rewrite !cache_energy_cons, IH, dot_vadd by exact H. lra.
Qed.

Lemma cache_energy_vscale c k q :
  cache_energy c (vscale k q) = k * cache_energy c q.
Proof.
  destruct c as [sz l]. induction l as [|r l IH].
  - cbn. lra.
  - rewrite !cache_energy_cons, IH, dot_vscale. lra.
Qed.

Lemma dot_zeros r : forall k, dot r (zeros k) = 0.
Proof.
  induction r as [|x r IH]; intros [|k]; try reflexivity.
  change (zeros (S k)) with (0 :: zeros k). rewrite dot_cons, IH. lra.
Qed.

Lemma cache_energy_zeros c k : cache_energy c (zeros k) = 0.
Proof.
  destruct c as [sz l]. induction l as [|r l IH].
  - reflexivity.
  - rewrite cache_energy_cons, IH, dot_zeros. lra.
Qed.

Lemma mean_response_length mi c : length (mean_response mi c) = size0 mi.
Proof. unfold mean_response, sum_dim1, size0. cbn. now rewrite !length_map. Qed.

Lemma padded_bias_length s :
  (forall p, bias_pot s = Some p -> (length p <= size1 (cov s))%nat) ->
  length (padded_bias s) = size1 (cov s).
Proof.
  intros Hp. unfold padded_bias, zeros.
  destruct (bias_pot s) as [p|].
  - specialize (Hp p eq_refl). rewrite length_app, repeat_length. lia.
  - rewrite length_app, !repeat_length. lia.
Qed.

Section BiasStep.
Context `{Ext : External}.

(** One bias step, without distribution and with this worker alone in the
    process group. *)
Lemma add_bias_run s b :
  is_distributed (atoms s) = false -> single_worker ->
  bias s = Some b -> results s <> None -> bias_ready s ->
  let bp := vadd (padded_bias s) (vscale b (mean_response (Mi (model s)) (cov s))) in
  exists e s',
    add_bias s = Ret e s' /\ e = cache_energy (cov s) bp /\
    bias_pot s' = Some bp /\ length bp = size1 (cov s) /\
    keeps s s' /\ results s' <> None.
Proof.
  intros Ed (peers & Hb & Halone) Hbias Hres (HMi1 & HMi0 & Hp & _) bp.
  assert (Hu : length (mean_response (Mi (model s)) (cov s)) = size1 (cov s)).
  { now rewrite mean_response_length. }
  assert (Hpad : length (padded_bias s) = size1 (cov s)) by now apply padded_bias_length.
  assert (Hbp : length bp = size1 (cov s)).
  { subst bp. rewrite vadd_length; [exact Hpad|]. unfold vscale. rewrite length_map. congruence. }
  destruct (results s) as [r|] eqn:Er; [|contradiction].
  unfold add_bias, bind, get, matmul_T. rewrite HMi1, Nat.eqb_refl.
  cbn [lift ret]. rewrite Ed. cbn [ret].
  change (sum_dim1 _) with (mean_response (Mi (model s)) (cov s)).
  set (u := mean_response (Mi (model s)) (cov s)) in *.
  set (p0 := match bias_pot s with Some p => p | None => zeros (size1 (cov s)) end).
  assert (Hp0 : (length p0 <= length u)%nat).
  { subst p0. rewrite Hu. destruct (bias_pot s) as [p|]; [now apply Hp|].
    unfold zeros. now rewrite repeat_length. }
  unfold pad_1d. apply Nat.leb_le in Hp0. rewrite Hp0. cbn [lift ret].
  rewrite Hbias. cbn [lift ret]. rewrite Hu.
  change (p0 ++ zeros (size1 (cov s) - length p0)) with (padded_bias s).
  unfold broadcast2.
  assert (Hlen : length (padded_bias s) = length (vscale b u)).
  { unfold vscale. rewrite length_map. congruence. }
  apply Nat.eqb_eq in Hlen. rewrite Hlen. cbn [lift ret modify].
  change (map2 Rplus (padded_bias s) (vscale b u)) with bp.
  unfold matvec. cbn [cov set_bias_pot].
  rewrite <- Hbp, Nat.eqb_refl. cbn [option_map lift ret].
  unfold all_reduce_scalar, all_reduce, bind. rewrite Hb, Halone. cbn [length zeros repeat vadd map2 ret nth].
  unfold grads, bind, get, modify, ret. cbn [atoms log_event set_bias_pot]. rewrite Ed.
  cbn [results log_event set_bias_pot lift ret]. rewrite Er. cbn [lift ret].
  do 2 eexists. split; [reflexivity|].
  split; [unfold cache_energy; fold (vsum (map (fun r0 => dot r0 bp) (rows (cov s)))); lra|].
  cbn. repeat split; auto. discriminate.
Qed.

(** The bias energy of the visits of one configuration is an arithmetic
    progression. *)
Lemma revisit_energy b : forall n s,
  is_distributed (atoms s) = false -> single_worker ->
  bias s = Some b -> results s <> None -> bias_ready s ->
  exists e sn,
    revisit n s = Ret e sn /\
    e = cache_energy (cov s) (padded_bias s) +
        INR (S n) * (b * cache_energy (cov s) (mean_response (Mi (model s)) (cov s))).
Proof.
  induction n as [|n IH]; intros s Ed Hw Hbias Hres Hready.
  - destruct (add_bias_run s b Ed Hw Hbias Hres Hready) as (e & s' & Hrun & He & Hbp & Hlen & _).
    exists e, s'. split; [exact Hrun|]. rewrite He.
    rewrite cache_energy_vadd, cache_energy_vscale.
    + cbn [INR]. lra.
    + unfold vscale. rewrite length_map.
      rewrite vadd_length in Hlen; unfold vscale in *; rewrite ?length_map in *.
      * destruct Hready as (_ & HMi0 & _). rewrite mean_response_length. congruence.
      * destruct Hready as (_ & HMi0 & Hp & _).
        rewrite padded_bias_length, mean_response_length by exact Hp. congruence.
  - destruct (add_bias_run s b Ed Hw Hbias Hres Hready)
      as (e & s' & Hrun & He & Hbp & Hlen & Hk & Hres').
    destruct Hk as (Hm & Ha & Hc & _ & _ & _ & Hbi & _).
    assert (Hready' : bias_ready s').
    { destruct Hready as (H1 & H0 & Hp & Hb). unfold bias_ready.
      rewrite Hm, Hc, Hbi. repeat split; auto.
      intros p Hp'. rewrite Hbp in Hp'. inversion Hp'; subst. lia. }
    destruct (IH s') as (e2 & sn & Hrun2 & He2); auto; try congruence.
    exists e2, sn. split.
    + cbn [revisit]. unfold bind. rewrite Hrun. exact Hrun2.
    + rewrite He2, Hm, Hc.
      assert (Hpad : padded_bias s' =
                     vadd (padded_bias s) (vscale b (mean_response (Mi (model s)) (cov s)))).
      { unfold padded_bias at 1. rewrite Hbp, Hc, Hlen, Nat.sub_diag. cbn. apply app_nil_r. }
      rewrite Hpad, cache_energy_vadd, cache_energy_vscale.
      * rewrite (S_INR (S n)). lra.
      * destruct Hready as (_ & HMi0 & Hp & _). unfold vscale.
        rewrite length_map, padded_bias_length, mean_response_length by exact Hp. congruence.
Qed.

End BiasStep.


(** *** Termination of the selection loop when every species is known *)

Lemma insert_desc_perm v i l : Permutation (insert_desc v i l) (i :: l).
Proof.
  induction l as [|j l IH]; cbn; [reflexivity|].
  destruct (Rlt_dec _ _); [|reflexivity].
  rewrite IH. apply perm_swap.
Qed.

Lemma argsort_desc_perm v : Permutation (argsort_desc v) (seq 0 (length v)).
Proof.
  unfold argsort_desc. induction (seq 0 (length v)) as [|i l IH]; cbn; [reflexivity|].
  rewrite insert_desc_perm. now constructor.
Qed.

Lemma mem_In k l : mem k l = true <-> In k l.
Proof.
  unfold mem. rewrite existsb_exists. split.
  - intros (x & Hx & E). apply Nat.eqb_eq in E. now subst.
  - intros H. exists k. split; [exact H | apply Nat.eqb_refl].
Qed.

(** With more scores than processed atoms the candidate is a fresh atom. *)
Lemma pick_fresh beta added k :
  (length added < length beta)%nat ->
  pick (argsort_desc beta) added = Some k ->
  ~ In k added.
Proof.
  intros Hlen Hp. unfold pick in Hp.
  destruct (find _ _) as [k'|] eqn:Ef.
  - inversion Hp; subst. apply find_some in Ef. destruct Ef as [_ Hk].
    intros Hin. apply mem_In in Hin. rewrite Hin in Hk. discriminate.
  - exfalso.
    assert (Hincl : incl (argsort_desc beta) added).
    { intros x Hx. eapply find_none in Ef; eauto.
      apply negb_false_iff in Ef. now apply mem_In. }
    assert (Hnd : NoDup (argsort_desc beta)).
    { eapply Permutation_NoDup; [symmetry; apply argsort_desc_perm | apply seq_NoDup]. }
    pose proof (NoDup_incl_length Hnd Hincl) as Hle.
    rewrite (Permutation_length (argsort_desc_perm beta)), length_seq in Hle. lia.
Qed.

Lemma covloss_of_length c : length (covloss_of c) = length c.
Proof. unfold covloss_of. apply length_map. Qed.

Lemma matmul_T_size1 a b t : matmul_T a b = Some t -> size1 t = size0 b.
Proof.
  unfold matmul_T. destruct (_ =? _); [|discriminate].
  intros H; inversion H; reflexivity.
Qed.

Lemma bind_Timeout {A B} (m : M A) (k : A -> M B) s :
  bind m k s = Timeout ->
  m s = Timeout \/ exists a s', m s = Ret a s' /\ k a s' = Timeout.
Proof.
  unfold bind. destruct (m s) as [a s'| |]; intros H; try discriminate; eauto.
Qed.

(** One step in the search for a loop inside an operation. *)
Ltac tstep :=
  match goal with
  | H : bind _ _ _ = Timeout |- _ =>
      apply bind_Timeout in H; destruct H as [H | (? & ? & _ & H)]
  | H : lift _ ?o _ = Timeout |- _ => destruct o; discriminate H
  | H : ret _ _ = Timeout |- _ => discriminate H
  | H : get _ = Timeout |- _ => discriminate H
  | H : modify _ _ = Timeout |- _ => discriminate H
  | H : raise _ _ = Timeout |- _ => discriminate H
  | H : all_reduce _ _ = Timeout |- _ =>
      unfold all_reduce in H; destruct backend; discriminate H
  | H : (match ?x with _ => _ end) _ = Timeout |- _ => destruct x
  end.

Section Termination.
Context `{Ext : External} `{MC : !ModelContract} `{SS : !SpeciesStable}.

Lemma get_covloss_length s beta s' :
  is_distributed (atoms s) = false -> size0 (cov s) = natoms (atoms s) ->
  get_covloss s = Ret beta s' -> length beta = natoms (atoms s).
Proof.
  intros Ed Hrows H. apply get_covloss_Ret in H.
  destruct H as (_ & _ & c & (b & Hb & Hc) & Hbeta).
  rewrite Ed in Hbeta. destruct Hbeta as (-> & _).
  rewrite covloss_of_length. apply matmul_T_size1 in Hb.
  destruct (is_normalized s).
  - subst c. rewrite sumsq_dim0_length. congruence.
  - destruct Hc as (_ & Hc). unfold broadcast2 in Hc.
    assert (Hl : length (sumsq_dim0 b) = length (self_cov (atoms s))).
    { rewrite sumsq_dim0_length. unfold self_cov, owned. rewrite Ed, length_map.
      unfold natoms in Hrows. congruence. }
    apply Nat.eqb_eq in Hl. rewrite Hl in Hc. apply Nat.eqb_eq in Hl.
    inversion Hc; subst. rewrite map2_length by exact Hl.
    rewrite sumsq_dim0_length. congruence.
Qed.

Lemma get_covloss_returns s : get_covloss s <> Timeout.
Proof.
  intros H. unfold get_covloss, gather in H. repeat tstep.
Qed.

Lemma update_inducing_body_returns L s : update_inducing_body L s <> Timeout.
Proof.
  intros H. unfold update_inducing_body in H.
  repeat first [tstep | match goal with
                        | H : get_covloss _ = Timeout |- _ =>
                            exact (get_covloss_returns _ H)
                        end].
Qed.

(** The selection state is preserved by a turn. *)
Lemma turn_selectable L s L' go s' :
  selectable s -> turn L s L' go s' -> selectable s'.
Proof.
  intros (Ed & Hrows & Hsp) Ht.
  pose proof (turn_evolves _ _ _ _ _ Ht) as Hev.
  assert (Hspec : species (model s') = species (model s)).
  { destruct Ht as [Hn | beta s1 k bk loc L1 go1 s1' Hn Hbeta Hk Hbk Hloc Hd]; [reflexivity|].
    apply get_covloss_Ret in Hbeta. destruct Hbeta as (Hf & _).
    assert (Hm : model (if isclose bk 1 then set_blind true s1 else s1) = model s).
    { destruct (isclose bk 1); cbn; apply Hf. }
    destruct Hd; cbn [model set_cov set_model];
      rewrite ?add_inducing_species, ?add_1inducing_species; congruence. }
  unfold selectable. rewrite (ev_atoms _ _ Hev), (ev_rows _ _ Hev).
  repeat split; auto.
  eapply Forall_impl; [|exact Hsp]. unfold known_species. intros loc. now rewrite Hspec.
Qed.

Lemma tidy_length L s : tidy L s -> (length (added_indices L) <= natoms (atoms s))%nat.
Proof.
  intros (Hnd & Hlt & _).
  rewrite <- (length_seq (natoms (atoms s)) 0). apply NoDup_incl_length; [exact Hnd|].
  intros k Hk. eapply Forall_forall in Hlt; [|exact Hk]. apply in_seq. lia.
Qed.

(** Progress: a turn that goes on has processed one more atom, a fresh
    one. *)
Lemma turn_progress L s L' s' :
  selectable s -> tidy L s -> turn L s L' true s' ->
  tidy L' s' /\ length (added_indices L') = S (length (added_indices L)).
Proof.
  intros (Ed & Hrows & Hsp) Htidy Ht.
  pose proof (tidy_length _ _ Htidy) as Hle.
  pose proof (turn_evolves _ _ _ _ _ Ht) as Hev.
  destruct Htidy as (Hnd & Hlt & Hcount).
  inversion Ht as [|beta s1 k bk loc L1 go1 s1' Hn Hbeta Hk Hbk Hloc Hd]; subst.
  assert (Hklt : (k < natoms (atoms s))%nat).
  { unfold local in Hloc. apply nth_error_Some. congruence. }
  pose proof (get_covloss_length _ _ _ Ed Hrows Hbeta) as Hlen.
  assert (Hknown : known_species loc (model s)).
  { eapply Forall_forall in Hsp; [exact Hsp|]. eapply nth_error_In; eauto. }
  apply get_covloss_Ret in Hbeta. destruct Hbeta as (Hf & _).
  assert (Hm : model (if isclose bk 1 then set_blind true s1 else s1) = model s).
  { destruct (isclose bk 1); cbn; apply Hf. }
  assert (Hfresh : ~ In k (added_indices L)).
  { eapply pick_fresh; [|exact Hk]. lia. }
  assert (Hgrow : forall ab ad,
            (ab + ad = S (length (added_indices L)))%nat ->
            tidy (mkLocals ab ad (added_indices L ++ [k])) s' /\
            length (added_indices L ++ [k]) = S (length (added_indices L))).
  { intros ab ad Hc. unfold tidy. cbn [added_indices added_beta added_diff].
    rewrite (ev_atoms _ _ Hev), length_app. cbn [length].
    repeat split; try lia.
    - apply NoDup_app; [exact Hnd | repeat constructor; intros [] | ].
      intros x Hx [<-|[]]. contradiction.
    - apply Forall_app. split; [exact Hlt | repeat constructor; exact Hklt]. }
  inversion Hd; subst.
  - apply Hgrow. lia.
  - apply Hgrow. lia.
  - unfold known_species in Hknown. congruence.
Qed.

Lemma turn_stop L s L' s' : turn L s L' false s' -> L' = L.
Proof.
  intros Ht. inversion Ht as [|beta s1 k bk loc L1 go1 s1' Hn Hbeta Hk Hbk Hloc Hd]; subst;
    [reflexivity|].
  inversion Hd; reflexivity.
Qed.

(** With every species known the loop returns or raises within one turn
    more than the number of atoms still to process, and no atom is added
    twice. *)
Theorem update_inducing_loop_terminates : forall n fuel L s,
  selectable s -> tidy L s ->
  (natoms (atoms s) - length (added_indices L) <= n)%nat -> (n < fuel)%nat ->
  match update_inducing_loop fuel L s with
  | Timeout => False
  | Raise _ => True
  | Ret L' s' => tidy L' s' /\ atoms s' = atoms s
  end.
Proof.
  induction n as [|n IH]; intros [|fuel] L s Hsel Htidy Hmeasure Hfuel; try lia.
  - rewrite update_inducing_loop_unfold.
    destruct (update_inducing_body L s) as [[L' go] s'|e|] eqn:Eb;
      [|exact I|exact (update_inducing_body_returns _ _ Eb)].
    apply update_inducing_body_turn in Eb.
    pose proof (ev_atoms _ _ (turn_evolves _ _ _ _ _ Eb)) as Ha.
    destruct go.
    + destruct (turn_progress _ _ _ _ Hsel Htidy Eb) as (Htidy' & Hlen).
      pose proof (tidy_length _ _ Htidy') as Hle. rewrite Ha in Hle. lia.
    + apply turn_stop in Eb. subst L'.
      split; [|exact Ha]. unfold tidy in *. now rewrite Ha.
  - rewrite update_inducing_loop_unfold.
    destruct (update_inducing_body L s) as [[L' go] s'|e|] eqn:Eb;
      [|exact I|exact (update_inducing_body_returns _ _ Eb)].
    apply update_inducing_body_turn in Eb.
    pose proof (ev_atoms _ _ (turn_evolves _ _ _ _ _ Eb)) as Ha.
    destruct go.
    + destruct (turn_progress _ _ _ _ Hsel Htidy Eb) as (Htidy' & Hlen).
      pose proof (turn_selectable _ _ _ _ _ Hsel Eb) as Hsel'.
      specialize (IH fuel L' s' Hsel' Htidy').
      rewrite Ha, Hlen in IH.
      assert (M1 : (natoms (atoms s) - S (length (added_indices L)) <= n)%nat) by lia.
      assert (M2 : (n < fuel)%nat) by lia.
      specialize (IH M1 M2).
      destruct (update_inducing_loop fuel L' s') as [L2 s2|e|]; [|exact I|exact IH].
      destruct IH as [Ht2 Ha2]. split; [exact Ht2 | congruence].
    + apply turn_stop in Eb. subst L'.
      split; [|exact Ha]. unfold tidy in *. now rewrite Ha.
Qed.

(** [update_inducing] itself: with every species known it never runs out of
    a fuel of one more than the number of atoms, and it reports at most as
    many additions as there are atoms. *)
Corollary update_inducing_terminates (s : ActiveCalculator) :
  selectable s ->
  match update_inducing (S (natoms (atoms s))) s with
  | Timeout => False
  | Raise _ => True
  | Ret m s' => (m <= natoms (atoms s))%nat
  end.
Proof.
  intros Hsel. unfold update_inducing, bind, modify.
  assert (Hsel' : selectable (set_blind false s)) by exact Hsel.
  assert (Htidy : tidy (mkLocals 0 0 []) (set_blind false s)).
  { repeat split; constructor. }
  pose proof (update_inducing_loop_terminates (natoms (atoms s)) (S (natoms (atoms s)))
                _ _ Hsel' Htidy) as H.
  cbn [atoms set_blind added_indices length] in H.
  specialize (H ltac:(lia) ltac:(lia)).
  destruct (update_inducing_loop _ _ _) as [L' s'|e|]; auto.
  destruct H as [Ht Ha]. cbn [ret].
  pose proof (tidy_length _ _ Ht) as Hle. destruct Ht as (_ & _ & Hc).
  rewrite Hc. rewrite Ha in Hle. exact Hle.
Qed.

End Termination.

#[export] Instance toy_species_stable (b : option (vec -> vec)) :
  SpeciesStable (Ext := Toy.ext b).
Proof.
  constructor; cbn; [reflexivity|].
  intros m loc e d. unfold Toy.toy_add_1inducing. destruct (_ || _); reflexivity.
Defined.

(** The loop on [Toy.s_H], where every species is known. *)
Example update_inducing_terminates_s_H :
  update_inducing (Ext := Toy.ext Toy.alone) 2 Toy.s_H <> Timeout.
Proof.
  pose proof (update_inducing_terminates (Ext := Toy.ext Toy.alone) Toy.s_H) as H.
  intros E. change (S (natoms (atoms Toy.s_H))) with 2%nat in H.
  rewrite E in H. apply H.
  repeat split. repeat constructor.
Qed.

(** *** A round that adds an inducing point by uncertainty *)

Lemma get_covloss_s_new :
  get_covloss (Ext := Toy.ext Toy.alone) Toy.s_new =
  Ret [1] (set_normalized (Some true) Toy.s_new).
Proof.
  run. f_equal.
  - f_equal. apply covloss_entry_novel. lra.
  - do 2 f_equal. unfold allclose_ones. cbn [forallb]. rewrite isclose_1_1. reflexivity.
Qed.

Lemma first_turn_s_new :
  update_inducing_body (Ext := Toy.ext Toy.alone) Toy.L0 Toy.s_new =
  Ret (mkLocals 1 0 [0%nat], true) Toy.s_new_added.
Proof.
  apply update_inducing_body_turn.
  eapply turn_candidate with (k := 0%nat) (bk := 1) (loc := Toy.Oxy).
  - discriminate.
  - apply get_covloss_s_new.
  - reflexivity.
  - reflexivity.
  - reflexivity.
  - rewrite isclose_1_1.
    refine (decide_covloss (Ext := Toy.ext Toy.alone) Toy.L0
              (set_blind true (set_normalized (Some true) Toy.s_new)) 0 1 Toy.Oxy
              (mkT2 2 [[0; 1]]) _ _ _).
    + reflexivity.
    + cbn. lra.
    + reflexivity.
Qed.

Lemma update_inducing_s_new :
  update_inducing (Ext := Toy.ext Toy.alone) 2 Toy.s_new = Ret 1%nat Toy.s_new_added.
Proof.
  unfold update_inducing, bind, modify.
  change (set_blind false Toy.s_new) with Toy.s_new.
  change (mkLocals 0 0 []) with Toy.L0.
  rewrite update_inducing_loop_unfold, first_turn_s_new.
  rewrite update_inducing_loop_unfold.
  assert (H : update_inducing_body (Ext := Toy.ext Toy.alone) (mkLocals 1 0 [0%nat]) Toy.s_new_added
              = Ret (mkLocals 1 0 [0%nat], false) Toy.s_new_added).
  { apply update_inducing_body_turn. apply turn_exhausted. reflexivity. }
  rewrite H. reflexivity.
Qed.

Lemma update_s_new :
  exists s', update (Ext := Toy.ext Toy.alone) 2 Toy.s_new = Ret (1%nat, 1%nat) s'.
Proof.
  unfold update, bind. rewrite update_inducing_s_new.
  eexists. run. reflexivity.
Qed.

(** ** The claims *)



(** C8: [grads] does not fail when the configuration has no volume: it
    returns the forces it took from the energy, and as stress the virial
    assembled from these forces and from its own cell gradient, divided by
    the constant -2; with a volume the same virial is divided by that
    volume.  (Collectives are only involved, and can only fail, in
    distributed mode.) *)
Theorem grads_volume_fallback `{Ext : External} (w : vec) (retain_graph : bool)
    (s : ActiveCalculator) :
  (is_distributed (atoms s) = true -> backend <> None) ->
  let f := own_forces s w in
  let cg := own_cellgrad s w in
  (get_volume (atoms s) = None ->
   grads w retain_graph s =
     Ret (f, map (map (fun x => x / -2)) (virial (atoms s) f cg)) (grads_logged s)) /\
  (forall v, get_volume (atoms s) = Some v ->
   grads w retain_graph s =
     Ret (f, map (map (fun x => x / v)) (virial (atoms s) f cg)) (grads_logged s)).
Proof.
  intros Hb f cg.
  assert (H : grads w retain_graph s =
               Ret (f, map (map (fun x => x / match get_volume (atoms s) with
                                               | Some v => v
                                               | None => -2
                                               end)) (virial (atoms s) f cg))
                   (grads_logged s)).
  { subst f cg.
    unfold grads, own_forces, own_cellgrad, summed, grads_logged,
      bind, get, modify, all_reduce_rows, ret.
    cbn [atoms cov log_event].
    destruct (is_distributed (atoms s)) eqn:Ed.
    - destruct backend as [peers|]; [|exfalso; now apply Hb].
      reflexivity.
    - reflexivity. }
  split; [intros Hv | intros v Hv]; rewrite Hv in H; exact H.
Qed.

Lemma grads_volume_fallback_witness :
  exists f st s',
    grads (Ext := Toy.pulled) [0] true Toy.s_pulled = Ret (f, st) s' /\
    f = own_forces (Ext := Toy.pulled) Toy.s_pulled [0] /\
    nth 0 (nth 0 f []) 0 = -2 /\
    nth 0 (nth 0 st []) 0 = -1.
Proof.
  pose proof (proj1 (grads_volume_fallback (Ext := Toy.pulled) [0] true Toy.s_pulled
                       ltac:(discriminate)) eq_refl) as H.
  eexists. eexists. eexists. split; [exact H|]. split; [reflexivity|].
  split; run; lra.
Defined.

(** C10: without distribution the read path [calculate_results] performs no
    collective and needs no backend, whereas [add_bias] all-reduces the bias
    energy unconditionally: a successful bias step always contains a
    collective, and without an initialised backend the bias step fails. *)
Theorem bias_collective_unguarded `{Ext : External} (s : ActiveCalculator) :
  is_distributed (atoms s) = false ->
  (forall r e s', calculate_results r s = Ret e s' ->
     trace s' = trace s ++ [EvGrads (size1 (cov s)) (length (X (model s)))]) /\
  (forall r, size1 (cov s) = length (mu (model s)) ->
     exists e s', calculate_results r s = Ret e s') /\
  (forall e s', add_bias s = Ret e s' ->
     backend <> None /\
     trace s' = trace s ++ [EvAllReduce; EvGrads (size1 (cov s)) (length (X (model s)))]) /\
  (backend = None -> bias_ready s -> add_bias s = Raise NotInitialized).
Proof.
  intros Ed. repeat split.
  - intros r e s' H. apply calculate_results_Ret in H.
    destruct H as (_ & _ & pre & post & Htr & Hnd & _).
    destruct (Hnd Ed) as [-> ->]. exact Htr.
  - intros r Hsz. unfold calculate_results, bind, get, matvec.
    rewrite Hsz, Nat.eqb_refl. cbn [option_map lift ret]. rewrite Ed.
    unfold grads, bind, get, modify, ret. cbn [atoms log_event set_results].
    rewrite Ed. eauto.
  - apply add_bias_Ret in H. tauto.
  - apply add_bias_Ret in H.
    destruct H as (_ & _ & pre & post & Htr & Hnd & _).
    destruct (Hnd Ed) as [-> ->]. exact Htr.
  - intros Hb (HMi1 & HMi0 & Hp & Hbias).
    unfold add_bias, bind, get, matmul_T. rewrite HMi1, Nat.eqb_refl.
    cbn [lift ret]. rewrite Ed. cbn [ret].
    destruct (bias s) as [b|] eqn:Eb; [|contradiction].
    set (mu_ := sum_dim1 _).
    assert (Hmu : length mu_ = size1 (cov s)).
    { subst mu_. unfold sum_dim1. cbn. rewrite !length_map. exact HMi0. }
    set (p0 := match bias_pot s with Some p => p | None => zeros (size1 (cov s)) end).
    assert (Hp0 : (length p0 <= length mu_)%nat).
    { subst p0. rewrite Hmu. destruct (bias_pot s) as [p|]; [now apply Hp|].
      unfold zeros. now rewrite repeat_length. }
    unfold pad_1d. apply Nat.leb_le in Hp0. rewrite Hp0. apply Nat.leb_le in Hp0.
    cbn [lift ret].
    assert (Hlen : length (p0 ++ zeros (length mu_ - length p0)) = length (vscale b mu_)).
    { unfold vscale, zeros. rewrite length_app, repeat_length, length_map. lia. }
    unfold broadcast2. apply Nat.eqb_eq in Hlen. rewrite Hlen. apply Nat.eqb_eq in Hlen.
    cbn [lift ret modify].
    unfold matvec.
    assert (Hbp : size1 (cov s) = length (map2 Rplus (p0 ++ zeros (length mu_ - length p0))
                                                  (vscale b mu_))).
    { change (map2 Rplus) with vadd. rewrite (vadd_length _ _ Hlen). rewrite Hlen. unfold vscale.
      rewrite length_map. now rewrite Hmu. }
    apply Nat.eqb_eq in Hbp. rewrite Hbp.
    cbn [option_map lift ret].
    unfold all_reduce_scalar, all_reduce, bind. rewrite Hb. reflexivity.
Qed.

Lemma bias_collective_unguarded_witness :
  add_bias (Ext := Toy.ext None) Toy.s_biased = Raise NotInitialized.
Proof.
  refine (proj2 (proj2 (proj2
    (bias_collective_unguarded (Ext := Toy.ext None) Toy.s_biased _))) _ _).
  - reflexivity.
  - reflexivity.
  - unfold bias_ready. cbn. repeat split; try lia. discriminate. discriminate.
Defined.

(** C2: every gradient request of a step sees as many cache columns as
    there are inducing points, and the step leaves the cache in that state;
    a turn of the selection loop either leaves the cache alone or, on a
    successful add, appends to every row the covariance of that atom with
    the new inducing point, keeping the existing entries. *)
Theorem cache_columns_invariant `{Ext : External} `{MC : !ModelContract} :
  (forall fuel a s u s',
     calculate fuel a s = Ret u s' ->
     cache_ok s' /\ exists tr, trace s' = trace s ++ tr /\ reads_ok tr) /\
  (forall L s L' go s',
     update_inducing_body L s = Ret (L', go) s' ->
     atoms s' = atoms s /\
     ((added_indices L' = added_indices L /\ cov s' = cov s /\
       length (X (model s')) = length (X (model s))) \/
      exists k loc,
        added_indices L' = added_indices L ++ [k] /\
        local (atoms s) k = Some loc /\
        X (model s') = X (model s) ++ [loc] /\
        size1 (cov s') = S (size1 (cov s)) /\
        rows (cov s') = map2 (fun r x => r ++ [kern1 x loc]) (rows (cov s))
                             (owned (atoms s)))).
Proof.
  split.
  - intros fuel a s u s' H. rewrite calculate_unfold in H.
    assert (Hst : exists skip s1, steady fuel skip s1 = Ret u s' /\
                    exists tr, trace s1 = trace s ++ tr /\ reads_ok tr).
    { destruct (_ && _).
      - mbind H as u0 s1 Hi. apply initiate_model_Ret in Hi. subst s1.
        exists true. eexists. split; [exact H|].
        exists [EvExact a]. split; [reflexivity|]. repeat constructor.
      - exists false. eexists. split; [exact H|].
        exists []. cbn. rewrite app_nil_r. split; [reflexivity|constructor]. }
    destruct Hst as (skip & s1 & Hst & tr1 & Htr1 & Hok1).
    apply steady_Ret in Hst. destruct Hst as (s4 & Hev & -> & _).
    pose proof (set_cov_cache_ok s1) as Hc.
    split.
    + apply (ev_cache _ _ Hev) in Hc. exact Hc.
    + destruct (ev_trace _ _ Hev) as (tr & Htr & Hok). cbn in Htr.
      exists (tr1 ++ tr). cbn. rewrite Htr, Htr1, app_assoc. split; [reflexivity|].
      apply Forall_app. split; [exact Hok1 | now apply Hok].
  - intros L s L' go s' H. apply update_inducing_body_turn in H.
    destruct H as [Hn | beta s1 k bk loc L1 go1 s1' Hn Hbeta Hk Hbk Hloc Hd].
    + split; [reflexivity|]. left. auto.
    + apply get_covloss_Ret in Hbeta. destruct Hbeta as (Hf & _).
      set (s2 := if isclose bk 1 then set_blind true s1 else s1) in *.
      assert (Hm : model s2 = model s /\ atoms s2 = atoms s /\ cov s2 = cov s).
      { subst s2. destruct (isclose bk 1); cbn; repeat split; apply Hf. }
      destruct Hm as (Hm & Ha & Hc). clearbody s2.
      destruct Hd as [c Hsp Hlt Hcat | c thr Hsp Hge Hthr Hadd Hcat | thr Hsp Hge Hthr Hadd | Hsp];
        cbn [atoms set_cov set_model cov model added_indices].
      * split; [exact Ha|]. right. exists k, loc.
        rewrite add_inducing_X, Hm. rewrite Ha, Hc in Hcat.
        destruct (cat_dim1_loc_shape _ _ _ _ Hcat) as [H1 _].
        apply cat_dim1_loc_rows in Hcat. auto.
      * split; [exact Ha|]. right. exists k, loc.
        rewrite add_1inducing_X, Hadd, Hm. rewrite Ha, Hc in Hcat.
        destruct (cat_dim1_loc_shape _ _ _ _ Hcat) as [H1 _].
        apply cat_dim1_loc_rows in Hcat. auto.
      * split; [exact Ha|]. left.
        rewrite add_1inducing_X, Hadd, Hm. auto.
      * split; [exact Ha|]. left. rewrite Hm. auto.
Qed.

Lemma cache_columns_invariant_witness :
  exists s',
    calculate (Ext := Toy.ext Toy.alone) 1 (Toy.config [Toy.Hyd; Toy.Oxy; Toy.Hyd])
              (Toy.fresh (Toy.empty_model [1%Z; 8%Z]) None) = Ret tt s' /\
    cache_ok s'.
Proof.
  eexists. split; [run; reflexivity|].
  refine (proj1 (proj1 (cache_columns_invariant (Ext := Toy.ext Toy.alone)) 1%nat
            (Toy.config [Toy.Hyd; Toy.Oxy; Toy.Hyd])
            (Toy.fresh (Toy.empty_model [1%Z; 8%Z]) None) tt _ _)).
  run; reflexivity.
Defined.

(** C9: the normalization flag is fixed by the first covariance-loss
    computation and never changes afterwards, neither in later
    covariance-loss computations nor anywhere else in a step; once the
    kernel is found normalized, [get_covloss] no longer computes or divides
    by the self-covariances. *)
Theorem normalization_detected_once `{Ext : External} `{MC : !ModelContract}
    (s : ActiveCalculator) :
  (forall beta s', get_covloss s = Ret beta s' -> exists f, normalized s' = Some f) /\
  (forall f, normalized s = Some f ->
     (forall beta s', get_covloss s = Ret beta s' -> normalized s' = Some f) /\
     (forall fuel a u s', calculate fuel a s = Ret u s' -> normalized s' = Some f)) /\
  (normalized s = Some true ->
     get_covloss s =
     (b <- lift ShapeError (matmul_T (choli (model s)) (cov s));;
      let beta := covloss_of (sumsq_dim0 b) in
      if is_distributed (atoms s) then gather beta else ret beta) s).
Proof.
  split; [|split].
  - intros beta s' H. apply get_covloss_Ret in H. destruct H as (_ & Hn & _).
    destruct (normalized s); eauto.
  - intros f Hf. split.
    + intros beta s' H. apply get_covloss_Ret in H. destruct H as (_ & Hn & _).
      now rewrite Hf in Hn.
    + intros fuel a u s' H. rewrite calculate_unfold in H.
      assert (Hst : exists skip s1, steady fuel skip s1 = Ret u s' /\ normalized s1 = Some f).
      { destruct (_ && _).
        - mbind H as u0 s1 Hi. apply initiate_model_Ret in Hi. subst s1. eauto.
        - eauto. }
      destruct Hst as (skip & s1 & Hst & Hn1).
      apply steady_Ret in Hst. destruct Hst as (s4 & Hev & -> & _).
      cbn. apply (ev_norm _ _ Hev). exact Hn1.
  - intros Hn. unfold get_covloss, bind, get. rewrite Hn.
    destruct (lift ShapeError (matmul_T (choli (model s)) (cov s)) s); reflexivity.
Qed.

Lemma normalization_detected_once_witness :
  exists beta s',
    get_covloss (Ext := Toy.ext Toy.alone) Toy.s_HOH = Ret beta s' /\
    exists f, normalized s' = Some f.
Proof.
  eexists. eexists. split; [run; reflexivity|].
  refine (proj1 (normalization_detected_once (Ext := Toy.ext Toy.alone) Toy.s_HOH) _ _ _).
  run; reflexivity.
Defined.

(** C6: the training set is only touched in rounds that added an inducing
    point; the snapshot submitted to the model carries the labels of the
    reference calculator exactly when the round was blind and the current
    prediction otherwise; an accepted fake-labelled snapshot is relabelled by
    the reference calculator before [make_munu] recomputes the weights, so
    that every configuration that enters the training set ends up with true
    labels. *)
Theorem training_growth `{Ext : External} `{MC : !ModelContract}
    (fuel : nat) (s s' : ActiveCalculator) (mn : nat * nat) :
  update fuel s = Ret mn s' ->
  exists s1,
    update_inducing fuel s = Ret (fst mn) s1 /\
    (fst mn = 0%nat -> snd mn = 0%nat /\ s' = s1) /\
    ((0 < fst mn)%nat ->
     exists new,
       (if blind s1 then new = true_snapshot s1
        else exists r, results s1 = Some r /\ new = fake_snapshot s1 r) /\
       let m1 := add_1atoms (model s1) new (ediff s1) (fdiff s1) in
       snd mn = (ndata m1 - ndata (model s1))%nat /\
       (blind s1 = true ->
        model s' = m1 /\ trace s' = trace s1 ++ [EvExact (atoms s1)]) /\
       (blind s1 = false -> snd mn = 0%nat ->
        model s' = m1 /\ trace s' = trace s1) /\
       (blind s1 = false -> (0 < snd mn)%nat ->
        model s' = promoted m1 new /\
        trace s' = trace s1 ++ [EvExact (atoms s1)]) /\
       ((0 < snd mn)%nat ->
        data (model s') = data (model s1) ++ [true_snapshot s1])).
Proof.
  unfold update. intros H.
  mbind H as m s1 Hm.
  mbind H as s2 s3 Hget. minv Hget.
  mbind H as n s2 Hn. minv H. cbn [fst snd].
  exists s1. split; [exact Hm|].
  destruct (0 <? m)%nat eqn:Em.
  - apply Nat.ltb_lt in Em. split; [lia|]. intros _.
    apply update_data_Ret in Hn. destruct Hn as (new & Hnew & Hn). cbn zeta in Hn.
    destruct Hn as (Hn & Hrest).
    exists new. destruct (blind s1) eqn:Eb; cbn [negb] in *.
    + split; [exact Hnew|]. cbn zeta. split; [exact Hn|].
      destruct Hrest as (Hmod & Htr).
      split; [auto|]. split; [discriminate|]. split; [discriminate|].
      intros Hpos. rewrite Hmod.
      destruct (add_1atoms_data (model s1) new (ediff s1) (fdiff s1)) as [E|E].
      * unfold ndata in Hn. rewrite E in Hn. lia.
      * rewrite E, Hnew. reflexivity.
    + split; [exact Hnew|]. cbn zeta. split; [exact Hn|].
      split; [discriminate|].
      destruct (0 <? n)%nat eqn:En.
      * apply Nat.ltb_lt in En. destruct Hrest as (added & Hlast & Hmod & Htr).
        destruct (add_1atoms_data (model s1) new (ediff s1) (fdiff s1)) as [E|E].
        { unfold ndata in Hn. rewrite E in Hn. lia. }
        rewrite E, rev_app_distr in Hlast. cbn in Hlast. inversion Hlast; subst added.
        destruct Hnew as (r & Hr & Hnew).
        assert (Hconf : conf new = atoms s1) by (subst new; reflexivity).
        split; [intros; lia|]. split.
        { intros _ _. rewrite Hmod, Htr, Hconf. auto. }
        intros _. rewrite Hmod. unfold promoted. rewrite make_munu_data. cbn [data set_data_field].
        rewrite E. unfold set_last_targets. rewrite rev_app_distr. cbn.
        rewrite rev_involutive, Hconf. reflexivity.
      * apply Nat.ltb_ge in En. split; [intros; tauto|]. split; intros; lia.
  - apply Nat.ltb_ge in Em. minv Hn. split; [auto|]. intros; lia.
Qed.

Lemma training_growth_witness :
  exists s1 s',
    update (Ext := Toy.ext Toy.alone) 2 Toy.s_new = Ret (1%nat, 1%nat) s' /\
    update_inducing (Ext := Toy.ext Toy.alone) 2 Toy.s_new = Ret 1%nat s1 /\
    data (model s') = data (model s1) ++ [true_snapshot (Ext := Toy.ext Toy.alone) s1].
Proof.
  destruct update_s_new as (s' & Hrun).
  destruct (training_growth (Ext := Toy.ext Toy.alone) 2 Toy.s_new s' (1%nat, 1%nat) Hrun)
    as (s1 & H1 & _ & H3).
  destruct (H3 ltac:(cbn; lia)) as (new & _ & _ & _ & _ & _ & Hdata).
  exists s1, s'. split; [exact Hrun|]. split; [exact H1|].
  apply Hdata. cbn. lia.
Defined.

(** C1 (failing input): on seven atoms of two species, of which the model's
    kernel knows only one, [update_inducing] does not terminate: whatever
    the fuel, the loop is still running when it is exhausted. *)
Theorem update_inducing_spins_on_unknown_species :
  forall fuel, update_inducing (Ext := Toy.ext Toy.alone) fuel Toy.s7 = Timeout.
Proof.
  intros fuel. unfold update_inducing, bind, modify.
  change (set_blind false Toy.s7) with Toy.s7.
  change (mkLocals 0 0 []) with Toy.L0.
  destruct fuel as [|fuel]; [reflexivity|].
  rewrite update_inducing_loop_unfold, first_turn_s7.
  rewrite (unknown_candidate_spins Toy.L0 3 Toy.Oxy); [reflexivity| | |].
  - discriminate.
  - apply candidate_s7.
  - reflexivity.
Qed.

(** C4 (as stated): it fails for a candidate of unknown species.  On
    [Toy.s7] the oxygen atom 3 is the candidate, with score 1, which does
    not exceed the threshold 1; an energy-sensitivity add with the floor
    threshold would be refused, yet the turn leaves the model alone and the
    loop goes on. *)
Lemma energy_path_fails_for_unknown_species :
  (exists beta s1 s',
     get_covloss (Ext := Toy.ext Toy.alone) Toy.s7 = Ret beta s1 /\
     pick (argsort_desc beta) (added_indices Toy.L0) = Some 3%nat /\
     nth_error beta 3 = Some 1 /\
     local (atoms Toy.s7) 3 = Some Toy.Oxy /\
     ~ covdiff Toy.s7 < 1 /\
     snd (add_1inducing (External := Toy.ext Toy.alone) (model Toy.s7) Toy.Oxy tiny false)
       = false /\
     update_inducing_body (Ext := Toy.ext Toy.alone) Toy.L0 Toy.s7 = Ret (Toy.L0, true) s' /\
     model s' = model Toy.s7) /\
  ~ energy_path (Ext := Toy.ext Toy.alone) (fun _ _ => True) Toy.L0 Toy.s7.
Proof.
  split.
  - exists [0; 0; 0; 1; 1; 1; 1], (set_normalized (Some true) Toy.s7),
           (set_blind true (set_normalized (Some true) Toy.s7)).
    split; [apply get_covloss_s7|]. split; [apply pick_7|].
    split; [reflexivity|]. split; [reflexivity|].
    split; [cbn; lra|]. split; [reflexivity|].
    split; [apply first_turn_s7 | reflexivity].
  - intros H.
    destruct (H [0; 0; 0; 1; 1; 1; 1] (set_normalized (Some true) Toy.s7) 3%nat 1 Toy.Oxy
                Toy.L0 true (set_blind true (set_normalized (Some true) Toy.s7)))
      as (_ & Hgo & _).
    + apply first_turn_s7.
    + discriminate.
    + apply get_covloss_s7.
    + apply pick_7.
    + reflexivity.
    + reflexivity.
    + exact I.
    + cbn. lra.
    + discriminate Hgo.
Qed.

(** C4 (amended): for a candidate whose species is known to the kernel and
    whose score does not exceed the covariance-loss threshold, the turn
    submits it to [add_1inducing] with the threshold [tiny] when the
    inducing set has at most one member and [ediff] otherwise; the turn goes
    on exactly when the add is accepted, and a refusal ends the loop at once
    with the candidates added so far. *)
Theorem energy_path_known_species `{Ext : External} (L : Locals) (s : ActiveCalculator) :
  energy_path known_species L s.
Proof.
  intros beta s1 k bk loc L' go s' Hbody Hn Hbeta Hk Hbk Hloc Hsp Hge thr r.
  assert (Hturn := Hbody). apply update_inducing_body_turn in Hturn.
  destruct Hturn as [Hn' | beta' s1' k' bk' loc' L1 go1 s1'' _ Hbeta' Hk' Hbk' Hloc' Hd];
    [contradiction|].
  rewrite Hbeta in Hbeta'. inversion Hbeta'; subst beta' s1'.
  rewrite Hk in Hk'. inversion Hk'; subst k'.
  rewrite Hbk in Hbk'. inversion Hbk'; subst bk'.
  rewrite Hloc in Hloc'. inversion Hloc'; subst loc'.
  apply get_covloss_Ret in Hbeta. destruct Hbeta as (Hf & _).
  set (s2 := if isclose bk 1 then set_blind true s1 else s1) in *.
  assert (Hm : model s2 = model s /\ covdiff s2 = covdiff s /\ ediff s2 = ediff s).
  { subst s2. destruct (isclose bk 1); cbn; repeat split; apply Hf. }
  destruct Hm as (Hm & Hc & He). clearbody s2.
  destruct Hd as [c Hsp' Hlt Hcat | c thr' Hsp' Hge' Hthr Hadd Hcat
                 | thr' Hsp' Hge' Hthr Hadd | Hsp'].
  - exfalso. apply Hge. now rewrite <- Hc.
  - rewrite Hm, He in Hthr. subst thr'. rewrite Hm in Hadd. cbn [model set_cov set_model].
    rewrite Hm. fold thr. fold r. fold thr in Hadd. fold r in Hadd.
    split; [reflexivity|]. split; [symmetry; exact Hadd|].
    intros Hr. rewrite Hadd in Hr. discriminate.
  - rewrite Hm, He in Hthr. subst thr'. rewrite Hm in Hadd. cbn [model set_model].
    rewrite Hm. fold thr. fold r. fold thr in Hadd. fold r in Hadd.
    split; [reflexivity|]. split; [symmetry; exact Hadd|].
    intros _. split; [reflexivity|].
    intros fuel. rewrite update_inducing_loop_unfold, Hbody.
    unfold r, thr. rewrite Hm. reflexivity.
  - unfold known_species in Hsp. rewrite Hm in Hsp'. congruence.
Qed.

Lemma energy_path_known_species_witness :
  update_inducing_loop (Ext := Toy.ext Toy.alone) 1 Toy.L0 Toy.s_H =
  Ret Toy.L0 (set_normalized (Some true) Toy.s_H).
Proof.
  refine (proj2 (proj2 (proj2
    (energy_path_known_species (Ext := Toy.ext Toy.alone) Toy.L0 Toy.s_H
       [0] (set_normalized (Some true) Toy.s_H) 0%nat 0 Toy.Hyd Toy.L0 false
       (set_normalized (Some true) Toy.s_H) _ _ _ _ _ _ _ _)) _) 0%nat).
  - apply first_turn_s_H.
  - discriminate.
  - apply get_covloss_s_H.
  - reflexivity.
  - reflexivity.
  - reflexivity.
  - reflexivity.
  - cbn. lra.
  - reflexivity.
Defined.

(** C5: the first step of a calculator whose model has no training data
    bootstraps the model: the inducing set is seeded with one environment
    per species present, the training set is exactly the first
    configuration with reference labels, every remaining atom goes through
    the energy-sensitivity add, and the selection round is skipped (the
    model at the end of the step is the seeded one, the normalization and
    blind flags are untouched); later steps never bootstrap again and never
    empty the training set. *)
Theorem bootstrap_once `{Ext : External} `{MC : !ModelContract}
    (fuel : nat) (a : TorchAtoms) (s s' : ActiveCalculator) (u : unit) :
  step s = 0%nat -> ndata (model s) = 0%nat ->
  calculate fuel a s = Ret u s' ->
  let seeds := select (locs a) (first_of_each_atom_type a) in
  let rest := select (locs a)
                (filter (fun j => negb (mem j (first_of_each_atom_type a)))
                        (seq 0 (natoms a))) in
  (NoDup (map number seeds) /\ forall z, In z (map number seeds) <-> In z (numbers a)) /\
  model s' =
    fold_left (fun m loc => fst (add_1inducing m loc (ediff s) true)) rest
      (set_data (model s) [mkSnap a (fst (exact_calc a)) (snd (exact_calc a))] seeds) /\
  data (model s') = [mkSnap a (fst (exact_calc a)) (snd (exact_calc a))] /\
  ndata (model s') = 1%nat /\
  (exists more, X (model s') = seeds ++ more /\ incl more rest) /\
  normalized s' = normalized s /\ blind s' = blind s /\
  step s' = 1%nat /\
  (forall fuel2 a2 t t' u2,
     step t <> 0%nat ->
     calculate fuel2 a2 t = Ret u2 t' ->
     steady fuel2 false (set_atoms a2 t) = Ret u2 t' /\
     (ndata (model t) <= ndata (model t'))%nat /\
     step t' <> 0%nat).
Proof.
  intros Hstep Hnd Hrun seeds rest.
  split; [apply representatives_one_per_species|].
  rewrite calculate_unfold, Hstep, Hnd in Hrun. cbn [Nat.eqb andb] in Hrun.
  mbind Hrun as u0 s1 Hi. apply initiate_model_Ret in Hi. subst s1.
  apply steady_Ret in Hrun. destruct Hrun as (s4 & Hev & -> & Hk).
  specialize (Hk eq_refl).
  destruct Hk as (Hm & Ha & Hc & Hn & Hb & Hs & _).
  cbn in Hm, Hn, Hb, Hs. cbn [model set_step normalized blind step].
  rewrite Hm, Hn, Hb, Hs.
  split; [reflexivity|].
  split; [apply seeded_data|].
  split; [unfold ndata; now rewrite seeded_data|].
  split; [apply seeded_X|].
  split; [reflexivity|]. split; [reflexivity|].
  split; [now rewrite Hstep|].
  intros fuel2 a2 t t' u2 Ht Hrun2.
  rewrite calculate_unfold in Hrun2.
  apply Nat.eqb_neq in Ht. rewrite Ht in Hrun2. cbn [andb] in Hrun2.
  split; [exact Hrun2|].
  apply steady_Ret in Hrun2. destruct Hrun2 as (t4 & Hev2 & -> & _).
  split; [apply (ev_ndata _ _ Hev2)|]. cbn. discriminate.
Qed.

Lemma bootstrap_once_witness :
  exists s',
    calculate (Ext := Toy.ext Toy.alone) 1 Toy.config7
              (Toy.fresh (Toy.empty_model [1%Z; 8%Z]) None) = Ret tt s' /\
    ndata (model s') = 1%nat /\ step s' = 1%nat.
Proof.
  eexists. split; [run; reflexivity|].
  destruct (bootstrap_once (Ext := Toy.ext Toy.alone) 1 Toy.config7
              (Toy.fresh (Toy.empty_model [1%Z; 8%Z]) None) _ tt
              eq_refl eq_refl ltac:(run; reflexivity))
    as (_ & _ & _ & Hn & _ & _ & _ & Hs & _).
  split; [exact Hn | exact Hs].
Defined.

(** C7 (as stated): it fails when the accumulator carries the history of
    another configuration.  After three visits of configuration A the
    accumulator is (6, -9/2); the bias energy of configuration B is then
    -5/2 at the first visit and -1/2 at the second. *)
Lemma bias_magnitude_can_decrease :
  (exists e1 s1 e2 s2,
     revisit (Ext := Toy.ext Toy.alone) 0 Toy.s_B = Ret e1 s1 /\
     revisit (Ext := Toy.ext Toy.alone) 1 Toy.s_B = Ret e2 s2 /\
     e1 = - (5 / 2) /\ e2 = - (1 / 2) /\ Rabs e2 < Rabs e1) /\
  ~ bias_magnitude_monotone (Ext := Toy.ext Toy.alone) Toy.s_B.
Proof.
  assert (H1 : exists e1 s1 e2 s2,
             revisit (Ext := Toy.ext Toy.alone) 0 Toy.s_B = Ret e1 s1 /\
             revisit (Ext := Toy.ext Toy.alone) 1 Toy.s_B = Ret e2 s2 /\
             e1 = - (5 / 2) /\ e2 = - (1 / 2)).
  { do 4 eexists. split; [run; reflexivity|]. split; [run; reflexivity|]. split; lra. }
  destruct H1 as (e1 & s1 & e2 & s2 & R1 & R2 & E1 & E2).
  assert (Hlt : Rabs e2 < Rabs e1).
  { rewrite E1, E2, !Rabs_Ropp, !Rabs_pos_eq by lra. lra. }
  split.
  - exists e1, s1, e2, s2. auto.
  - intros H. specialize (H _ _ _ _ _ R1 R2). lra.
Qed.

(** The accumulator of [Toy.s_B] is the one three visits of configuration A
    leave behind. *)
Lemma three_visits_of_A :
  exists e s3,
    revisit (Ext := Toy.ext Toy.alone) 2 Toy.s_A = Ret e s3 /\
    exists p q, bias_pot s3 = Some [p; q] /\ p = 6 /\ q = - (9 / 2).
Proof.
  do 2 eexists. split; [run; reflexivity|].
  do 2 eexists. split; [reflexivity|]. split; lra.
Qed.

(** C7 (amended): each bias step pads the accumulator with zeros to the
    size of the cache columns and adds the scaled mean response to it, never
    resetting it; on repeated visits of one configuration with an unchanged
    model the bias energy is [a + n c] at the n-th visit, [a] being the
    energy of the accumulated history and [c] the increment of one visit, so
    its magnitude does not decrease whenever [a] and [c] do not have
    opposite signs, in particular from an empty accumulator. *)
Theorem bias_accumulates `{Ext : External} (s : ActiveCalculator) (b : R) :
  is_distributed (atoms s) = false -> single_worker ->
  bias s = Some b -> results s <> None -> bias_ready s ->
  let u := mean_response (Mi (model s)) (cov s) in
  let a := cache_energy (cov s) (padded_bias s) in
  let c := b * cache_energy (cov s) u in
  (exists e s',
     add_bias s = Ret e s' /\
     bias_pot s' = Some (vadd (padded_bias s) (vscale b u)) /\
     length (vadd (padded_bias s) (vscale b u)) = size1 (cov s)) /\
  (forall n, exists e sn, revisit n s = Ret e sn /\ e = a + INR (S n) * c) /\
  (bias_pot s = None -> a = 0) /\
  (0 <= a * c -> bias_magnitude_monotone s).
Proof.
  intros Ed Hw Hbias Hres Hready u a c.
  split; [|split; [|split]].
  - destruct (add_bias_run s b Ed Hw Hbias Hres Hready) as (e & s' & Hrun & _ & Hbp & Hlen & _).
    exists e, s'. auto.
  - intros n. apply revisit_energy; auto.
  - intros Hnone. subst a. unfold padded_bias. rewrite Hnone.
    replace (length (zeros (size1 (cov s)))) with (size1 (cov s))
      by (unfold zeros; now rewrite repeat_length).
    rewrite Nat.sub_diag. cbn [zeros repeat].
    rewrite app_nil_r. apply cache_energy_zeros.
  - intros Hac n e1 s1 e2 s2 R1 R2.
    destruct (revisit_energy b n s Ed Hw Hbias Hres Hready) as (e1' & s1' & R1' & E1).
    destruct (revisit_energy b (S n) s Ed Hw Hbias Hres Hready) as (e2' & s2' & R2' & E2).
    assert (H1 : e1 = e1') by congruence. assert (H2 : e2 = e2') by congruence.
    rewrite H1, H2, E1, E2. unfold a, c, u in Hac.
    set (A := cache_energy (cov s) (padded_bias s)) in *.
    set (C := b * cache_energy (cov s) (mean_response (Mi (model s)) (cov s))) in *.
    rewrite (S_INR (S n)).
    assert (Hk : 0 <= INR (S n)) by apply pos_INR.
    apply Rsqr_le_abs_0. unfold Rsqr.
    assert (0 <= INR (S n) * (C * C)) by (apply Rmult_le_pos; [exact Hk | nra]).
    nra.
Qed.

Lemma bias_accumulates_witness :
  bias_magnitude_monotone (Ext := Toy.ext Toy.alone) Toy.s_A.
Proof.
  refine (proj2 (proj2 (proj2 (bias_accumulates (Ext := Toy.ext Toy.alone) Toy.s_A 1
            _ _ _ _ _))) _).
  - reflexivity.
  - exists (fun v => zeros (length v)). split; reflexivity.
  - reflexivity.
  - discriminate.
  - unfold bias_ready. cbn. repeat split; try lia; discriminate.
  - run. lra.
Defined.

(** ** Further properties of the code *)

(** *** [pad_1d] and [pad_2d] *)

Lemma nth_app_zeros (a : vec) n i :
  nth i (a ++ zeros n) 0 = nth i a 0.
Proof.
  destruct (Nat.lt_ge_cases i (length a)) as [H|H].
  - now rewrite app_nth1.
  - rewrite app_nth2 by exact H. rewrite nth_zeros. symmetry. now apply nth_overflow.
Qed.

(** X1: [pad_1d(a, b)] succeeds exactly when [a] is not longer than [b]; the
    result has the length of [b], agrees with [a] on the entries of [a] and
    is zero after them; padding in two stages is padding at once. *)
Theorem pad_1d_spec (a b : vec) :
  (pad_1d a b = None <-> (length b < length a)%nat) /\
  (forall c, pad_1d a b = Some c ->
     length c = length b /\
     (forall i, (i < length a)%nat -> nth i c 0 = nth i a 0) /\
     (forall i, (length a <= i)%nat -> nth i c 0 = 0) /\
     (forall b', (length b <= length b')%nat -> pad_1d c b' = pad_1d a b')).
Proof.
  unfold pad_1d. destruct (length a <=? length b) eqn:E.
  - apply Nat.leb_le in E. split; [split; [discriminate | lia]|].
    intros c Hc. inversion Hc; subst c; clear Hc.
    assert (Hl : length (a ++ zeros (length b - length a)) = length b).
    { unfold zeros. rewrite length_app, repeat_length. lia. }
    split; [exact Hl|]. split; [|split].
    + intros i Hi. now rewrite app_nth1.
    + intros i Hi. rewrite nth_app_zeros. now apply nth_overflow.
    + intros b' Hb'. rewrite Hl.
      assert (E1 : (length b <=? length b') = true) by now apply Nat.leb_le.
      assert (E2 : (length a <=? length b') = true) by (apply Nat.leb_le; lia).
      rewrite E1, E2. f_equal. rewrite <- app_assoc. f_equal.
      unfold zeros. rewrite <- repeat_app. f_equal. lia.
  - apply Nat.leb_gt in E. split; [split; [intros _; exact E | reflexivity]|].
    intros c Hc. discriminate.
Qed.

Lemma pad_1d_spec_witness :
  exists c, pad_1d [1; 2] [0; 0; 0] = Some c /\ length c = 3%nat /\ nth 2 c 0 = 0.
Proof.
  eexists. split; [reflexivity|].
  destruct (proj2 (pad_1d_spec [1; 2] [0; 0; 0]) _ eq_refl) as (Hl & _ & Hz & _).
  split; [exact Hl|]. apply Hz. cbn. lia.
Defined.

Lemma nth_nil_R j : nth j (@nil R) 0 = 0.
Proof. destruct j; reflexivity. Qed.

(** X2: [pad_2d(a, b)] succeeds exactly when [a] fits into the shape of
    [b]; the result has the shape of [b], keeps [a] in its upper left corner
    and is zero elsewhere. *)
Theorem pad_2d_spec (a b : Tensor2) :
  wf_tensor a ->
  (pad_2d a b = None <-> (size0 b < size0 a)%nat \/ (size1 b < size1 a)%nat) /\
  (forall c, pad_2d a b = Some c ->
     size0 c = size0 b /\ size1 c = size1 b /\ wf_tensor c /\
     forall i j, entry c i j =
                 if (i <? size0 a) && (j <? size1 a) then entry a i j else 0).
Proof.
  intros Hwf. unfold pad_2d.
  destruct (size0 a <=? size0 b) eqn:E0; [destruct (size1 a <=? size1 b) eqn:E1|]; cbn [andb].
  - apply Nat.leb_le in E0, E1. split; [split; [discriminate | lia]|].
    intros c Hc. inversion Hc; subst c; clear Hc.
    unfold size0, wf_tensor, entry in *. cbn [rows size1].
    split; [|split; [reflexivity|split]].
    + rewrite length_map, length_app, repeat_length. lia.
    + apply Forall_map, Forall_app. split.
      * eapply Forall_impl; [|exact Hwf]. intros r Hr. cbn beta in Hr.
        unfold zeros. rewrite length_app, repeat_length. lia.
      * apply Forall_forall. intros r Hr. apply repeat_spec in Hr. subst r.
        unfold zeros. rewrite length_app, !repeat_length. lia.
    + intros i j.
      destruct (Nat.ltb_spec i (length (rows a))) as [Hi|Hi]; cbn [andb].
      * rewrite (nth_indep _ [] (([] : vec) ++ zeros (size1 b - size1 a)))
          by (rewrite length_map, length_app; lia).
        rewrite (map_nth (fun r => r ++ zeros (size1 b - size1 a))).
        rewrite nth_app_zeros. rewrite app_nth1 by exact Hi.
        destruct (Nat.ltb_spec j (size1 a)) as [Hj|Hj]; [reflexivity|].
        apply nth_overflow.
        eapply Forall_forall in Hwf; [rewrite Hwf; exact Hj|]. now apply nth_In.
      * rewrite map_app, app_nth2 by (rewrite length_map; exact Hi).
        match goal with
        | |- nth j (nth ?k ?rest []) 0 = 0 =>
            destruct (nth_in_or_default k rest []) as [Hin|Hd]
        end.
        -- apply in_map_iff in Hin. destruct Hin as (r & Hr & Hin).
           apply repeat_spec in Hin. subst r. rewrite <- Hr.
           rewrite nth_app_zeros. apply nth_zeros.
        -- rewrite Hd. apply nth_nil_R.
  - apply Nat.leb_le in E0. apply Nat.leb_gt in E1.
    split; [split; [intros _; now right | reflexivity]|]. discriminate.
  - apply Nat.leb_gt in E0.
    split; [split; [intros _; now left | reflexivity]|]. discriminate.
Qed.

Lemma pad_2d_spec_witness :
  exists c,
    pad_2d (mkT2 2 [[1; 2]]) (mkT2 3 [[0; 0; 0]; [0; 0; 0]]) = Some c /\
    size0 c = 2%nat /\ size1 c = 3%nat.
Proof.
  eexists. split; [reflexivity|].
  destruct (proj2 (pad_2d_spec (mkT2 2 [[1; 2]]) (mkT2 3 [[0; 0; 0]; [0; 0; 0]])
                     ltac:(repeat constructor)) _ eq_refl) as (H0 & H1 & _).
  split; [exact H0 | exact H1].
Defined.

(** *** [gather] *)

Lemma set_nth_total {A} (a : A) l : forall i, (i < length l)%nat ->
  exists l', set_nth i a l = Some l'.
Proof.
  induction l as [|x l IH]; intros [|i] H; cbn in *; try lia; eauto.
  destruct (IH i ltac:(lia)) as (l' & ->). cbn. eauto.
Qed.

Lemma set_nth_None {A} (a : A) l : forall i, (length l <= i)%nat -> set_nth i a l = None.
Proof.
  induction l as [|x l IH]; intros [|i] H; cbn in *; try lia; auto.
  rewrite IH by lia. reflexivity.
Qed.

Lemma scatter_total idx : forall x acc,
  Forall (fun i => (i < length acc)%nat) idx -> exists res, scatter idx x acc = Some res.
Proof.
  induction idx as [|i idx IH]; intros x acc H; cbn; eauto.
  destruct x as [|v x]; eauto.
  inversion H; subst.
  destruct (set_nth_total v acc i H2) as (acc' & E). rewrite E.
  apply IH. destruct (set_nth_spec 0 _ _ _ _ E) as [Hl _].
  eapply Forall_impl; [|exact H3]. cbn. intros; lia.
Qed.

Lemma scatter_out_of_range idx : forall x acc,
  length idx = length x ->
  Exists (fun i => (length acc <= i)%nat) idx -> scatter idx x acc = None.
Proof.
  induction idx as [|i idx IH]; intros x acc Hl H; [inversion H|].
  destruct x as [|v x]; [discriminate|]. cbn in Hl. cbn.
  destruct (set_nth i v acc) as [acc'|] eqn:E; [|reflexivity].
  destruct (set_nth_spec 0 _ _ _ _ E) as [Hlen _].
  inversion H; subst.
  - rewrite set_nth_None in E by assumption. discriminate.
  - apply IH; [lia|]. now rewrite Hlen.
Qed.

Lemma scatter_values idx : forall x acc res,
  NoDup idx -> length idx = length x ->
  scatter idx x acc = Some res ->
  forall k, (k < length x)%nat -> nth (nth k idx 0%nat) res 0 = nth k x 0.
Proof.
  induction idx as [|i idx IH]; intros x acc res Hnd Hl H k Hk.
  - destruct x; cbn in *; [lia|discriminate].
  - destruct x as [|v x]; [discriminate|]. cbn in H, Hl.
    destruct (set_nth i v acc) as [acc'|] eqn:E; [|discriminate].
    inversion Hnd; subst.
    destruct k as [|k]; cbn [nth].
    + destruct (scatter_spec (fun _ => True) _ _ _ _ H) as [_ Hj].
      { apply Forall_forall. auto. }
      destruct (Hj i) as [Hs|[Hin _]]; [|contradiction].
      rewrite Hs. destruct (set_nth_spec 0 _ _ _ _ E) as [_ Hn].
      now rewrite Hn, Nat.eqb_refl.
    + eapply IH; eauto. cbn in Hk. lia.
Qed.

Lemma vadd_zeros_nth v i : nth i (vadd v (zeros (length v))) 0 = nth i v 0.
Proof.
  assert (Hz : length v = length (zeros (length v))).
  { unfold zeros. now rewrite repeat_length. }
  destruct (Nat.lt_ge_cases i (length v)) as [H|H].
  - rewrite vadd_nth by (rewrite <- ?Hz; exact H). rewrite nth_zeros. lra.
  - rewrite !nth_overflow; auto. now rewrite vadd_length.
Qed.

(** X3: [gather] places the values of this worker at its indices in a
    vector of [natoms] zeros and all-reduces it.  An index out of range and
    a missing process group are errors; for a worker alone in its group, with distinct indices, the
    result holds each value at its index and zero elsewhere. *)
Theorem gather_spec `{Ext : External} (s : ActiveCalculator) (x : vec) :
  let idx := indices (atoms s) in
  let n := natoms (atoms s) in
  (length idx = length x -> Exists (fun i => (n <= i)%nat) idx ->
   gather x s = Raise IndexError) /\
  (length idx = length x -> Forall (fun i => (i < n)%nat) idx -> backend = None ->
   gather x s = Raise NotInitialized) /\
  (length idx = length x -> Forall (fun i => (i < n)%nat) idx -> NoDup idx ->
   single_worker ->
   exists v,
     gather x s = Ret v (log_event EvAllReduce s) /\
     length v = n /\
     (forall k, (k < length x)%nat -> nth (nth k idx 0%nat) v 0 = nth k x 0) /\
     (forall i, ~ In i idx -> nth i v 0 = 0)).
Proof.
  intros idx n. subst idx n. unfold gather, bind, get.
  assert (Hz : length (zeros (natoms (atoms s))) = natoms (atoms s)).
  { unfold zeros. now rewrite repeat_length. }
  split; [|split].
  - intros Hl Hex. apply Nat.eqb_eq in Hl. rewrite Hl. apply Nat.eqb_eq in Hl. cbn.
    rewrite scatter_out_of_range; [reflexivity | exact Hl | now rewrite Hz].
  - intros Hl Hall Hb. apply Nat.eqb_eq in Hl. rewrite Hl. cbn.
    destruct (scatter_total (indices (atoms s)) x (zeros (natoms (atoms s)))) as (res & E).
    { now rewrite Hz. }
    rewrite E. cbn. unfold all_reduce. rewrite Hb. reflexivity.
  - intros Hl Hall Hnd (peers & Hb & Halone).
    assert (Hl' := Hl). apply Nat.eqb_eq in Hl'. rewrite Hl'. cbn.
    destruct (scatter_total (indices (atoms s)) x (zeros (natoms (atoms s)))) as (res & E).
    { now rewrite Hz. }
    rewrite E. cbn. unfold all_reduce. rewrite Hb, Halone.
    destruct (scatter_spec (fun _ => True) _ _ _ _ E) as [Hlen Hj].
    { apply Forall_forall. auto. }
    exists (vadd res (zeros (length res))). split; [reflexivity|].
    split; [|split].
    + rewrite vadd_length; [congruence|]. unfold zeros. now rewrite repeat_length.
    + intros k Hk. rewrite vadd_zeros_nth. eapply scatter_values; eauto.
    + intros i Hi. rewrite vadd_zeros_nth. destruct (Hj i) as [Hs|[Hin _]]; [|contradiction].
      rewrite Hs. apply nth_zeros.
Qed.

Lemma gather_spec_witness :
  exists v,
    gather (Ext := Toy.ext Toy.alone) [5] Toy.s_H = Ret v (log_event EvAllReduce Toy.s_H) /\
    nth 0 v 0 = 5.
Proof.
  destruct (proj2 (proj2 (gather_spec (Ext := Toy.ext Toy.alone) Toy.s_H [5]))
              eq_refl
              ltac:(repeat constructor)
              ltac:(constructor; [intros []|constructor])
              ltac:(eexists; split; [reflexivity|intros; reflexivity]))
    as (v & Hrun & _ & Hv & _).
  exists v. split; [exact Hrun|]. exact (Hv 0%nat ltac:(cbn; lia)).
Defined.

(** *** The bookkeeping of [update_inducing] *)

Lemma n_exact_app tr1 tr2 : n_exact (tr1 ++ tr2) = (n_exact tr1 + n_exact tr2)%nat.
Proof.
  induction tr1 as [|[| |] tr1 IH]; cbn; auto.
Qed.

Lemma n_exact_all_reduce tr : Forall (fun e => e = EvAllReduce) tr -> n_exact tr = 0%nat.
Proof.
  induction 1 as [|e tr He _ IH]; [reflexivity|]. subst. exact IH.
Qed.

Section Bookkeeping.
Context `{Ext : External} `{MC : !ModelContract}.

(** What one turn of the loop does to the counters, the inducing set and
    the cache. *)
Lemma turn_bookkeeping L s L' go s' :
  turn L s L' go s' ->
  atoms s' = atoms s /\ data (model s') = data (model s) /\
  n_exact (trace s') = n_exact (trace s) /\
  ((L' = L /\ X (model s') = X (model s) /\ size1 (cov s') = size1 (cov s)) \/
   (length (added_indices L) <> natoms (atoms s) /\
    exists k loc,
      local (atoms s) k = Some loc /\
      added_indices L' = added_indices L ++ [k] /\
      (added_beta L' + added_diff L' = S (added_beta L + added_diff L))%nat /\
      X (model s') = X (model s) ++ [loc] /\
      size1 (cov s') = S (size1 (cov s)))).
Proof.
  intros [Hn | beta s1 k bk loc L1 go1 s1' Hn Hbeta Hk Hbk Hloc Hd].
  - repeat split; auto.
  - destruct (get_covloss_trace _ _ _ Hbeta) as (tr & Htr & Hall).
    apply get_covloss_Ret in Hbeta. destruct Hbeta as (Hf & _).
    set (s2 := if isclose bk 1 then set_blind true s1 else s1) in *.
    assert (Hm : model s2 = model s /\ atoms s2 = atoms s /\ cov s2 = cov s /\
                 n_exact (trace s2) = n_exact (trace s)).
    { assert (Ht : n_exact (trace s1) = n_exact (trace s)).
      { rewrite Htr, n_exact_app, (n_exact_all_reduce _ Hall). lia. }
      subst s2. destruct (isclose bk 1); cbn; repeat split; try apply Hf; exact Ht. }
    destruct Hm as (Hm & Ha & Hc & Ht). clearbody s2.
    destruct Hd as [c Hsp Hlt Hcat | c thr Hsp Hge Hthr Hadd Hcat | thr Hsp Hge Hthr Hadd | Hsp];
      cbn [atoms set_cov set_model cov model trace added_indices added_beta added_diff].
    + rewrite add_inducing_data, add_inducing_X, Hm.
      destruct (cat_dim1_loc_shape _ _ _ _ Hcat) as [H1 _]. rewrite Hc in H1.
      split; [exact Ha|]. split; [reflexivity|]. split; [exact Ht|].
      right. split; [exact Hn|]. exists k, loc.
      split; [exact Hloc|]. split; [reflexivity|]. split; [lia|]. auto.
    + rewrite add_1inducing_data, add_1inducing_X, Hadd, Hm.
      destruct (cat_dim1_loc_shape _ _ _ _ Hcat) as [H1 _]. rewrite Hc in H1.
      split; [exact Ha|]. split; [reflexivity|]. split; [exact Ht|].
      right. split; [exact Hn|]. exists k, loc.
      split; [exact Hloc|]. split; [reflexivity|]. split; [lia|]. auto.
    + rewrite add_1inducing_data, add_1inducing_X, Hadd, Hm.
      split; [exact Ha|]. split; [reflexivity|]. split; [exact Ht|]. left. rewrite Hc. auto.
    + rewrite Hm. split; [exact Ha|]. split; [reflexivity|]. split; [exact Ht|]. left. rewrite Hc. auto.
Qed.

Lemma update_inducing_loop_bookkeeping fuel : forall L s L' s',
  update_inducing_loop fuel L s = Ret L' s' ->
  (length (added_indices L) <= natoms (atoms s))%nat ->
  atoms s' = atoms s /\ data (model s') = data (model s) /\
  n_exact (trace s') = n_exact (trace s) /\
  (length (added_indices L') <= natoms (atoms s))%nat /\
  exists ks locs,
    added_indices L' = added_indices L ++ ks /\
    (added_beta L' + added_diff L' = added_beta L + added_diff L + length ks)%nat /\
    Forall2 (fun k loc => local (atoms s) k = Some loc) ks locs /\
    X (model s') = X (model s) ++ locs /\
    size1 (cov s') = (size1 (cov s) + length ks)%nat.
Proof.
  induction fuel as [|fuel IH]; intros L s L' s' H Hle; [discriminate|].
  rewrite update_inducing_loop_unfold in H.
  destruct (update_inducing_body L s) as [[L1 go] s1| |] eqn:Eb; try discriminate.
  apply update_inducing_body_turn in Eb. apply turn_bookkeeping in Eb.
  destruct Eb as (Ha & Hd & Ht & Hcase).
  assert (Hstep : (length (added_indices L1) <= natoms (atoms s))%nat /\
                  exists ks locs,
                    added_indices L1 = added_indices L ++ ks /\
                    (added_beta L1 + added_diff L1
                     = added_beta L + added_diff L + length ks)%nat /\
                    Forall2 (fun k loc => local (atoms s) k = Some loc) ks locs /\
                    X (model s1) = X (model s) ++ locs /\
                    size1 (cov s1) = (size1 (cov s) + length ks)%nat).
  { destruct Hcase as [(-> & HX & Hc) | (Hn & k & loc & Hloc & Hi & Hcnt & HX & Hc)].
    - split; [exact Hle|]. exists [], []. rewrite !app_nil_r. cbn.
      repeat split; auto; lia.
    - split; [rewrite Hi, length_app; cbn; lia|].
      exists [k], [loc]. cbn. repeat split; auto; lia. }
  destruct Hstep as (Hle1 & ks & locs & Hi & Hcnt & Hlocs & HX & Hc).
  destruct go.
  - apply IH in H; [|now rewrite Ha].
    destruct H as (Ha' & Hd' & Ht' & Hle' & ks' & locs' & Hi' & Hcnt' & Hlocs' & HX' & Hc').
    rewrite Ha in *.
    repeat split; try congruence.
    exists (ks ++ ks'), (locs ++ locs'). rewrite length_app.
    repeat split.
    + now rewrite Hi', Hi, app_assoc.
    + lia.
    + now apply Forall2_app.
    + now rewrite HX', HX, app_assoc.
    + lia.
  - inversion H; subst. repeat split; auto. exists ks, locs. auto.
Qed.

(** X4: a run of [update_inducing] that returns [m] has appended exactly
    [m] local environments of the current configuration to the inducing set
    and [m] columns to the cache, with [m] at most the number of atoms; the
    configuration and the training set are as before and the reference
    calculator has not been called. *)
Theorem update_inducing_bookkeeping (fuel : nat) (s s' : ActiveCalculator) (m : nat) :
  update_inducing fuel s = Ret m s' ->
  (m <= natoms (atoms s))%nat /\
  atoms s' = atoms s /\
  data (model s') = data (model s) /\
  n_exact (trace s') = n_exact (trace s) /\
  size1 (cov s') = (size1 (cov s) + m)%nat /\
  exists ks locs,
    length ks = m /\
    Forall2 (fun k loc => local (atoms s) k = Some loc) ks locs /\
    X (model s') = X (model s) ++ locs.
Proof.
  unfold update_inducing. intros H.
  mbind H as u s1 Hm. minv Hm.
  mbind H as L s2 Hl. minv H.
  apply update_inducing_loop_bookkeeping in Hl; [|cbn; lia].
  cbn in Hl. destruct Hl as (Ha & Hd & Ht & Hle & ks & locs & Hi & Hcnt & Hlocs & HX & Hc).
  rewrite Hi in Hle. cbn in Hcnt.
  repeat split; auto; try lia.
  exists ks, locs. auto.
Qed.

End Bookkeeping.

Lemma update_inducing_bookkeeping_witness :
  exists s',
    update_inducing (Ext := Toy.ext Toy.alone) 2 Toy.s_new = Ret 1%nat s' /\
    size1 (cov s') = (size1 (cov Toy.s_new) + 1)%nat /\
    data (model s') = data (model Toy.s_new).
Proof.
  exists Toy.s_new_added. split; [exact update_inducing_s_new|].
  destruct (update_inducing_bookkeeping (Ext := Toy.ext Toy.alone) 2 Toy.s_new
              Toy.s_new_added 1 update_inducing_s_new) as (_ & _ & Hd & _ & Hc & _).
  split; [exact Hc | exact Hd].
Defined.

(** *** Termination of the selection loop *)

Section Returns.
Context `{Ext : External} `{MC : !ModelContract} `{SS : !SpeciesStable}.

(** X5: on a configuration that is not distributed, has one cache row per
    atom and only atoms of species the kernel knows, [update_inducing] comes
    to an end within one turn of its loop more than there are atoms: it
    raises or returns, and when it returns [m], the [m] environments it
    appended to the inducing set belong to [m] different atoms. *)
Theorem update_inducing_returns (s : ActiveCalculator) (fuel : nat) :
  selectable s -> (natoms (atoms s) < fuel)%nat ->
  match update_inducing fuel s with
  | Timeout => False
  | Raise _ => True
  | Ret m s' =>
      exists ks locs,
        length ks = m /\ NoDup ks /\
        Forall2 (fun k loc => local (atoms s) k = Some loc) ks locs /\
        X (model s') = X (model s) ++ locs
  end.
Proof.
  intros Hsel Hfuel. unfold update_inducing, bind, modify.
  assert (Hsel' : selectable (set_blind false s)) by exact Hsel.
  assert (Htidy : tidy (mkLocals 0 0 []) (set_blind false s)).
  { repeat split; constructor. }
  pose proof (update_inducing_loop_terminates (natoms (atoms s)) fuel
                _ _ Hsel' Htidy) as H.
  cbn [atoms set_blind added_indices length] in H.
  specialize (H ltac:(lia) Hfuel).
  destruct (update_inducing_loop fuel _ _) as [L' s'|e|] eqn:El; auto.
  destruct H as [(Hnd & _ & Hcnt) _]. cbn [ret].
  apply update_inducing_loop_bookkeeping in El; [|cbn; lia].
  cbn in El. destruct El as (_ & _ & _ & _ & ks & locs & Hi & _ & Hlocs & HX & _).
  exists ks, locs. rewrite Hi in Hnd, Hcnt. auto.
Qed.

End Returns.

Lemma update_inducing_returns_witness :
  selectable Toy.s_new /\
  exists s', update_inducing (Ext := Toy.ext Toy.alone) 2 Toy.s_new = Ret 1%nat s' /\
             exists loc, X (model s') = X (model Toy.s_new) ++ [loc].
Proof.
  assert (Hsel : selectable Toy.s_new).
  { repeat split. repeat constructor. }
  split; [exact Hsel|].
  pose proof (update_inducing_returns (Ext := Toy.ext Toy.alone) Toy.s_new 2 Hsel
                ltac:(cbn; lia)) as H.
  rewrite update_inducing_s_new in H.
  destruct H as (ks & locs & Hlen & _ & Hlocs & HX).
  exists Toy.s_new_added. split; [exact update_inducing_s_new|].
  destruct Hlocs as [|k loc ks locs Hk Hrest]; [discriminate|].
  destruct Hrest; [|discriminate]. exists loc. exact HX.
Defined.

(** *** Calls of the reference calculator in one step *)

Section Calls.
Context `{Ext : External} `{MC : !ModelContract}.

Lemma calculate_results_calls r s e s' :
  calculate_results r s = Ret e s' ->
  model s' = model s /\ atoms s' = atoms s /\ step s' = step s /\
  n_exact (trace s') = n_exact (trace s).
Proof.
  intros H. apply calculate_results_Ret in H.
  destruct H as (Hk & _ & pre & post & Htr & _ & Hall).
  unfold keeps in Hk. repeat (split; [tauto|]).
  apply Forall_app in Hall. destruct Hall as [Hpre Hpost].
  rewrite Htr, !n_exact_app. cbn.
  rewrite (n_exact_all_reduce _ Hpre), (n_exact_all_reduce _ Hpost). lia.
Qed.

Lemma add_bias_calls s e s' :
  add_bias s = Ret e s' ->
  model s' = model s /\ atoms s' = atoms s /\ step s' = step s /\
  n_exact (trace s') = n_exact (trace s).
Proof.
  intros H. apply add_bias_Ret in H.
  destruct H as (Hk & _ & pre & post & Htr & _ & Hall).
  unfold keeps in Hk. repeat (split; [tauto|]).
  apply Forall_app in Hall. destruct Hall as [Hpre Hpost].
  rewrite Htr, !n_exact_app. cbn.
  rewrite (n_exact_all_reduce _ Hpre), (n_exact_all_reduce _ Hpost). lia.
Qed.

Lemma promoted_ndata m added : ndata (promoted m added) = ndata m.
Proof.
  unfold promoted, ndata. rewrite make_munu_data. cbn.
  apply set_last_targets_length.
Qed.

Lemma add_1atoms_ndata m sn e f :
  ndata (add_1atoms m sn e f) = ndata m \/ ndata (add_1atoms m sn e f) = S (ndata m).
Proof.
  unfold ndata. destruct (add_1atoms_data m sn e f) as [-> | ->]; [auto|].
  rewrite length_app. cbn. right. lia.
Qed.

Lemma update_data_calls try_fake s n s' :
  update_data try_fake s = Ret n s' ->
  ndata (model s') = (ndata (model s) + n)%nat /\ (n <= 1)%nat /\
  (n_exact (trace s) <= n_exact (trace s') <= S (n_exact (trace s)))%nat /\
  ((0 < n)%nat -> n_exact (trace s') = S (n_exact (trace s))).
Proof.
  intros H. apply update_data_Ret in H. destruct H as (new & _ & H). cbn zeta in H.
  destruct H as (Hn & H).
  pose proof (add_1atoms_ndata (model s) new (ediff s) (fdiff s)) as Hnd.
  destruct try_fake; [destruct (0 <? n)%nat eqn:En|].
  - destruct H as (added & _ & -> & ->). rewrite promoted_ndata, n_exact_app. cbn. lia.
  - apply Nat.ltb_ge in En. destruct H as (-> & ->). lia.
  - destruct H as (-> & ->). rewrite n_exact_app. cbn. lia.
Qed.

Lemma update_inducing_quiet fuel s m s' :
  update_inducing fuel s = Ret m s' ->
  data (model s') = data (model s) /\ n_exact (trace s') = n_exact (trace s).
Proof.
  unfold update_inducing. intros H.
  mbind H as u s1 Hm. minv Hm.
  mbind H as L s2 Hl. minv H.
  apply update_inducing_loop_bookkeeping in Hl; [|cbn; lia].
  cbn in Hl. tauto.
Qed.

Lemma update_calls fuel s mn s' :
  update fuel s = Ret mn s' ->
  atoms s' = atoms s /\ step s' = step s /\
  ndata (model s') = (ndata (model s) + snd mn)%nat /\ (snd mn <= 1)%nat /\
  (n_exact (trace s) <= n_exact (trace s') <= S (n_exact (trace s)))%nat /\
  ((0 < snd mn)%nat -> n_exact (trace s') = S (n_exact (trace s))) /\
  (fst mn = 0%nat -> snd mn = 0%nat /\ n_exact (trace s') = n_exact (trace s)).
Proof.
  unfold update. intros H.
  mbind H as m s1 Hm.
  mbind H as s2 s3 Hget. minv Hget.
  mbind H as n s2 Hn. minv H. cbn [fst snd].
  pose proof (update_inducing_evolves _ _ _ _ Hm) as Hev1.
  apply update_inducing_quiet in Hm. destruct Hm as (Hd & Ht).
  assert (Hnd : ndata (model s1) = ndata (model s)) by (unfold ndata; now rewrite Hd).
  destruct (0 <? m)%nat eqn:Em.
  - apply Nat.ltb_lt in Em.
    pose proof (update_data_evolves _ _ _ _ Hn) as Hev2.
    apply update_data_calls in Hn. destruct Hn as (Hn1 & Hn2 & Hn3 & Hn4).
    rewrite (ev_atoms _ _ Hev2), (ev_atoms _ _ Hev1), (ev_step _ _ Hev2), (ev_step _ _ Hev1).
    split; [reflexivity|]. split; [reflexivity|]. split; [lia|]. split; [lia|].
    split; [lia|]. split; [intros; lia|]. intros; split; lia.
  - minv Hn. rewrite (ev_atoms _ _ Hev1), (ev_step _ _ Hev1).
    split; [reflexivity|]. split; [reflexivity|]. split; [lia|]. split; [lia|].
    split; [lia|]. split; [intros; lia|]. intros; split; lia.
Qed.

Lemma steady_calls fuel skip s u s' :
  steady fuel skip s = Ret u s' ->
  atoms s' = atoms s /\ step s' = S (step s) /\
  (ndata (model s) <= ndata (model s') <= S (ndata (model s)))%nat /\
  (n_exact (trace s) <= n_exact (trace s') <= S (n_exact (trace s)))%nat /\
  ((ndata (model s) < ndata (model s'))%nat ->
   n_exact (trace s') = S (n_exact (trace s))) /\
  (skip = true -> model s' = model s /\ n_exact (trace s') = n_exact (trace s)).
Proof.
  unfold steady. intros H.
  mbind H as u0 s1 Hm. minv Hm.
  mbind H as e s2 Hr. apply calculate_results_calls in Hr. cbn in Hr.
  destruct Hr as (Hm2 & Ha2 & Hs2 & Ht2).
  mbind H as u1 s3 Hupd.
  mbind H as s4 s5 Hget. minv Hget.
  mbind H as u2 s5 Hb. minv H. cbn [atoms step model trace set_step].
  assert (Hbias : model s5 = model s3 /\ atoms s5 = atoms s3 /\ step s5 = step s3 /\
                  n_exact (trace s5) = n_exact (trace s3)).
  { destruct (is_some (bias s3)).
    - mbind Hb as b s6 Hb'. minv Hb. now apply add_bias_calls in Hb'.
    - minv Hb. auto. }
  destruct Hbias as (Hm5 & Ha5 & Hs5 & Ht5).
  rewrite Hm5, Ha5, Hs5, Ht5.
  destruct skip.
  - minv Hupd. rewrite Hm2, Ha2, Hs2, Ht2.
    split; [reflexivity|]. split; [reflexivity|]. split; [lia|]. split; [lia|].
    split; [lia|]. auto.
  - mbind Hupd as mn s6 Hu. apply update_calls in Hu.
    destruct Hu as (Ha6 & Hs6 & Hn6 & Hle & Ht6 & Hpos & _).
    assert (Hrest : model s3 = model s6 /\ atoms s3 = atoms s6 /\ step s3 = step s6 /\
                    n_exact (trace s3) = n_exact (trace s6)).
    { destruct (_ || _).
      - mbind Hupd as s7 s8 Hget. minv Hget.
        mbind Hupd as e2 s9 Hr2. minv Hupd. now apply calculate_results_calls in Hr2.
      - minv Hupd. auto. }
    destruct Hrest as (Hm3 & Ha3 & Hs3 & Ht3).
    rewrite Hm3, Ha3, Hs3, Ht3, Ha6, Hs6, Hn6, Ha2, Hs2. rewrite Hm2, Ht2 in *.
    split; [reflexivity|]. split; [reflexivity|]. split; [lia|]. split; [lia|].
    split; [intros; apply Hpos; lia|discriminate].
Qed.

(** X6: a step of the calculator that returns has advanced the step
    counter by one and works on the configuration it was given; it has
    called the reference calculator at most once and has added at most one
    configuration to the training set, and a step that enlarged the
    training set has called the reference calculator exactly once. *)
Theorem calculate_calls_reference_once
    (fuel : nat) (a : TorchAtoms) (s s' : ActiveCalculator) (u : unit) :
  calculate fuel a s = Ret u s' ->
  atoms s' = a /\ step s' = S (step s) /\
  (ndata (model s) <= ndata (model s') <= S (ndata (model s)))%nat /\
  (n_exact (trace s) <= n_exact (trace s') <= S (n_exact (trace s)))%nat /\
  ((ndata (model s) < ndata (model s'))%nat ->
   n_exact (trace s') = S (n_exact (trace s))).
Proof.
  intros H. rewrite calculate_unfold in H.
  destruct ((step s =? 0)%nat && (ndata (model s) =? 0)%nat) eqn:E.
  - apply andb_true_iff in E. destruct E as [_ E]. apply Nat.eqb_eq in E.
    mbind H as u0 s1 Hi. apply initiate_model_Ret in Hi. subst s1.
    apply steady_calls in H.
    destruct H as (Ha & Hs & _ & _ & _ & Hskip).
    destruct (Hskip eq_refl) as (Hm & Ht). cbn in Ha, Hs, Hm, Ht.
    rewrite Ha, Hs, Hm, Ht, E. unfold ndata at 1 2 3. rewrite seeded_data. cbn.
    rewrite n_exact_app. cbn.
    split; [reflexivity|]. split; [reflexivity|]. split; [lia|]. split; [lia|].
    intros; lia.
  - apply steady_calls in H.
    destruct H as (Ha & Hs & Hn & Ht & Hpos & _). cbn in *. auto.
Qed.

End Calls.

Lemma calculate_calls_reference_once_witness :
  exists s',
    calculate (Ext := Toy.ext Toy.alone) 1 Toy.config7
              (Toy.fresh (Toy.empty_model [1%Z; 8%Z]) None) = Ret tt s' /\
    step s' = 1%nat /\ n_exact (trace s') = 1%nat.
Proof.
  eexists. split; [run; reflexivity|].
  destruct (calculate_calls_reference_once (Ext := Toy.ext Toy.alone) 1 Toy.config7
              (Toy.fresh (Toy.empty_model [1%Z; 8%Z]) None) _ tt
              ltac:(run; reflexivity))
    as (_ & Hs & Hn & _ & Ht).
  split; [exact Hs|]. apply Ht. cbn in Hn |- *. run. lia.
Defined.

(** *** Serial runs *)

Lemma quiet_refl s : quiet s s.
Proof. exists []. rewrite app_nil_r. split; [reflexivity|]. intros []. Qed.

Lemma quiet_trans s1 s2 s3 : quiet s1 s2 -> quiet s2 s3 -> quiet s1 s3.
Proof.
  intros (tr1 & H1 & N1) (tr2 & H2 & N2). exists (tr1 ++ tr2).
  rewrite H2, H1, app_assoc. split; [reflexivity|].
  unfold no_collective in *. rewrite in_app_iff. tauto.
Qed.

Lemma quiet_same s s' : trace s' = trace s -> quiet s s'.
Proof. intros H. exists []. rewrite app_nil_r. split; [exact H|]. intros []. Qed.

Lemma quiet_one s s' e : e <> EvAllReduce -> trace s' = trace s ++ [e] -> quiet s s'.
Proof.
  intros He H. exists [e]. split; [exact H|]. intros [E|[]]. congruence.
Qed.

Section Serial.
Context `{Ext : External} `{MC : !ModelContract}.

Lemma calculate_results_quiet r s e s' :
  is_distributed (atoms s) = false ->
  calculate_results r s = Ret e s' -> quiet s s'.
Proof.
  intros Hd H. apply calculate_results_Ret in H.
  destruct H as (_ & _ & pre & post & Htr & Hnil & _).
  destruct (Hnil Hd) as [-> ->]. cbn in Htr.
  eapply quiet_one; [|exact Htr]. discriminate.
Qed.

Lemma turn_trace L s L' go s' :
  is_distributed (atoms s) = false ->
  turn L s L' go s' -> trace s' = trace s.
Proof.
  intros Hd [Hn | beta s1 k bk loc L1 go1 s1' Hn Hbeta Hk Hbk Hloc Hdec]; [reflexivity|].
  apply get_covloss_Ret in Hbeta. destruct Hbeta as (_ & _ & c & _ & Hbeta).
  rewrite Hd in Hbeta. destruct Hbeta as (_ & Ht & _).
  rewrite <- Ht.
  destruct Hdec; destruct (isclose bk 1); reflexivity.
Qed.

Lemma update_inducing_loop_trace fuel : forall L s L' s',
  is_distributed (atoms s) = false ->
  update_inducing_loop fuel L s = Ret L' s' -> trace s' = trace s.
Proof.
  induction fuel as [|fuel IH]; intros L s L' s' Hd H; [discriminate|].
  rewrite update_inducing_loop_unfold in H.
  destruct (update_inducing_body L s) as [[L1 go] s1| |] eqn:Eb; try discriminate.
  apply update_inducing_body_turn in Eb.
  pose proof (ev_atoms _ _ (turn_evolves _ _ _ _ _ Eb)) as Ha.
  apply turn_trace in Eb; [|exact Hd].
  destruct go.
  - apply IH in H; [congruence|now rewrite Ha].
  - inversion H; subst. exact Eb.
Qed.

Lemma update_quiet fuel s mn s' :
  is_distributed (atoms s) = false ->
  update fuel s = Ret mn s' -> quiet s s'.
Proof.
  unfold update. intros Hd H.
  mbind H as m s1 Hm.
  mbind H as s2 s3 Hget. minv Hget.
  mbind H as n s2 Hn. minv H.
  assert (Ht : trace s1 = trace s).
  { unfold update_inducing in Hm.
    mbind Hm as u s4 Hb. minv Hb.
    mbind Hm as L s5 Hl. minv Hm.
    apply update_inducing_loop_trace in Hl; [exact Hl | exact Hd]. }
  apply quiet_trans with s1; [now apply quiet_same|].
  destruct (0 <? m)%nat; [|minv Hn; apply quiet_refl].
  apply update_data_Ret in Hn. destruct Hn as (new & _ & Hn). cbn zeta in Hn.
  destruct Hn as (_ & Hn).
  destruct (negb (blind s1)); [destruct (0 <? n)%nat|].
  - destruct Hn as (added & _ & _ & Hn). eapply quiet_one; [|exact Hn]. discriminate.
  - destruct Hn as (_ & Hn). now apply quiet_same.
  - destruct Hn as (_ & Hn). eapply quiet_one; [|exact Hn]. discriminate.
Qed.

Lemma steady_quiet fuel skip s u s' :
  is_distributed (atoms s) = false -> bias s = None ->
  steady fuel skip s = Ret u s' -> quiet s s'.
Proof.
  unfold steady. intros Hd Hbias H.
  mbind H as u0 s1 Hm. minv Hm.
  mbind H as e s2 Hr.
  pose proof (calculate_results_evolves _ _ _ _ Hr) as Hev2.
  apply calculate_results_quiet in Hr; [|exact Hd].
  cbn [atoms bias set_cov] in Hev2.
  mbind H as u1 s3 Hupd.
  mbind H as s4 s5 Hget. minv Hget.
  mbind H as u2 s5 Hb. minv H.
  assert (Hq3 : quiet s2 s3 /\ bias s3 = bias s2).
  { destruct skip; [minv Hupd; split; [apply quiet_refl|reflexivity]|].
    mbind Hupd as mn s6 Hu.
    pose proof (update_evolves _ _ _ _ Hu) as Hev6.
    apply update_quiet in Hu; [|now rewrite (ev_atoms _ _ Hev2)].
    destruct (_ || _).
    - mbind Hupd as s7 s8 Hget. minv Hget.
      mbind Hupd as e2 s9 Hr2. minv Hupd.
      pose proof (calculate_results_evolves _ _ _ _ Hr2) as Hev9.
      apply calculate_results_quiet in Hr2;
        [|now rewrite (ev_atoms _ _ Hev6), (ev_atoms _ _ Hev2)].
      split; [eapply quiet_trans; eauto|].
      now rewrite (ev_bias _ _ Hev9), (ev_bias _ _ Hev6).
    - minv Hupd. split; [exact Hu | apply (ev_bias _ _ Hev6)]. }
  destruct Hq3 as (Hq3 & Hb3).
  rewrite Hb3, (ev_bias _ _ Hev2) in Hb. cbn [bias set_cov] in Hb. rewrite Hbias in Hb.
  cbn [is_some] in Hb. minv Hb.
  apply quiet_trans with s2; [exact Hr|].
  apply quiet_trans with s3; [exact Hq3|]. now apply quiet_same.
Qed.

(** X7: a step on a configuration that is not distributed, by a calculator
    without bias, involves no collective operation: nothing it does needs a
    process group. *)
Theorem serial_step_is_quiet
    (fuel : nat) (a : TorchAtoms) (s s' : ActiveCalculator) (u : unit) :
  is_distributed a = false -> bias s = None ->
  calculate fuel a s = Ret u s' -> quiet s s'.
Proof.
  intros Hd Hbias H. rewrite calculate_unfold in H.
  destruct ((step s =? 0)%nat && (ndata (model s) =? 0)%nat).
  - mbind H as u0 s1 Hi. apply initiate_model_Ret in Hi. subst s1.
    apply steady_quiet in H; [|exact Hd|exact Hbias].
    eapply quiet_trans; [|exact H].
    eapply quiet_one with (e := EvExact a); [discriminate|reflexivity].
  - apply steady_quiet in H; [|exact Hd|exact Hbias].
    eapply quiet_trans; [|exact H]. now apply quiet_same.
Qed.

End Serial.

Lemma serial_step_is_quiet_witness :
  exists s',
    calculate (Ext := Toy.ext None) 1 Toy.config7
              (Toy.fresh (Toy.empty_model [1%Z; 8%Z]) None) = Ret tt s' /\
    quiet (Toy.fresh (Toy.empty_model [1%Z; 8%Z]) None) s'.
Proof.
  eexists. split; [run; reflexivity|].
  refine (serial_step_is_quiet (Ext := Toy.ext None) 1 Toy.config7
            (Toy.fresh (Toy.empty_model [1%Z; 8%Z]) None) _ tt eq_refl eq_refl _).
  run; reflexivity.
Defined.

(** *** [cat] and [split] of [tensors.py] *)

Section TensorFacts.
Import Tensors.

Lemma firstn_exact {A} (l r : list A) : firstn (length l) (l ++ r) = l.
Proof. induction l as [|x l IH]; cbn; [now destruct r|now rewrite IH]. Qed.

Lemma skipn_exact {A} (l r : list A) : skipn (length l) (l ++ r) = r.
Proof. induction l as [|x l IH]; cbn; auto. Qed.

Lemma block_concat sz ls : forall o,
  Forall (fun l : list R => length l = sz) ls ->
  block sz o (concat ls) = nth o ls [].
Proof.
  unfold block. induction ls as [|l ls IH]; intros o H.
  - cbn. rewrite skipn_nil, firstn_nil. now destruct o.
  - inversion H as [|? ? Hl Hls]; subst. destruct o as [|o]; cbn [concat nth].
    + cbn [Nat.mul skipn]. apply firstn_exact.
    + replace (S o * length l)%nat with (o * length l + length l)%nat by lia.
      rewrite <- skipn_skipn, skipn_exact.
      now apply IH.
Qed.

Lemma block_length sz o (l : list R) :
  (S o * sz <= length l)%nat -> length (block sz o l) = sz.
Proof.
  intros H. unfold block. rewrite length_firstn, length_skipn. lia.
Qed.

Lemma block_shift sz o (l : list R) :
  block sz (S o) l = block sz o (skipn sz l).
Proof.
  unfold block. rewrite skipn_skipn. f_equal. f_equal. lia.
Qed.

Lemma concat_blocks sz : forall outer (l : list R),
  length l = (outer * sz)%nat ->
  concat (map (fun o => block sz o l) (seq 0 outer)) = l.
Proof.
  induction outer as [|outer IH]; intros l H.
  - destruct l; [reflexivity|discriminate].
  - cbn [seq map concat]. rewrite <- seq_shift, map_map.
    rewrite (map_ext _ (fun o => block sz o (skipn sz l))) by (intros; apply block_shift).
    rewrite IH by (rewrite length_skipn; lia).
    unfold block. cbn. apply firstn_skipn.
Qed.

Lemma firstn_skipn_middle (p m q : list R) n k :
  length p = k -> length m = n -> firstn n (skipn k (p ++ m ++ q)) = m.
Proof.
  intros <- <-. rewrite skipn_exact. apply firstn_exact.
Qed.

Lemma concat_length_uniform sz (ls : list (list R)) :
  Forall (fun l => length l = sz) ls -> length (concat ls) = (length ls * sz)%nat.
Proof.
  induction 1 as [|l ls Hl _ IH]; [reflexivity|].
  cbn. rewrite length_app, IH, Hl. reflexivity.
Qed.

Lemma list_sum_cons a l : list_sum (a :: l) = (a + list_sum l)%nat.
Proof. reflexivity. Qed.

Lemma numel_app a b : numel (a ++ b) = (numel a * numel b)%nat.
Proof.
  unfold numel. induction a as [|x a IH]; cbn [app fold_right]; [lia|].
  rewrite IH. lia.
Qed.

Lemma numel_set_dim sh dim n :
  numel (set_dim sh dim n) =
  (numel (firstn dim sh) * (n * numel (skipn (S dim) sh)))%nat.
Proof. unfold set_dim. rewrite numel_app. reflexivity. Qed.

Lemma set_dim_id sh : forall dim n, nth_error sh dim = Some n -> set_dim sh dim n = sh.
Proof.
  unfold set_dim. induction sh as [|x sh IH]; intros [|dim] n H; cbn in *; try discriminate.
  - now inversion H.
  - f_equal. now apply IH.
Qed.

Lemma set_dim_firstn sh dim n :
  (dim <= length sh)%nat -> firstn dim (set_dim sh dim n) = firstn dim sh.
Proof.
  intros H. unfold set_dim.
  rewrite firstn_app, length_firstn, Nat.min_l, Nat.sub_diag by exact H.
  cbn. rewrite app_nil_r. apply firstn_all2. rewrite length_firstn. lia.
Qed.

Lemma set_dim_skipn sh dim n :
  (dim <= length sh)%nat -> skipn (S dim) (set_dim sh dim n) = skipn (S dim) sh.
Proof.
  intros H. unfold set_dim.
  rewrite skipn_app, length_firstn, Nat.min_l by exact H.
  rewrite skipn_all2 by (rewrite length_firstn; lia).
  replace (S dim - dim)%nat with 1%nat by lia. reflexivity.
Qed.

Lemma set_dim_twice sh dim a b :
  (dim <= length sh)%nat -> set_dim (set_dim sh dim a) dim b = set_dim sh dim b.
Proof.
  intros H. unfold set_dim at 1.
  now rewrite set_dim_firstn, set_dim_skipn.
Qed.

Lemma set_dim_size sh dim n :
  (dim <= length sh)%nat -> nth_error (set_dim sh dim n) dim = Some n.
Proof.
  intros H. unfold set_dim.
  rewrite nth_error_app2 by (rewrite length_firstn; lia).
  rewrite length_firstn, Nat.min_l, Nat.sub_diag by exact H. reflexivity.
Qed.

Lemma sizes_along_Some ts dim : forall lengths,
  sizes_along ts dim = Some lengths ->
  lengths = map (fun t => size_or_0 t dim) ts /\
  Forall (fun t => size t dim = Some (size_or_0 t dim)) ts.
Proof.
  induction ts as [|t ts IH]; intros lengths H; cbn in H.
  - inversion H. auto.
  - destruct (size t dim) as [n|] eqn:E; [|discriminate].
    destruct (sizes_along ts dim) as [r|]; [|discriminate].
    inversion H; subst. destruct (IH _ eq_refl) as [-> Hall].
    assert (En : size_or_0 t dim = n) by (unfold size_or_0; now rewrite E).
    cbn [map]. rewrite En. split; [reflexivity|].
    constructor; [|exact Hall]. now rewrite En.
Qed.

Lemma filter_all {A} (f : A -> bool) l :
  Forall (fun x => f x = true) l -> filter f l = l.
Proof.
  induction 1 as [|x l Hx _ IH]; [reflexivity|]. cbn. now rewrite Hx, IH.
Qed.

Lemma pieces_all (f : nat -> nat -> Tensor) (n : Tensor -> nat) (ts : list Tensor) :
  (forall pre t post, ts = pre ++ t :: post -> f (list_sum (map n pre)) (n t) = t) ->
  pieces f 0 (map n ts) = ts.
Proof.
  intros H.
  assert (G : forall post pre, ts = pre ++ post ->
                pieces f (list_sum (map n pre)) (map n post) = post).
  { induction post as [|t post IH]; intros pre E; [reflexivity|].
    cbn. rewrite (H _ _ _ E). f_equal.
    specialize (IH (pre ++ [t])). rewrite map_app, list_sum_app in IH. cbn in IH.
    rewrite Nat.add_0_r in IH. apply IH. now rewrite <- app_assoc. }
  apply (G ts []). reflexivity.
Qed.

(** What the tensors that [torch.cat] accepts have in common. *)
Lemma agree_but_shape dim sh0 t :
  (dim < length sh0)%nat ->
  agree_but dim sh0 (tshape t) = true ->
  size t dim = Some (size_or_0 t dim) ->
  tshape t = set_dim sh0 dim (size_or_0 t dim).
Proof.
  intros Hd Ha Hs. unfold agree_but in Ha. apply andb_true_iff in Ha.
  destruct Ha as [Hl Ha]. apply Nat.eqb_eq in Hl.
  destruct (list_eq_dec _ _ _) as [E|]; [|discriminate].
  rewrite <- (set_dim_twice sh0 dim 0) by lia. rewrite E.
  rewrite set_dim_twice by lia. symmetry. now apply set_dim_id.
Qed.

Lemma torch_cat_inr ts dim c :
  Forall (fun t => legacy_empty t = false) ts ->
  torch_cat ts dim = inr c ->
  exists t0 rest,
    ts = t0 :: rest /\ (dim < length (tshape t0))%nat /\
    forallb (fun t => agree_but dim (tshape t0) (tshape t)) rest = true /\
    c = mkTensor
          (set_dim (tshape t0) dim (list_sum (map (fun t => size_or_0 t dim) ts)))
          (concat (map (fun o =>
             concat (map (fun t =>
               block (size_or_0 t dim * numel (skipn (S dim) (tshape t0))) o (tvals t)) ts))
             (seq 0 (numel (firstn dim (tshape t0)))))).
Proof.
  intros Hleg H. destruct ts as [|t0 rest]; [discriminate|].
  unfold torch_cat in H.
  rewrite filter_all in H
    by (eapply Forall_impl; [|exact Hleg]; cbn; intros a ->; reflexivity).
  destruct (dim <? length (tshape t0))%nat eqn:Ed; [|discriminate].
  apply Nat.ltb_lt in Ed.
  destruct (forallb _ rest) eqn:Ea; [|discriminate].
  inversion H; subst c. exists t0, rest. auto.
Qed.

(** What [cat] returns when it accepts the tensors: they share a shape
    [sh0] but for the size along [dim]. *)
Lemma cat_inr tensors dim c spec :
  Forall (fun t => legacy_empty t = false) tensors ->
  cat tensors dim = inr (c, spec) ->
  exists sh0,
    (dim < length sh0)%nat /\
    Forall (fun t => tshape t = set_dim sh0 dim (size_or_0 t dim)) tensors /\
    spec = map (fun t => size_or_0 t dim) tensors ++ [dim] /\
    c = mkTensor
          (set_dim sh0 dim (list_sum (map (fun t => size_or_0 t dim) tensors)))
          (concat (map (fun o =>
             concat (map (fun t =>
               block (size_or_0 t dim * numel (skipn (S dim) sh0)) o (tvals t)) tensors))
             (seq 0 (numel (firstn dim sh0))))).
Proof.
  intros Hleg H. unfold cat in H.
  destruct (sizes_along tensors dim) as [lengths|] eqn:El; [|discriminate].
  apply sizes_along_Some in El. destruct El as [-> Hsz].
  destruct (torch_cat tensors dim) as [e|c'] eqn:Ec; [discriminate|].
  inversion H; subst c' spec; clear H.
  apply torch_cat_inr in Ec; [|exact Hleg].
  destruct Ec as (t0 & rest & Ets & Ed & Ea & Ec).
  exists (tshape t0). split; [exact Ed|]. split; [|split; [reflexivity|exact Ec]].
  rewrite Forall_forall in Hsz. apply Forall_forall. intros t Ht.
  apply agree_but_shape; [exact Ed| |now apply Hsz].
  rewrite Ets in Ht. destruct Ht as [<-|Ht].
  - unfold agree_but. rewrite Nat.eqb_refl.
    now destruct (list_eq_dec _ _ _).
  - rewrite forallb_forall in Ea. now apply Ea.
Qed.

(** Tensors of a common shape glued along [dim], and taken apart again. *)
Lemma split_glued sh0 dim tensors :
  (dim < length sh0)%nat ->
  Forall wf tensors ->
  Forall (fun t => tshape t = set_dim sh0 dim (size_or_0 t dim)) tensors ->
  let c := mkTensor
          (set_dim sh0 dim (list_sum (map (fun t => size_or_0 t dim) tensors)))
          (concat (map (fun o =>
             concat (map (fun t =>
               block (size_or_0 t dim * numel (skipn (S dim) sh0)) o (tvals t)) tensors))
             (seq 0 (numel (firstn dim sh0))))) in
  split c (map (fun t => size_or_0 t dim) tensors ++ [dim]) = inr tensors /\ wf c.
Proof.
  intros Ed Hwf Hshape. cbn zeta.
  set (outer := numel (firstn dim sh0)) in *.
  set (inner := numel (skipn (S dim) sh0)) in *.
  set (N := list_sum (map (fun t => size_or_0 t dim) tensors)) in *.
  assert (Hlen : Forall (fun t => length (tvals t) = (outer * (size_or_0 t dim * inner))%nat) tensors).
  { rewrite Forall_forall in *. intros t Ht.
    rewrite (Hwf t Ht), (Hshape t Ht). apply numel_set_dim. }
  assert (Hblock : forall o, (o < outer)%nat ->
            Forall (fun t => length (block (size_or_0 t dim * inner) o (tvals t)) = (size_or_0 t dim * inner)%nat)
                   tensors).
  { intros o Ho. eapply Forall_impl; [|exact Hlen]. cbn. intros t Ht.
    apply block_length. rewrite Ht. apply Nat.mul_le_mono_r. lia. }
  assert (Hrow : forall o, (o < outer)%nat ->
            length (concat (map (fun t => block (size_or_0 t dim * inner) o (tvals t)) tensors))
            = (N * inner)%nat).
  { intros o Ho. specialize (Hblock o Ho). subst N. clear - Hblock.
    induction Hblock as [|t ts Ht _ IH]; [reflexivity|].
    cbn [map concat]. rewrite length_app, IH, Ht.
    rewrite list_sum_cons. lia. }
  assert (Hrows : Forall (fun l => length l = (N * inner)%nat)
            (map (fun o => concat (map (fun t => block (size_or_0 t dim * inner) o (tvals t)) tensors))
                 (seq 0 outer))).
  { apply Forall_forall. intros l Hl. apply in_map_iff in Hl.
    destruct Hl as (o & <- & Ho). apply in_seq in Ho. apply Hrow. lia. }
  split.
  - unfold split. rewrite rev_app_distr. cbn [rev app]. rewrite rev_involutive.
    unfold torch_split, size. cbn [tshape tvals].
    rewrite set_dim_size by lia.
    fold N. rewrite Nat.eqb_refl.
    rewrite set_dim_firstn, set_dim_skipn by lia.
    fold outer inner. f_equal.
    apply pieces_all. intros pre t post E.
    assert (Ht : In t tensors) by (rewrite E; apply in_elt).
    rewrite Forall_forall in Hshape, Hlen.
    rewrite set_dim_twice by lia.
    destruct t as [sh vals]. f_equal.
    + symmetry. apply (Hshape _ Ht).
    + rewrite <- (concat_blocks (size_or_0 (mkTensor sh vals) dim * inner) outer vals)
        by (apply (Hlen _ Ht)).
      f_equal. apply map_ext_in. intros o Ho. apply in_seq in Ho.
      rewrite block_concat by exact Hrows.
      rewrite (nth_indep _ [] (concat (map (fun t => block (size_or_0 t dim * inner) o (tvals t)) tensors)))
        by (rewrite length_map, length_seq; lia).
      rewrite (map_nth (fun o => concat (map (fun t => block (size_or_0 t dim * inner) o (tvals t)) tensors))).
      rewrite seq_nth by lia. cbn [Nat.add].
      rewrite E, map_app, concat_app. cbn [map concat].
      specialize (Hblock o ltac:(lia)). rewrite E in Hblock.
      apply Forall_app in Hblock. destruct Hblock as [Hpre Hpost].
      inversion Hpost as [|? ? Hb _]; subst.
      apply firstn_skipn_middle; [|exact Hb].
      clear - Hpre. induction Hpre as [|x l Hx _ IH]; [reflexivity|].
      cbn [map concat]. rewrite length_app, IH, Hx.
      rewrite list_sum_cons. lia.
  - unfold wf. cbn [tshape tvals]. rewrite numel_set_dim. fold outer inner N.
    rewrite (concat_length_uniform _ _ Hrows), length_map, length_seq. reflexivity.
Qed.

(** X8: [split] undoes [cat]: when [cat] accepts well-formed tensors, none
    of them of shape [(0,)], [split] applied to its two results returns the
    tensors it was given; the concatenation is well formed and its size
    along [dim] is the sum of theirs. *)
Theorem split_cat_round_trip (tensors : list Tensor) (dim : nat)
    (c : Tensor) (spec : list nat) :
  Forall wf tensors ->
  Forall (fun t => legacy_empty t = false) tensors ->
  cat tensors dim = inr (c, spec) ->
  split c spec = inr tensors /\ wf c /\
  size c dim = Some (list_sum (map (fun t => size_or_0 t dim) tensors)).
Proof.
  intros Hwf Hleg H.
  destruct (cat_inr _ _ _ _ Hleg H) as (sh0 & Ed & Hshape & -> & ->).
  destruct (split_glued sh0 dim tensors Ed Hwf Hshape) as [Hsplit Hc].
  split; [exact Hsplit|]. split; [exact Hc|].
  unfold size. cbn [tshape]. apply set_dim_size. lia.
Qed.

End TensorFacts.

Lemma split_cat_round_trip_witness :
  exists c spec,
    Tensors.cat [Tensors.mkTensor [2; 1]%nat [1; 2];
                 Tensors.mkTensor [2; 2]%nat [3; 4; 5; 6]] 1 = inr (c, spec) /\
    Tensors.tvals c = [1; 3; 4; 2; 5; 6] /\
    Tensors.split c spec = inr [Tensors.mkTensor [2; 1]%nat [1; 2];
                                Tensors.mkTensor [2; 2]%nat [3; 4; 5; 6]].
Proof.
  eexists. eexists. split; [reflexivity|]. split; [reflexivity|].
  refine (proj1 (split_cat_round_trip
            [Tensors.mkTensor [2; 1]%nat [1; 2]; Tensors.mkTensor [2; 2]%nat [3; 4; 5; 6]]
            1 _ _ _ _ eq_refl)).
  - repeat constructor.
  - repeat constructor.
Defined.

(** *** [stretch_tensor] *)

Section StretchFacts.
Import Tensors.

Lemma sort_insert_perm d l : Permutation (d :: l) (sort_insert d l).
Proof.
  induction l as [|x l IH]; cbn; [reflexivity|].
  destruct (d <=? x)%nat; [reflexivity|].
  rewrite perm_swap. now constructor.
Qed.

Lemma sorted_perm dims : Permutation dims (sorted dims).
Proof.
  induction dims as [|d dims IH]; cbn; [constructor|].
  rewrite <- sort_insert_perm. now constructor.
Qed.

Lemma sort_insert_ascending d l : ascending l -> ascending (sort_insert d l).
Proof.
  induction l as [|x l IH]; cbn; [intros _; split; [constructor|exact I]|].
  intros [Hx Hl]. destruct (d <=? x)%nat eqn:E.
  - apply Nat.leb_le in E. cbn. split; [|split; assumption].
    constructor; [exact E|]. eapply Forall_impl; [|exact Hx]. cbn. intros; lia.
  - apply Nat.leb_gt in E. cbn. split; [|now apply IH].
    apply (Permutation_Forall (sort_insert_perm d l)).
    constructor; [lia|exact Hx].
Qed.

Lemma sorted_ascending dims : ascending (sorted dims).
Proof.
  induction dims as [|d dims IH]; cbn; [exact I|]. now apply sort_insert_ascending.
Qed.

Lemma list_insert_length i x l : length (list_insert i x l) = S (length l).
Proof.
  unfold list_insert. rewrite length_app. cbn. rewrite length_firstn, length_skipn. lia.
Qed.

Lemma list_insert_numel i l : numel (list_insert i 1%nat l) = numel l.
Proof.
  unfold list_insert. rewrite <- (firstn_skipn i l) at 3.
  rewrite !numel_app.
  change (numel (1%nat :: skipn i l)) with (1 * numel (skipn i l))%nat. lia.
Qed.

Lemma list_insert_before i x l p :
  (p < i)%nat -> (p < length l)%nat -> nth p (list_insert i x l) 0%nat = nth p l 0%nat.
Proof.
  intros Hp Hl. unfold list_insert.
  rewrite app_nth1 by (rewrite length_firstn; lia).
  rewrite <- (firstn_skipn i l) at 2.
  rewrite app_nth1 by (rewrite length_firstn; lia). reflexivity.
Qed.

Lemma list_insert_at i x l :
  (i <= length l)%nat -> nth i (list_insert i x l) 0%nat = x.
Proof.
  intros Hi. unfold list_insert.
  rewrite app_nth2 by (rewrite length_firstn; lia).
  rewrite length_firstn, Nat.min_l, Nat.sub_diag by exact Hi. reflexivity.
Qed.

Lemma list_insert_after i x l p :
  (i <= p)%nat -> (i <= length l)%nat ->
  nth (S p) (list_insert i x l) 0%nat = nth p l 0%nat.
Proof.
  intros Hp Hi. unfold list_insert.
  rewrite app_nth2 by (rewrite length_firstn; lia).
  rewrite length_firstn, Nat.min_l by exact Hi.
  replace (S p - i)%nat with (S (p - i)) by lia. cbn [nth].
  rewrite nth_skipn. f_equal. lia.
Qed.

Lemma stretch_size_length dims : forall sz added,
  length (stretch_size sz added dims) = (length sz + length dims)%nat.
Proof.
  induction dims as [|d dims IH]; intros sz added; cbn; [lia|].
  rewrite IH, list_insert_length. lia.
Qed.

Lemma stretch_size_numel dims : forall sz added,
  numel (stretch_size sz added dims) = numel sz.
Proof.
  induction dims as [|d dims IH]; intros sz added; cbn [stretch_size]; [reflexivity|].
  rewrite IH. apply list_insert_numel.
Qed.

(** Later insertions happen behind an earlier position. *)
Lemma stretch_size_keeps dims : forall sz added p,
  Forall (fun d => (p < added + d)%nat) dims -> (p < length sz)%nat ->
  nth p (stretch_size sz added dims) 0%nat = nth p sz 0%nat.
Proof.
  induction dims as [|d dims IH]; intros sz added p H Hp; [reflexivity|].
  inversion H; subst. cbn [stretch_size].
  rewrite IH.
  - apply list_insert_before; assumption.
  - eapply Forall_impl; [|eassumption]. cbn. intros; lia.
  - rewrite list_insert_length. lia.
Qed.

Lemma stretch_size_ones dims : forall sz added i,
  ascending dims ->
  Forall (fun d => (added + d <= length sz)%nat) dims ->
  (i < length dims)%nat ->
  nth (added + i + nth i dims 0%nat) (stretch_size sz added dims) 0%nat = 1%nat.
Proof.
  induction dims as [|d dims IH]; intros sz added i Hasc Hin Hi; [cbn in Hi; lia|].
  destruct Hasc as [Hd Hasc]. inversion Hin; subst. cbn [stretch_size].
  destruct i as [|i]; cbn [nth].
  - rewrite Nat.add_0_r, stretch_size_keeps.
    + now apply list_insert_at.
    + eapply Forall_impl; [|exact Hd]. cbn. intros; lia.
    + rewrite list_insert_length. lia.
  - replace (added + S i + nth i dims 0)%nat with (S added + i + nth i dims 0)%nat by lia.
    apply IH; [exact Hasc| |cbn in Hi; lia].
    rewrite list_insert_length.
    eapply Forall_impl; [|eassumption]. cbn. intros; lia.
Qed.

Lemma stretch_size_axes dims : forall sz added k m,
  ascending dims ->
  Forall (fun d => (added + d <= length sz)%nat) dims ->
  (k + m < length sz)%nat -> (m <= added)%nat ->
  ((m < added)%nat -> Forall (fun d => (k < d)%nat) dims) ->
  nth (k + m + count_le k dims) (stretch_size sz added dims) 0%nat = nth (k + m) sz 0%nat.
Proof.
  unfold count_le.
  induction dims as [|d dims IH]; intros sz added k m Hasc Hin Hk Hm Hlate.
  - cbn. now rewrite Nat.add_0_r.
  - destruct Hasc as [Hd Hasc]. inversion Hin as [|? ? Hd0 Hin']; subst.
    cbn [stretch_size filter].
    assert (Hin2 : Forall (fun d0 => (S added + d0 <= length (list_insert (added + d) 1 sz))%nat)
                          dims).
    { rewrite list_insert_length. eapply Forall_impl; [|exact Hin']. cbn. intros; lia. }
    destruct (d <=? k)%nat eqn:E.
    + apply Nat.leb_le in E.
      assert (m = added).
      { destruct (Nat.eq_dec m added) as [|Hne]; [assumption|].
        specialize (Hlate ltac:(lia)). inversion Hlate; subst. lia. }
      subst m. cbn [length].
      replace (k + added + S (length (filter (fun d0 => (d0 <=? k)%nat) dims)))%nat
        with (k + S added + length (filter (fun d0 => (d0 <=? k)%nat) dims))%nat by lia.
      rewrite IH; try assumption.
      * replace (k + S added)%nat with (S (k + added)) by lia.
        apply list_insert_after; lia.
      * rewrite list_insert_length. lia.
      * lia.
      * intros; lia.
    + apply Nat.leb_gt in E.
      rewrite IH; try assumption.
      * apply list_insert_before; lia.
      * rewrite list_insert_length. lia.
      * lia.
      * intros _. eapply Forall_impl; [|exact Hd]. cbn. intros; lia.
Qed.

(** X9: [stretch_tensor(a, dims)] keeps the entries of [a] and their
    number, so that the [view] is legal, and adds one axis per element of
    [dims].  When no element of [dims] exceeds the rank of [a], the new axes
    have size 1 and sit at the sorted elements of [dims], each moved up by
    the number of axes inserted before it, and axis [k] of [a] is found
    behind as many new axes as there are elements of [dims] up to [k]. *)
Theorem stretch_tensor_axes (a : Tensor) (dims : list nat) :
  Forall (fun d => (d <= length (tshape a))%nat) dims ->
  let b := stretch_tensor a dims in
  tvals b = tvals a /\
  numel (tshape b) = numel (tshape a) /\
  length (tshape b) = (length (tshape a) + length dims)%nat /\
  (forall i, (i < length dims)%nat ->
     nth (nth i (sorted dims) 0%nat + i) (tshape b) 0%nat = 1%nat) /\
  (forall k, (k < length (tshape a))%nat ->
     nth (k + count_le k dims) (tshape b) 0%nat = nth k (tshape a) 0%nat).
Proof.
  intros Hin. cbn zeta. unfold stretch_tensor. cbn [tshape tvals].
  pose proof (sorted_perm dims) as Hperm.
  pose proof (sorted_ascending dims) as Hasc.
  assert (Hin' : Forall (fun d => (0 + d <= length (tshape a))%nat) (sorted dims)).
  { apply (Permutation_Forall Hperm). exact Hin. }
  split; [reflexivity|]. split; [apply stretch_size_numel|].
  split; [rewrite stretch_size_length, (Permutation_length Hperm); reflexivity|].
  split.
  - intros i Hi.
    rewrite <- (stretch_size_ones (sorted dims) (tshape a) 0 i Hasc Hin')
      by (rewrite <- (Permutation_length Hperm); exact Hi).
    f_equal. lia.
  - intros k Hk.
    pose proof (stretch_size_axes (sorted dims) (tshape a) 0 k 0 Hasc Hin') as H.
    rewrite !Nat.add_0_r in H.
    assert (Hc : count_le k (sorted dims) = count_le k dims).
    { unfold count_le. apply Permutation_length. symmetry.
      clear - Hperm. induction Hperm; cbn.
      - reflexivity.
      - destruct (x <=? k)%nat; [now constructor|assumption].
      - destruct (x <=? k)%nat, (y <=? k)%nat; try reflexivity. apply perm_swap.
      - etransitivity; eassumption. }
    rewrite Hc in H. apply H; [exact Hk|lia|intros; lia].
Qed.

End StretchFacts.

Lemma stretch_tensor_axes_witness :
  Tensors.tshape (Tensors.stretch_tensor (Tensors.mkTensor [2; 3]%nat [1; 2; 3; 4; 5; 6])
                    [2; 0]%nat) = [1; 2; 3; 1]%nat /\
  nth (1 + count_le 1 [2; 0]%nat)
      (Tensors.tshape (Tensors.stretch_tensor
         (Tensors.mkTensor [2; 3]%nat [1; 2; 3; 4; 5; 6]) [2; 0]%nat)) 0%nat = 3%nat.
Proof.
  split; [reflexivity|].
  exact (proj2 (proj2 (proj2 (proj2 (stretch_tensor_axes
           (Tensors.mkTensor [2; 3]%nat [1; 2; 3; 4; 5; 6]) [2; 0]%nat
           ltac:(repeat constructor)))))
         1%nat ltac:(cbn; lia)).
Defined.

(** *** The constructor of [SparseTensor] *)

Section SparseFacts.
Import Tensors.

Lemma index_spec x l :
  match index x l with
  | None => count_occ Nat.eq_dec l x = 0%nat
  | Some d => nth_error l d = Some x /\ (0 < count_occ Nat.eq_dec l x)%nat /\
              forall j, (j < d)%nat -> nth_error l j <> Some x
  end.
Proof.
  induction l as [|y l IH]; cbn; [reflexivity|].
  destruct (y =? x)%nat eqn:E.
  - apply Nat.eqb_eq in E. subst. destruct (Nat.eq_dec x x); [|contradiction].
    split; [reflexivity|]. split; [lia|]. intros; lia.
  - apply Nat.eqb_neq in E. destruct (Nat.eq_dec y x); [contradiction|].
    destruct (index x l) as [d|]; cbn; [|exact IH].
    destruct IH as (Hn & Hc & Hj). split; [exact Hn|]. split; [exact Hc|].
    intros [|j] Hlt; cbn; [congruence|]. apply Hj. lia.
Qed.

(** X10: [SparseTensor(shape)] is built exactly when [shape] has one 0,
    and then the sparse dimension is the position of that 0 and the three
    holders are empty; a shape without 0 is refused with [RuntimeError], and
    a shape with several ends in [NameError], the warning being issued
    through a module that is not imported. *)
Theorem SparseTensor_init_spec (sh : list nat) :
  match SparseTensor_init sh with
  | inl RuntimeError => count_occ Nat.eq_dec sh 0%nat = 0%nat
  | inl NameError => (1 < count_occ Nat.eq_dec sh 0%nat)%nat
  | inl _ => False
  | inr st =>
      count_occ Nat.eq_dec sh 0%nat = 1%nat /\
      nth_error sh (sdim st) = Some 0%nat /\
      (forall j, j <> sdim st -> nth_error sh j <> Some 0%nat) /\
      shape st = sh /\ store st = Listed [] [] []
  end.
Proof.
  unfold SparseTensor_init.
  pose proof (index_spec 0 sh) as H.
  destruct (index 0 sh) as [d|]; [|exact H].
  destruct H as (Hn & Hc & Hj).
  destruct (1 <? count_occ Nat.eq_dec sh 0)%nat eqn:E.
  - now apply Nat.ltb_lt in E.
  - apply Nat.ltb_ge in E. cbn.
    assert (Hone : count_occ Nat.eq_dec sh 0%nat = 1%nat) by lia.
    split; [exact Hone|]. split; [exact Hn|].
    split; [|repeat split].
    intros j Hne Hj0.
    destruct (Nat.lt_total j d) as [Hlt|[Heq|Hgt]]; [now apply (Hj j)|contradiction|].
    clear - Hn Hj0 Hgt Hone.
    revert d j Hn Hj0 Hgt Hone.
    induction sh as [|y l IH]; intros d j Hn Hj0 Hgt Hone; [now destruct d|].
    destruct j as [|j]; [lia|]. cbn in Hj0, Hone.
    destruct d as [|d]; cbn in Hn.
    + inversion Hn; subst. destruct (Nat.eq_dec 0 0); [|contradiction].
      assert (Hz : count_occ Nat.eq_dec l 0%nat = 0%nat) by lia.
      apply (proj2 (count_occ_not_In Nat.eq_dec l 0%nat) Hz).
      eapply nth_error_In; eauto.
    + destruct (Nat.eq_dec y 0) as [->|Hy].
      * assert (Hz : count_occ Nat.eq_dec l 0%nat = 0%nat) by lia.
        apply (proj2 (count_occ_not_In Nat.eq_dec l 0%nat) Hz).
        eapply nth_error_In; eauto.
      * apply (IH d j); auto. lia.
Qed.

End SparseFacts.

(** *** [parse_logfile] *)

Section LogFacts.
Import LogFile.
Context `{B : Builtins}.

Lemma after_nothing L : after L nothing = L.
Proof. destruct L. unfold after. cbn. now rewrite !app_nil_r. Qed.

(** A line adds to the lists whatever they hold. *)
Lemma parse_line_after line L :
  parse_line line L =
  match parse_line line nothing with
  | inl e => inl e
  | inr D => inr (after L D)
  end.
Proof.
  destruct L as [en te ex er].
  unfold parse_line. set (split := skipn 2 (str_split line)).
  destruct (nth_error split 0) as [s0|]; [|now rewrite after_nothing].
  destruct (int s0) as [step|]; [|reflexivity].
  destruct (float_at split 1) as [e|]; [destruct (float_at split 2) as [t|]|];
    (destruct (contains _ line); [destruct (nth_error split 3) as [v|]|]);
    try destruct (float v) as [x|];
    try reflexivity;
    (destruct (contains _ line); [destruct (floats _) as [vs|]|]);
    unfold after, nothing; cbn; rewrite ?app_nil_r; reflexivity.
Qed.

Lemma after_assoc L D E : after (after L D) E = after L (after D E).
Proof. unfold after. cbn. now rewrite !app_assoc. Qed.

Lemma parse_lines_after lines : forall L,
  parse_lines lines L =
  match parse_lines lines nothing with
  | inl e => inl e
  | inr D => inr (after L D)
  end.
Proof.
  induction lines as [|line rest IH]; intros L; cbn [parse_lines].
  - now rewrite after_nothing.
  - rewrite (parse_line_after line L).
    destruct (parse_line line nothing) as [e|D]; [reflexivity|].
    rewrite (IH (after L D)), (IH D).
    destruct (parse_lines rest nothing) as [e|E]; [reflexivity|].
    now rewrite after_assoc.
Qed.

Lemma parse_lines_app A : forall C L,
  parse_lines (A ++ C) L =
  match parse_lines A L with
  | inl e => inl e
  | inr L' => parse_lines C L'
  end.
Proof.
  induction A as [|line A IH]; intros C L; cbn [parse_lines app]; [reflexivity|].
  destruct (parse_line line L); [reflexivity|apply IH].
Qed.

(** X11: the parse of two logs one after the other is the parse of the
    first followed by the parse of the second; it fails where the first of
    them fails. *)
Theorem parse_logfile_app (A C : list String.string) :
  parse_logfile (A ++ C) =
  match parse_logfile A, parse_logfile C with
  | inl e, _ => inl e
  | inr _, inl e => inl e
  | inr (e1, x1, r1), inr (e2, x2, r2) => inr (e1 ++ e2, x1 ++ x2, r1 ++ r2)
  end.
Proof.
  unfold parse_logfile. change (mkLists [] [] [] []) with nothing.
  rewrite parse_lines_app.
  destruct (parse_lines A nothing) as [e|L]; [reflexivity|].
  rewrite parse_lines_after.
  destruct (parse_lines C nothing) as [e|D]; reflexivity.
Qed.

(** X12: a line of fewer than three words leaves the parse as it is, and
    a line whose third word is not an integer makes the parse of any log
    that reaches it fail with [ValueError]. *)
Theorem parse_logfile_line (A C : list String.string) (line : String.string) :
  ((length (str_split line) <= 2)%nat ->
   parse_logfile (A ++ line :: C) = parse_logfile (A ++ C)) /\
  (forall w r,
     nth_error (str_split line) 2 = Some w -> int w = None ->
     parse_logfile A = inr r ->
     parse_logfile (A ++ line :: C) = inl ValueError).
Proof.
  unfold parse_logfile. split.
  - intros Hshort. rewrite !parse_lines_app.
    destruct (parse_lines A _) as [e|L]; [reflexivity|].
    cbn [parse_lines]. unfold parse_line.
    rewrite skipn_all2 by exact Hshort. reflexivity.
  - intros w r Hw Hint HA. rewrite parse_lines_app.
    destruct (parse_lines A _) as [e|L]; [discriminate|].
    cbn [parse_lines]. unfold parse_line.
    assert (Hs : nth_error (skipn 2 (str_split line)) 0 = Some w).
    { rewrite nth_error_skipn. exact Hw. }
    rewrite Hs, Hint. reflexivity.
Qed.

End LogFacts.

Lemma parse_logfile_line_witness :
  LogFile.parse_logfile (B := LogFile.plain)
    [LogFile.sample_step; LogFile.sample_short] = inr ([(3%Z, 7)], [], []) /\
  LogFile.parse_logfile (B := LogFile.plain)
    [LogFile.sample_step; LogFile.sample_text] = inl LogFile.ValueError.
Proof.
  split.
  - refine (eq_trans (proj1 (parse_logfile_line (B := LogFile.plain)
               [LogFile.sample_step] [] LogFile.sample_short) _) _);
      [vm_compute; lia | reflexivity].
  - refine (proj2 (parse_logfile_line (B := LogFile.plain)
               [LogFile.sample_step] [] LogFile.sample_text) _ _ eq_refl eq_refl eq_refl).
Defined.

(** *** The choice of the candidate *)

Lemma insert_desc_descending v i l : descending v l -> descending v (insert_desc v i l).
Proof.
  induction l as [|j l IH]; cbn [insert_desc descending].
  - intros _. split; [constructor|exact I].
  - intros [Hj Hl]. destruct (Rlt_dec (nth i v 0) (nth j v 0)) as [Hlt|Hge].
    + cbn [descending]. split; [|now apply IH].
      apply (Permutation_Forall (Permutation_sym (insert_desc_perm v i l))).
      constructor; [lra|exact Hj].
    + cbn [descending]. split; [|split; assumption].
      constructor; [lra|].
      eapply Forall_impl; [|exact Hj]. cbn. intros; lra.
Qed.

Lemma argsort_desc_descending v : descending v (argsort_desc v).
Proof.
  unfold argsort_desc. induction (seq 0 (length v)) as [|i l IH]; cbn [fold_right].
  - exact I.
  - now apply insert_desc_descending.
Qed.

Lemma find_first_descending v (P : nat -> bool) l : forall k,
  descending v l -> find P l = Some k ->
  forall j, In j l -> P j = true -> nth j v 0 <= nth k v 0.
Proof.
  induction l as [|i l IH]; intros k Hd Hf j Hj HP; [contradiction|].
  destruct Hd as [Hi Hl]. cbn in Hf. destruct (P i) eqn:Ei.
  - inversion Hf; subst. destruct Hj as [<-|Hj]; [lra|].
    rewrite Forall_forall in Hi. now apply Hi.
  - destruct Hj as [<-|Hj]; [congruence|]. eapply IH; eauto.
Qed.

(** X13: as long as fewer atoms have been added than there are scores, the
    candidate of a turn is an atom that has not been added yet, and no atom
    that has not been added yet has a larger covariance loss. *)
Theorem candidate_is_most_uncertain (beta : vec) (added : list nat) (k : nat) :
  (length added < length beta)%nat ->
  pick (argsort_desc beta) added = Some k ->
  ~ In k added /\ (k < length beta)%nat /\
  forall j, (j < length beta)%nat -> ~ In j added -> nth j beta 0 <= nth k beta 0.
Proof.
  intros Hlen Hp. pose proof (pick_fresh _ _ _ Hlen Hp) as Hfresh.
  unfold pick in Hp.
  destruct (find _ _) as [k'|] eqn:Ef.
  - inversion Hp; subst k'. split; [exact Hfresh|].
    pose proof (argsort_desc_perm beta) as Hperm.
    split.
    + apply find_some in Ef. destruct Ef as [Hin _].
      apply (Permutation_in _ Hperm), in_seq in Hin. lia.
    + intros j Hj Hnew.
      eapply find_first_descending; [apply argsort_desc_descending|exact Ef| |].
      * apply (Permutation_in _ (Permutation_sym Hperm)), in_seq. lia.
      * apply negb_true_iff. destruct (mem j added) eqn:Em; [|reflexivity].
        apply mem_In in Em. contradiction.
  - exfalso. apply Hfresh.
    destruct (rev (argsort_desc beta)) as [|x r] eqn:Er; [discriminate|].
    cbn in Hp. inversion Hp; subst x.
    assert (Hin : In k (argsort_desc beta)).
    { apply in_rev. rewrite Er. now left. }
    eapply find_none in Ef; [|exact Hin].
    apply negb_false_iff in Ef. now apply mem_In.
Qed.

Lemma candidate_is_most_uncertain_witness :
  pick (argsort_desc [0; 1; / 2]) [1%nat] = Some 2%nat /\
  forall j, (j < 3)%nat -> ~ In j [1%nat] -> nth j [0; 1; / 2] 0 <= / 2.
Proof.
  assert (Hp : pick (argsort_desc [0; 1; / 2]) [1%nat] = Some 2%nat).
  { unfold argsort_desc. cbn [length seq fold_right insert_desc nth].
    destruct (Rlt_dec 1 (/ 2)) as [H|_]; [exfalso; lra|].
    cbn [insert_desc nth].
    destruct (Rlt_dec 0 1) as [_|H]; [|exfalso; lra].
    cbn [insert_desc nth].
    destruct (Rlt_dec 0 (/ 2)) as [_|H]; [|exfalso; lra].
    reflexivity. }
  split; [exact Hp|].
  exact (proj2 (proj2 (candidate_is_most_uncertain [0; 1; / 2] [1%nat] 2
                         ltac:(cbn; lia) Hp))).
Defined.

(** *** The covariance-loss heuristic *)

Section Heuristic.
Context `{Ext : External} `{MC : !ModelContract}.

Lemma turn_keeps_added_beta L s L' go s' :
  1 <= covdiff s -> is_distributed (atoms s) = false ->
  Forall (fun x => 0 < x) (self_cov (atoms s)) ->
  turn L s L' go s' -> added_beta L' = added_beta L.
Proof.
  intros Hcov Hd Hpos [Hn | beta s1 k bk loc L1 go1 s1' Hn Hbeta Hk Hbk Hloc Hdec];
    [reflexivity|].
  apply get_covloss_Ret in Hbeta. destruct Hbeta as (Hf & _ & c & Hl & Hbeta).
  rewrite Hd in Hbeta. destruct Hbeta as (-> & _).
  pose proof (covloss_of_range _ (loss_rel_nonneg _ _ Hl (fun _ => Hpos))) as Hr.
  apply nth_error_In in Hbk. rewrite Forall_forall in Hr. apply Hr in Hbk.
  assert (Hc2 : covdiff (if isclose bk 1 then set_blind true s1 else s1) = covdiff s).
  { destruct (isclose bk 1); cbn; apply Hf. }
  destruct Hdec as [c0 Hsp Hlt Hcat | c0 thr Hsp Hge Hthr Hadd Hcat
                   | thr Hsp Hge Hthr Hadd | Hsp]; try reflexivity.
  rewrite Hc2 in Hlt. unfold in01 in Hbk. lra.
Qed.

(** X14: with [covdiff] at 1 or more, as by default, no inducing point is
    added on the ground of its covariance loss alone: on a configuration
    that is not distributed and whose self-covariances are positive, the
    loop of [update_inducing] leaves the counter [added_beta] as it is, so
    that every addition went through [add_1inducing]. *)
Theorem covdiff_one_disables_heuristic (fuel : nat) : forall L s L' s',
  1 <= covdiff s -> is_distributed (atoms s) = false ->
  Forall (fun x => 0 < x) (self_cov (atoms s)) ->
  update_inducing_loop fuel L s = Ret L' s' ->
  added_beta L' = added_beta L.
Proof.
  induction fuel as [|fuel IH]; intros L s L' s' Hcov Hd Hpos H; [discriminate|].
  rewrite update_inducing_loop_unfold in H.
  destruct (update_inducing_body L s) as [[L1 go] s1| |] eqn:Eb; try discriminate.
  apply update_inducing_body_turn in Eb.
  pose proof (turn_evolves _ _ _ _ _ Eb) as Hev.
  apply (turn_keeps_added_beta _ _ _ _ _ Hcov Hd Hpos) in Eb.
  destruct go.
  - rewrite <- Eb. apply (IH L1 s1 L' s'); [| | |exact H].
    + now rewrite (ev_covdiff _ _ Hev).
    + now rewrite (ev_atoms _ _ Hev).
    + now rewrite (ev_atoms _ _ Hev).
  - inversion H; subst. exact Eb.
Qed.

End Heuristic.

Lemma covdiff_one_disables_heuristic_witness :
  exists L' s',
    update_inducing_loop (Ext := Toy.ext Toy.alone) 2 Toy.L0 Toy.s_H = Ret L' s' /\
    added_beta L' = 0%nat.
Proof.
  assert (E : update_inducing_loop (Ext := Toy.ext Toy.alone) 2 Toy.L0 Toy.s_H
              = Ret Toy.L0 (set_normalized (Some true) Toy.s_H)).
  { rewrite update_inducing_loop_unfold, first_turn_s_H. reflexivity. }
  exists Toy.L0, (set_normalized (Some true) Toy.s_H). split; [exact E|].
  refine (covdiff_one_disables_heuristic (Ext := Toy.ext Toy.alone) 2
            Toy.L0 Toy.s_H _ _ _ eq_refl _ E).
  - cbn. lra.
  - cbn. repeat constructor; lra.
Defined.

(** *** The position gradients of [SoapKernel] *)

Section SoapFacts.
Import Soap.

Lemma v3_eq (a b : V3) :
  fst (fst a) = fst (fst b) -> snd (fst a) = snd (fst b) -> snd a = snd b -> a = b.
Proof.
  destruct a as [[a1 a2] a3], b as [[b1 b2] b3]. cbn. intros -> -> ->. reflexivity.
Qed.

Lemma v3_add_zero_l a : v3_add v3_zero a = a.
Proof. apply v3_eq; cbn; lra. Qed.

Lemma v3_add_zero_r a : v3_add a v3_zero = a.
Proof. apply v3_eq; cbn; lra. Qed.

Lemma v3_add_assoc a b c : v3_add a (v3_add b c) = v3_add (v3_add a b) c.
Proof. apply v3_eq; cbn; lra. Qed.

Lemma v3_add_comm a b : v3_add a b = v3_add b a.
Proof. apply v3_eq; cbn; lra. Qed.

Lemma v3_scale_add k a b : v3_scale k (v3_add a b) = v3_add (v3_scale k a) (v3_scale k b).
Proof. apply v3_eq; cbn; lra. Qed.

Lemma v3_scale_zero k : v3_scale k v3_zero = v3_zero.
Proof. apply v3_eq; cbn; lra. Qed.

Lemma v3_add_opp a : v3_add a (v3_scale (-1) a) = v3_zero.
Proof. apply v3_eq; cbn; lra. Qed.

Lemma v3_sum_app l1 l2 : v3_sum (l1 ++ l2) = v3_add (v3_sum l1) (v3_sum l2).
Proof.
  induction l1 as [|a l1 IH]; cbn [app v3_sum fold_right].
  - now rewrite v3_add_zero_l.
  - fold (v3_sum (l1 ++ l2)) (v3_sum l1). now rewrite IH, v3_add_assoc.
Qed.

Lemma v3_sum_cons a l : v3_sum (a :: l) = v3_add a (v3_sum l).
Proof. reflexivity. Qed.

Lemma v3_sum_scale k l : v3_sum (map (v3_scale k) l) = v3_scale k (v3_sum l).
Proof.
  induction l as [|a l IH]; cbn [map]; [now rewrite v3_scale_zero|].
  now rewrite !v3_sum_cons, IH, v3_scale_add.
Qed.

Lemma v3_sum_zeros n : v3_sum (repeat v3_zero n) = v3_zero.
Proof.
  induction n as [|n IH]; [reflexivity|]. cbn [repeat].
  now rewrite v3_sum_cons, IH, v3_add_zero_l.
Qed.

Lemma rows_add_sum a : forall b,
  length a = length b ->
  length (rows_add a b) = length a /\
  v3_sum (rows_add a b) = v3_add (v3_sum a) (v3_sum b).
Proof.
  unfold rows_add. induction a as [|x a IH]; intros [|y b] H; cbn in H; try discriminate.
  - split; [reflexivity|]. cbn. now rewrite v3_add_zero_l.
  - destruct (IH b ltac:(lia)) as [Hl Hs]. cbn [map2 length]. split; [now rewrite Hl|].
    rewrite !v3_sum_cons, Hs. apply v3_eq; cbn; lra.
Qed.

Lemma fold_rows_add_sum n terms :
  Forall (fun term => length term = n /\ v3_sum term = v3_zero) terms ->
  length (fold_right rows_add (repeat v3_zero n) terms) = n /\
  v3_sum (fold_right rows_add (repeat v3_zero n) terms) = v3_zero.
Proof.
  induction 1 as [|term terms [Hl Hs] _ [IHl IHs]]; cbn [fold_right].
  - rewrite repeat_length, v3_sum_zeros. auto.
  - destruct (rows_add_sum term (fold_right rows_add (repeat v3_zero n) terms)
                ltac:(congruence)) as [Hl' Hs'].
    rewrite Hl', Hs', Hs, IHs, v3_add_zero_l. auto.
Qed.

Lemma bcast_snd {A B} (a : list A) (b : list B) pairs :
  bcast a b = Some pairs -> forall p, In p pairs -> In (snd p) b.
Proof.
  unfold bcast. intros H p Hp.
  destruct (length a =? length b)%nat.
  - inversion H; subst. destruct p. eapply in_combine_r; eauto.
  - destruct a as [|x [|x' a]].
    + destruct b as [|y [|y' b]]; inversion H; subst; try contradiction.
    + inversion H; subst. apply in_map_iff in Hp. destruct Hp as (y & <- & Hy). exact Hy.
    + destruct b as [|y [|y' b]]; try discriminate.
      injection H as <-.
      change (In p (map (fun z => (z, y)) (x :: x' :: a))) in Hp.
      apply in_map_iff in Hp. destruct Hp as (z & <- & _). now left.
Qed.

Lemma contract_sum w g t :
  wf_grad g -> Forall (fun rows => v3_sum rows = v3_zero) (g_rows g) ->
  contract w g = Some t ->
  length t = g_n g /\ v3_sum t = v3_zero.
Proof.
  intros Hwf Hbal H. unfold contract in H.
  destruct (bcast w (g_rows g)) as [pairs|] eqn:Eb; [|discriminate].
  inversion H; subst t; clear H.
  pose proof (bcast_snd _ _ _ Eb) as Hin.
  assert (Hterms : Forall (fun term => length term = g_n g /\ v3_sum term = v3_zero)
            (flat_map (fun p => map (fun k => map (v3_scale k) (snd p)) (fst p)) pairs)).
  { apply Forall_forall. intros term Hterm. apply in_flat_map in Hterm.
    destruct Hterm as (p & Hp & Hterm). apply in_map_iff in Hterm.
    destruct Hterm as (k & <- & _). specialize (Hin p Hp).
    unfold wf_grad in Hwf. rewrite Forall_forall in Hwf, Hbal.
    pose proof (Hwf _ Hin) as Hlen. pose proof (Hbal _ Hin) as Hz. cbn beta in Hlen, Hz.
    rewrite length_map, v3_sum_scale. split; [exact Hlen|].
    etransitivity; [apply f_equal; exact Hz | apply v3_scale_zero]. }
  now apply fold_rows_add_sum.
Qed.

Lemma v3_sum_update g : forall i gi v,
  nth_error g i = Some gi ->
  length (firstn i g ++ v3_add gi v :: skipn (S i) g) = length g /\
  v3_sum (firstn i g ++ v3_add gi v :: skipn (S i) g) = v3_add (v3_sum g) v.
Proof.
  induction g as [|x g IH]; intros [|i] gi v H; cbn in H; try discriminate.
  - inversion H; subst. cbn [firstn skipn app length]. split; [reflexivity|].
    rewrite !v3_sum_cons. apply v3_eq; cbn; lra.
  - destruct (IH i gi v H) as [Hl Hs]. cbn [firstn skipn app length] in *.
    split; [now rewrite Hl|]. rewrite !v3_sum_cons, Hs. apply v3_add_assoc.
Qed.

Lemma index_add_sum j : forall g t g',
  index_add g j t = Some g' ->
  length g' = length g /\ v3_sum g' = v3_add (v3_sum g) (v3_sum t).
Proof.
  induction j as [|i j IH]; intros g t g' H; destruct t as [|v t]; cbn [index_add] in H;
    try discriminate.
  - inversion H; subst. split; [reflexivity|]. cbn. now rewrite v3_add_zero_r.
  - destruct (nth_error g i) as [gi|] eqn:E; [|discriminate].
    destruct (IH _ _ _ H) as [Hl Hs].
    destruct (v3_sum_update g i gi v E) as [Hl' Hs'].
    split; [congruence|]. rewrite Hs, Hs', v3_sum_cons. symmetry. apply v3_add_assoc.
Qed.

Lemma grad_loop_sum sel locs : forall g i g',
  Forall balanced locs ->
  grad_loop sel locs g i = inr g' ->
  length g' = length g /\ v3_sum g' = v3_sum g.
Proof.
  induction locs as [|loc locs IH]; intros g i g' Hbal H; cbn in H.
  - inversion H; subst. auto.
  - inversion Hbal as [|? ? Hloc Hrest]; subst.
    destruct (empty loc) eqn:Ee; [now apply (IH g i)|].
    destruct (sel i) as [w|]; [|discriminate].
    destruct (contract w (grad loc)) as [t|] eqn:Ec; [|discriminate].
    destruct (index_add g (j loc) t) as [g1|] eqn:Ei; [|discriminate].
    destruct (Hloc Ee) as [Hwf Hzero].
    destruct (contract_sum _ _ _ Hwf Hzero Ec) as [_ Ht].
    destruct (index_add_sum _ _ _ _ Ei) as [Hl Hs].
    destruct (IH _ _ _ Hrest H) as [Hl' Hs'].
    split; [congruence|]. rewrite Hs', Hs, Ht. apply v3_add_zero_r.
Qed.

(** X15: the gradient that [precalculate] stores for an environment adds
    up to nothing over the neighbours and the centre, and therefore the
    position gradients that [leftgrad] and [rightgrad] assemble from such
    data add up to nothing over the atoms: they have one row per atom and
    the rows sum to zero. *)
Theorem soap_gradients_balance :
  (forall dim matches d grad0 loc_j loc_i,
     wf_grad grad0 -> balanced (precalculate dim matches d grad0 loc_j loc_i)) /\
  (forall natoms p c g,
     Forall balanced p -> leftgrad natoms p c = inr g ->
     length g = natoms /\ v3_sum g = v3_zero) /\
  (forall natoms q c g,
     Forall balanced q -> rightgrad natoms q c = inr g ->
     length g = natoms /\ v3_sum g = v3_zero).
Proof.
  split; [|split].
  - intros dim matches d grad0 loc_j loc_i Hwf. unfold precalculate, balanced.
    destruct matches; [|discriminate].
    destruct (0 <? length (loc_j ++ unique loc_i))%nat; [|discriminate].
    intros _. cbn [grad closed g_rows g_n wf_grad]. unfold wf_grad. cbn [g_rows g_n].
    split.
    + apply Forall_forall. intros rows Hr. apply in_map_iff in Hr.
      destruct Hr as (rows0 & <- & Hr0). unfold wf_grad in Hwf.
      rewrite Forall_forall in Hwf. pose proof (Hwf _ Hr0) as Hlen. cbn beta in Hlen.
      rewrite length_app, Hlen. cbn. lia.
    + apply Forall_forall. intros rows Hr. apply in_map_iff in Hr.
      destruct Hr as (rows0 & <- & _).
      rewrite v3_sum_app. cbn [v3_sum fold_right]. rewrite v3_add_zero_r.
      apply v3_add_opp.
  - intros natoms p c g Hbal H. unfold leftgrad in H.
    destruct (grad_loop_sum _ _ _ _ _ Hbal H) as [Hl Hs].
    rewrite repeat_length in Hl. rewrite v3_sum_zeros in Hs. auto.
  - intros natoms q c g Hbal H. unfold rightgrad in H.
    destruct (grad_loop_sum _ _ _ _ _ Hbal H) as [Hl Hs].
    rewrite repeat_length in Hl. rewrite v3_sum_zeros in Hs. auto.
Qed.

End SoapFacts.

Lemma soap_gradients_balance_witness :
  exists g,
    Soap.leftgrad 2 [Soap.precalculate 1 true [5] (Soap.mkGrad 1 [[(1, 2, 3)]])
                       [1%nat] [0%nat]]
                  (Soap.mkCoef 1 1 [[[2]]]) = inr g /\
    length g = 2%nat /\ Soap.v3_sum g = Soap.v3_zero.
Proof.
  eexists. split; [run; reflexivity|].
  refine (proj1 (proj2 soap_gradients_balance) 2%nat
            [Soap.precalculate 1 true [5] (Soap.mkGrad 1 [[(1, 2, 3)]]) [1%nat] [0%nat]]
            (Soap.mkCoef 1 1 [[[2]]]) _ _ _).
  - constructor; [|constructor].
    apply (proj1 soap_gradients_balance). unfold Soap.wf_grad. cbn. repeat constructor.
  - run. reflexivity.
Defined.

(** *** The holders of [SparseTensor] *)

Section SparseHolders.
Import Tensors.

Lemma broadcast_tensors_lengths x y li lj :
  broadcast_tensors x y = inr (Some (li, lj)) -> length li = length lj.
Proof.
  unfold broadcast_tensors. destruct x as [a|l1], y as [b|l2]; intros H; try discriminate.
  - injection H as <- <-. apply repeat_length.
  - injection H as <- <-. symmetry. apply repeat_length.
  - destruct (length l1 =? length l2)%nat eqn:E.
    + injection H as <- <-. now apply Nat.eqb_eq.
    + destruct l1 as [|a [|a' l1]].
      * destruct l2 as [|b [|b' l2]]; try discriminate.
        injection H as <- <-. reflexivity.
      * injection H as <- <-. apply repeat_length.
      * destruct l2 as [|b [|b' l2]]; try discriminate.
        injection H as <- <-. cbn. now rewrite repeat_length.
Qed.

Lemma long_tensor_wf l : wf (long_tensor l).
Proof. unfold wf, long_tensor. cbn. rewrite length_map. lia. Qed.

Lemma aligned_lists_facts d li lj la :
  aligned_lists d li lj la ->
  Forall wf li /\ Forall wf lj /\ Forall wf la /\
  Forall (fun t => legacy_empty t = false) li /\
  Forall (fun t => legacy_empty t = false) lj /\
  Forall (fun t => legacy_empty t = false) la /\
  Forall (fun t => tshape t = [size_or_0 t 0]) li /\
  Forall (fun t => tshape t = [size_or_0 t 0]) lj /\
  map (fun t => size_or_0 t 0) lj = map (fun t => size_or_0 t 0) li /\
  map (fun t => size_or_0 t d) la = map (fun t => size_or_0 t 0) li.
Proof.
  induction 1 as [|li lj la ti tj ta n _ IH Hi Hj Ha Hn Hwi Hwj Hwa].
  - repeat split; constructor.
  - destruct IH as (I1 & I2 & I3 & I4 & I5 & I6 & I7 & I8 & I9 & I10).
    assert (Li : legacy_empty ti = false).
    { unfold legacy_empty. rewrite Hi. apply Nat.eqb_neq. lia. }
    assert (Lj : legacy_empty tj = false).
    { unfold legacy_empty. rewrite Hj. apply Nat.eqb_neq. lia. }
    assert (La : legacy_empty ta = false).
    { unfold legacy_empty, size in *. destruct (tshape ta) as [|m [|m' r]]; auto.
      destruct d as [|d]; cbn in Ha.
      - inversion Ha; subst. apply Nat.eqb_neq. lia.
      - destruct d; discriminate. }
    assert (Si : size_or_0 ti 0 = n) by (unfold size_or_0, size; now rewrite Hi).
    assert (Sj : size_or_0 tj 0 = n) by (unfold size_or_0, size; now rewrite Hj).
    assert (Sa : size_or_0 ta d = n) by (unfold size_or_0; now rewrite Ha).
    repeat split; try (apply Forall_app; split; [assumption|constructor; [|constructor]]);
      try assumption; try congruence.
    + rewrite !map_app, I9. cbn. congruence.
    + rewrite !map_app, I10. cbn. congruence.
Qed.

(** Gluing a holder and taking it apart again. *)
Lemma cat_then_split ts dim c spec :
  Forall wf ts -> Forall (fun t => legacy_empty t = false) ts ->
  cat ts dim = inr (c, spec) ->
  split c spec = inr ts /\
  size c dim = Some (list_sum (map (fun t => size_or_0 t dim) ts)) /\
  (Forall (fun t => tshape t = [size_or_0 t dim]) ts -> ts <> [] ->
   tshape c = [list_sum (map (fun t => size_or_0 t dim) ts)]).
Proof.
  intros Hwf Hleg H.
  destruct (cat_inr _ _ _ _ Hleg H) as (sh0 & Ed & Hshape & -> & ->).
  destruct (split_glued sh0 dim ts Ed Hwf Hshape) as [Hsplit _].
  split; [exact Hsplit|]. split.
  - unfold size. cbn [tshape]. apply set_dim_size. lia.
  - intros H1 Hne. cbn [tshape].
    destruct ts as [|t ts]; [contradiction|].
    inversion H1 as [|? ? Ht _]; subst. inversion Hshape as [|? ? Ht' _]; subst.
    rewrite Ht in Ht'.
    assert (Hl : length sh0 = 1%nat).
    { apply (f_equal (@length nat)) in Ht'. unfold set_dim in Ht'.
      rewrite length_app, length_firstn in Ht'. cbn [length] in Ht'.
      rewrite length_skipn in Ht'. lia. }
    destruct sh0 as [|m [|m' r]]; try discriminate.
    assert (dim = 0%nat) by (cbn in Ed; lia). subst dim. reflexivity.
Qed.

Lemma add_inr x y v st st' :
  add x y v st = inr st' ->
  exists _i _j n li lj la,
    length _i = n /\ length _j = n /\ size v (sdim st) = Some n /\
    lists_of st = inr (li, lj, la) /\
    st' = mkSparse (sdim st) (shape st)
            (Listed (li ++ [long_tensor _i]) (lj ++ [long_tensor _j]) (la ++ [v]))
            (i_max st) (j_max st).
Proof.
  unfold add. intros H.
  destruct (broadcast_tensors x y) as [e|[[_i _j]|]] eqn:Eb; try discriminate.
  destruct (size v (sdim st)) as [n|] eqn:Es; [|discriminate].
  destruct (length _i =? n)%nat eqn:El; [|discriminate]. cbn [negb] in H.
  destruct (shape_check _ _); [|discriminate]. cbn [negb] in H.
  destruct (lists_of st) as [e|[[li lj] la]] eqn:Ell; [discriminate|].
  inversion H; subst st'. apply Nat.eqb_eq in El.
  exists _i, _j, n, li, lj, la.
  rewrite <- (broadcast_tensors_lengths _ _ _ _ Eb). auto.
Qed.

(** [add] looks at the sparse dimension, the shape and the lists only. *)
Lemma add_ext x y v st1 st2 :
  sdim st1 = sdim st2 -> shape st1 = shape st2 -> lists_of st1 = lists_of st2 ->
  forall st', add x y v st1 = inr st' ->
  exists st'', add x y v st2 = inr st'' /\ store st'' = store st'.
Proof.
  intros Hd Hs Hl st' H. unfold add in *. rewrite <- Hd, <- Hs, <- Hl.
  destruct (broadcast_tensors x y) as [e|[[_i _j]|]]; try discriminate.
  destruct (size v (sdim st1)) as [n|]; [|discriminate].
  destruct (negb (length _i =? n)%nat); [discriminate|].
  destruct (negb (shape_check _ _)); [discriminate|].
  destruct (lists_of st1) as [e|[[li lj] la]]; [discriminate|].
  inversion H; subst st'. eexists. split; reflexivity.
Qed.

Lemma add_aligned x y v st st' :
  aligned st -> wf v -> size v (sdim st) <> Some 0%nat ->
  add x y v st = inr st' -> aligned st'.
Proof.
  intros (li & lj & la & Hl & Hal) Hwf Hpos H.
  apply add_inr in H.
  destruct H as (_i & _j & n & li' & lj' & la' & Hi & Hj & Hs & Hl' & ->).
  rewrite Hl in Hl'. inversion Hl'; subst li' lj' la'.
  eexists. eexists. eexists. split; [reflexivity|]. cbn [sdim].
  apply aligned_snoc with (n := n); auto using long_tensor_wf.
  - unfold long_tensor. cbn. now rewrite Hi.
  - unfold long_tensor. cbn. now rewrite Hj.
  - destruct n; [congruence|lia].
Qed.

(** X16: the three holders of a [SparseTensor] stay aligned.  They are so
    after [__init__]; an [add] of a well-formed tensor whose size along the
    sparse dimension is not 0 appends one entry to each holder and keeps
    them aligned, with one [add] or with many at once; and [_cat] keeps
    them aligned. *)
Theorem sparse_holders_aligned :
  (forall sh st, SparseTensor_init sh = inr st -> aligned st) /\
  (forall x y v st st',
     aligned st -> wf v -> size v (sdim st) <> Some 0%nat ->
     add x y v st = inr st' ->
     aligned st' /\
     exists li lj la ti tj,
       lists_of st = inr (li, lj, la) /\
       store st' = Listed (li ++ [ti]) (lj ++ [tj]) (la ++ [v]) /\
       tshape ti = tshape tj) /\
  (forall xs ys vs st st',
     aligned st -> Forall wf vs ->
     Forall (fun v => size v (sdim st) <> Some 0%nat) vs ->
     add_many xs ys vs st = inr st' -> aligned st') /\
  (forall st st', aligned st -> _cat st = inr st' -> aligned st').
Proof.
  split; [|split; [|split]].
  - intros sh st H. unfold SparseTensor_init in H.
    destruct (index 0 sh); [|discriminate].
    destruct (1 <? _)%nat; [discriminate|]. inversion H; subst.
    exists [], [], []. split; [reflexivity|constructor].
  - intros x y v st st' Hal Hwf Hpos H.
    split; [eapply add_aligned; eauto|].
    apply add_inr in H.
    destruct H as (_i & _j & n & li & lj & la & Hi & Hj & Hs & Hl & ->).
    exists li, lj, la, (long_tensor _i), (long_tensor _j).
    split; [exact Hl|]. split; [reflexivity|].
    unfold long_tensor. cbn. congruence.
  - intros xs. induction xs as [|x xs IH]; intros ys vs st st' Hal Hwf Hpos H.
    + cbn in H. inversion H; subst. exact Hal.
    + destruct ys as [|y ys]; [cbn in H; inversion H; subst; exact Hal|].
      destruct vs as [|v vs]; [cbn in H; inversion H; subst; exact Hal|].
      cbn [add_many] in H.
      destruct (add x y v st) as [e|st1] eqn:Ea; [discriminate|].
      inversion Hwf; subst. inversion Hpos; subst.
      assert (Hsd : sdim st1 = sdim st).
      { apply add_inr in Ea.
        destruct Ea as (? & ? & ? & ? & ? & ? & _ & _ & _ & _ & ->). reflexivity. }
      apply (IH ys vs st1 st'); auto.
      * eapply add_aligned; eauto.
      * now rewrite Hsd.
  - intros st st' (li & lj & la & Hl & Hal) H. unfold _cat in H.
    destruct (aligned_lists_facts _ _ _ _ Hal)
      as (Wi & Wj & Wa & Li & Lj & La & _).
    destruct (store st) as [li0 lj0 la0 | i j a si sj sa] eqn:Es.
    + unfold lists_of in Hl. rewrite Es in Hl. inversion Hl; subst li0 lj0 la0.
      destruct (cat li 0) as [e|[i si]] eqn:Ei; [discriminate|].
      destruct (cat lj 0) as [e|[j sj]] eqn:Ej; [discriminate|].
      destruct (cat la (sdim st)) as [e|[a sa]] eqn:Ea; [discriminate|].
      destruct (tensor_max i) as [e|mi]; [discriminate|].
      destruct (tensor_max j) as [e|mj]; [discriminate|].
      inversion H; subst st'.
      exists li, lj, la. split; [|exact Hal].
      unfold lists_of. cbn [store].
      rewrite (proj1 (cat_then_split _ _ _ _ Wi Li Ei)).
      rewrite (proj1 (cat_then_split _ _ _ _ Wj Lj Ej)).
      rewrite (proj1 (cat_then_split _ _ _ _ Wa La Ea)). reflexivity.
    + destruct (tensor_max i) as [e|mi]; [discriminate|].
      destruct (tensor_max j) as [e|mj]; [discriminate|].
      inversion H; subst st'.
      exists li, lj, la. split; [|exact Hal].
      unfold lists_of in *. cbn [store]. rewrite Es in Hl. exact Hl.
Qed.

(** X17: what [_cat] makes of aligned lists: the glued index tensors have
    one axis of the same length, which is the size of the glued values
    along the sparse dimension; [_split] brings back the lists as they
    were; and an [add] after [_cat] leaves the holders as the same [add]
    without [_cat]. *)
Theorem sparse_cat_split (st st' : SparseTensor) (li lj la : list Tensor) :
  store st = Listed li lj la ->
  aligned_lists (sdim st) li lj la ->
  _cat st = inr st' ->
  (exists i j a si sj sa n,
     store st' = Catted i j a si sj sa /\
     tshape i = [n] /\ tshape j = [n] /\ size a (sdim st) = Some n) /\
  _split st' = inr (mkSparse (sdim st) (shape st) (Listed li lj la)
                             (i_max st') (j_max st')) /\
  (forall x y v st2,
     add x y v st' = inr st2 ->
     exists st3, add x y v st = inr st3 /\ store st3 = store st2).
Proof.
  intros Es Hal H. unfold _cat in H. rewrite Es in H.
  destruct (aligned_lists_facts _ _ _ _ Hal)
    as (Wi & Wj & Wa & Li & Lj & La & Si & Sj & Eji & Eai).
  destruct (cat li 0) as [e|[i si]] eqn:Ei; [discriminate|].
  destruct (cat lj 0) as [e|[j sj]] eqn:Ej; [discriminate|].
  destruct (cat la (sdim st)) as [e|[a sa]] eqn:Ea; [discriminate|].
  destruct (tensor_max i) as [e|mi]; [discriminate|].
  destruct (tensor_max j) as [e|mj]; [discriminate|].
  inversion H; subst st'; clear H. cbn [store sdim shape i_max j_max].
  destruct (cat_then_split _ _ _ _ Wi Li Ei) as (Hsi & _ & Hshi).
  destruct (cat_then_split _ _ _ _ Wj Lj Ej) as (Hsj & _ & Hshj).
  destruct (cat_then_split _ _ _ _ Wa La Ea) as (Hsa & Hsza & _).
  assert (Hne : li <> [] /\ lj <> []).
  { unfold cat in Ei, Ej.
    destruct li; [destruct (sizes_along [] 0); discriminate|].
    destruct lj; [destruct (sizes_along [] 0); discriminate|].
    split; discriminate. }
  destruct Hne as [Hni Hnj].
  assert (Hl : lists_of (mkSparse (sdim st) (shape st) (Catted i j a si sj sa)
                                  (Some mi) (Some mj)) = inr (li, lj, la)).
  { unfold lists_of. cbn [store]. now rewrite Hsi, Hsj, Hsa. }
  split; [|split].
  - exists i, j, a, si, sj, sa, (list_sum (map (fun t => size_or_0 t 0) li)).
    split; [reflexivity|]. split; [now apply Hshi|].
    split; [rewrite <- Eji; now apply Hshj|]. now rewrite <- Eai.
  - unfold _split. now rewrite Hl.
  - intros x y v st2 H2.
    refine (add_ext x y v _ st _ _ _ st2 H2); [reflexivity|reflexivity|].
    rewrite Hl. unfold lists_of. now rewrite Es.
Qed.

End SparseHolders.

Lemma sparse_holders_aligned_witness :
  Tensors.SparseTensor_init [0%nat]
    = inr (Tensors.mkSparse 0 [0%nat] (Tensors.Listed [] [] []) None None) /\
  Tensors.add (Tensors.int 1) (Tensors.ints [0; 1; 2]%Z) Tensors.sample_values
    (Tensors.mkSparse 0 [0%nat] (Tensors.Listed [] [] []) None None)
    = inr Tensors.sample_sparse /\
  Tensors.aligned Tensors.sample_sparse.
Proof.
  split; [reflexivity|]. split; [reflexivity|].
  refine (proj1 (proj1 (proj2 sparse_holders_aligned)
            (Tensors.int 1) (Tensors.ints [0; 1; 2]%Z) Tensors.sample_values
            (Tensors.mkSparse 0 [0%nat] (Tensors.Listed [] [] []) None None)
            Tensors.sample_sparse _ _ _ eq_refl)).
  - apply (proj1 sparse_holders_aligned [0%nat]). reflexivity.
  - reflexivity.
  - discriminate.
Defined.

Lemma sparse_cat_split_witness :
  exists st',
    Tensors._cat Tensors.sample_sparse = inr st' /\
    Tensors._split st' = inr (Tensors.mkSparse 0 [0%nat]
                                (Tensors.store Tensors.sample_sparse)
                                (Tensors.i_max st') (Tensors.j_max st')).
Proof.
  eexists. split; [run; reflexivity|].
  refine (proj1 (proj2 (sparse_cat_split Tensors.sample_sparse _ _ _ _ eq_refl _ _))).
  - apply (Tensors.aligned_snoc 0 [] [] [] _ _ _ 3 (Tensors.aligned_nil 0));
      try reflexivity. lia.
  - run. reflexivity.
Defined.
